(** * Folded-bias majority generator: a shallow embedding of final_generator.py

    The development follows the Python source function by function.  Signal
    names, which the generator builds with f-strings, are kept as a structured
    type [signal] together with [render], the function that prints the name the
    Python code produces.  Python dictionaries are [gmap]s, sets are [gset]s,
    deques and lists are lists (append on the right, pop on the left). *)

From Stdlib Require Import ZArith Lia Bool Ascii String.
From stdpp Require Import base tactics option numbers gmap strings pretty functions sorting list fin_maps.

Open Scope nat_scope.

(** ** Signals *)

(** The [tag] argument of [new_wires]: "raw_", "" and "p_". *)
Inductive wire_tag := TagRaw | TagPlain | TagPair.

(** The two outputs of a full adder: "s" (sum) and "c" (carry). *)
Inductive wire_out := OutSum | OutCarry.

Inductive signal :=
  | SConst0                                   (* "1'b0" *)
  | SConst1                                   (* "1'b1" *)
  | SX (i : nat)                              (* f"x[{i}]" *)
  | SK (j : nat)                              (* f"K{j}" *)
  | SWire (t : wire_tag) (o : wire_out) (col id : nat)
                                              (* f"{tag}s_c{col}_{fa_id}", f"{tag}c_c{col}_{fa_id}" *)
  | ST (j : nat)                              (* f"T{j}" *)
  | SC2 (i : nat)                             (* f"c2_{i}" *)
  | SS2 (i : nat)                             (* f"s2_{i}" *)
  | SHw (i : nat).                            (* f"hw_{i}" *)

Definition render_tag (t : wire_tag) : string :=
  match t with TagRaw => "raw_" | TagPlain => "" | TagPair => "p_" end.

Definition render_out (o : wire_out) : string :=
  match o with OutSum => "s" | OutCarry => "c" end.

Definition render (s : signal) : string :=
  match s with
  | SConst0 => "1'b0"
  | SConst1 => "1'b1"
  | SX i => "x[" +:+ pretty i +:+ "]"
  | SK j => "K" +:+ pretty j
  | SWire t o col id =>
      render_tag t +:+ render_out o +:+ "_c" +:+ pretty col +:+ "_" +:+ pretty id
  | ST j => "T" +:+ pretty j
  | SC2 i => "c2_" +:+ pretty i
  | SS2 i => "s2_" +:+ pretty i
  | SHw i => "hw_" +:+ pretty i
  end.

#[global] Instance wire_tag_eq_dec : EqDecision wire_tag.
Proof. solve_decision. Defined.
#[global] Instance wire_out_eq_dec : EqDecision wire_out.
Proof. solve_decision. Defined.
#[global] Instance signal_eq_dec : EqDecision signal.
Proof. solve_decision. Defined.

Definition signal_code (s : signal) : nat * (bool * nat) * (nat * nat) :=
  match s with
  | SConst0 => (0, (false, 0), (0, 0))
  | SConst1 => (1, (false, 0), (0, 0))
  | SX i => (2, (false, 0), (0, i))
  | SK j => (3, (false, 0), (0, j))
  | SWire t o col id =>
      (4, (match o with OutSum => false | OutCarry => true end,
           match t with TagRaw => 0 | TagPlain => 1 | TagPair => 2 end), (col, id))
  | ST j => (5, (false, 0), (0, j))
  | SC2 i => (6, (false, 0), (0, i))
  | SS2 i => (7, (false, 0), (0, i))
  | SHw i => (8, (false, 0), (0, i))
  end.

Definition signal_decode (c : nat * (bool * nat) * (nat * nat)) : signal :=
  let '(ctor, (o, t), (col, i)) := c in
  match ctor with
  | 0 => SConst0
  | 1 => SConst1
  | 2 => SX i
  | 3 => SK i
  | 4 => SWire (match t with 0 => TagRaw | 1 => TagPlain | _ => TagPair end)
               (if o then OutCarry else OutSum) col i
  | 5 => ST i
  | 6 => SC2 i
  | 7 => SS2 i
  | _ => SHw i
  end.

#[global] Instance signal_countable : Countable signal.
Proof.
  apply (inj_countable' signal_code signal_decode).
  intros [| | | |[] []| | | |]; reflexivity.
Defined.

(** [_is_const]. *)
Definition _is_const (sig : signal) : bool :=
  match sig with SConst0 | SConst1 => true | _ => false end.

(** ** Full-adder networks and their meaning *)

(** A FAN operation is the 5-tuple [(a, b, cin, s, k)]. *)
Definition fa_op : Type := signal * signal * signal * signal * signal.

(** The scheduler's operations carry their column and kind in front. *)
Inductive op_kind := RawTriple | Triple | Pair.
Definition col_op : Type := nat * op_kind * signal * signal * signal * signal * signal.

Definition strip_col (o : col_op) : fa_op :=
  let '(_, _, a, b, cin, s, k) := o in (a, b, cin, s, k).

Definition xor3 (a b c : bool) : bool := xorb (xorb a b) c.
Definition maj3 (a b c : bool) : bool := (a && b) || (a && c) || (b && c).

(** Valuations of signals.  The two literals always denote themselves. *)
Abbreviation env := (signal → bool).

Definition sig_val (ρ : env) (s : signal) : bool :=
  match s with
  | SConst0 => false
  | SConst1 => true
  | _ => ρ s
  end.

(** One full adder: [module fa(input a,b,cin, output sum,cout)]. *)
Definition fa_step (ρ : env) (o : fa_op) : env :=
  let '(a, b, cin, s, k) := o in
  let va := sig_val ρ a in
  let vb := sig_val ρ b in
  let vc := sig_val ρ cin in
  <[k := maj3 va vb vc]> (<[s := xor3 va vb vc]> ρ).

Definition run_fan (ρ : env) (ops : list fa_op) : env := foldl fa_step ρ ops.

(** The valuation before any adder has fired: primary inputs carry the
    assignment, named constants of [const1] are 1, every other wire is 0. *)
Definition input_env (xs : nat → bool) (const1 : list signal) : env :=
  λ s, match s with
       | SX i => xs i
       | _ => bool_decide (s ∈ const1)
       end.

Definition decision (xs : nat → bool) (const1 : list signal)
    (ops : list fa_op) (maj : signal) : bool :=
  sig_val (run_fan (input_env xs const1) ops) maj.

(** Hamming weight of the first [n] primary inputs. *)
Definition popcount (xs : nat → bool) (n : nat) : nat :=
  sum_list_with (λ i, Nat.b2n (xs i)) (seq 0 n).

(** [((K >> j) & 1) == 1] *)
Definition bit_set (K j : nat) : bool := Nat.land (Nat.shiftr K j) 1 =? 1.

(** [math.ceil(math.log2(th))] for a positive integer, taken exactly.  The
    Python expression goes through a double, which agrees with the exact
    value for every [th] below [2^53]. *)
Definition ceil_log2 (th : nat) : nat := Nat.log2_up th.

(** ** The CSA macro scheduler *)

Module Csa.

Record sched := Sched {
  fa_id : nat;
  ops : list col_op;
  wires : list (signal * signal)
}.

Definition new_wires (col : nat) (tag : wire_tag) (st : sched)
    : signal * signal * sched :=
  let s := SWire tag OutSum col (fa_id st) in
  let k := SWire tag OutCarry col (fa_id st) in
  (s, k, Sched (S (fa_id st)) (ops st) (wires st ++ [(s, k)])).

Definition append_op (o : col_op) (st : sched) : sched :=
  Sched (fa_id st) (ops st ++ [o]) (wires st).

(** Stage A: [while len(raw) >= 3]. Returns the leftover raw inputs, the
    column-0 sums and the carries appended to [col_bits[1]]. *)
Fixpoint stage_a (raw : list signal) (col0_sums col1 : list signal) (st : sched)
    : list signal * list signal * list signal * sched :=
  match raw with
  | a :: b :: c :: raw' =>
      let '(s, k, st1) := new_wires 0 TagRaw st in
      let st2 := append_op (0, RawTriple, a, b, c, s, k) st1 in
      stage_a raw' (col0_sums ++ [s]) (col1 ++ [k]) st2
  | _ => (raw, col0_sums, col1, st)
  end.

(** The two loops of [fold_column] after [acc = queue.popleft()]. *)
Fixpoint fold_rest (col : nat) (acc : signal) (queue : list signal)
    (carries_out : list signal) (st : sched)
    : signal * list signal * sched :=
  match queue with
  | b :: c :: queue' =>
      let '(s, k, st1) := new_wires col TagPlain st in
      let st2 := append_op (col, Triple, acc, b, c, s, k) st1 in
      fold_rest col s queue' (carries_out ++ [k]) st2
  | [b] =>
      let '(s, k, st1) := new_wires col TagPair st in
      let st2 := append_op (col, Pair, acc, b, SConst0, s, k) st1 in
      (s, carries_out ++ [k], st2)
  | [] => (acc, carries_out, st)
  end.

Definition fold_column (col : nat) (queue : list signal) (st : sched)
    : option signal * list signal * sched :=
  match queue with
  | [] => (None, [], st)
  | acc :: queue' =>
      let '(acc', carries_out, st') := fold_rest col acc queue' [] st in
      (Some acc', carries_out, st')
  end.

(** The state of the column loop: the dictionaries [col_bits] and
    [const_names_per_col] (which the loop overwrites), the set
    [pending_cols], the counter [current] and what has been produced. *)
Record loop_state := LoopState {
  col_bits : gmap nat (list signal);
  consts : gmap nat (list signal);
  pending_cols : gset nat;
  current : nat;
  residual_by_col : gmap nat signal;
  const_decl : list signal;
  sch : sched
}.

(** [c in d and len(d[c]) > 0] *)
Definition has_tokens (d : gmap nat (list signal)) (c : nat) : Prop :=
  match d !! c with
  | Some l => l ≠ []
  | None => False
  end.

#[global] Instance has_tokens_dec d c : Decision (has_tokens d c).
Proof. unfold has_tokens. destruct (d !! c); apply _. Defined.

Definition candidates (ls : loop_state) : list nat :=
  filter (λ c, current ls ≤ c ∧ (has_tokens (col_bits ls) c ∨ has_tokens (consts ls) c))
         (elements (pending_cols ls)).

(** The body of the loop once the column [j] has been chosen. *)
Definition process_column (ls : loop_state) (j : nat) : loop_state :=
  let qj0 := default [] (col_bits ls !! j) in
  let names := default [] (consts ls !! j) in
  let qj := qj0 ++ names in
  let const_decl' := const_decl ls ++ names in
  let '(residual_j, carries_to_next, st') := fold_column j qj (sch ls) in
  let residual' :=
    match residual_j with
    | Some r => <[j := r]> (residual_by_col ls)
    | None => residual_by_col ls
    end in
  let '(col_bits1, pending') :=
    match carries_to_next with
    | [] => (col_bits ls, pending_cols ls)
    | _ => (<[S j := default [] (col_bits ls !! S j) ++ carries_to_next]> (col_bits ls),
            pending_cols ls ∪ {[S j]})
    end in
  let col_bits2 :=
    match col_bits1 !! j with
    | Some _ => <[j := []]> col_bits1
    | None => col_bits1
    end in
  let consts' :=
    match consts ls !! j with
    | Some _ => <[j := []]> (consts ls)
    | None => consts ls
    end in
  LoopState col_bits2 consts' pending' (S j) residual' const_decl' st'.

(** One iteration of [while True]; [None] is the [break]. *)
Definition loop_step (ls : loop_state) : option loop_state :=
  match candidates ls with
  | [] => None
  | c0 :: cs => Some (process_column ls (foldr Nat.min c0 cs))
  end.

(** The [while True] loop; running out of [fuel] is [None]. *)
Fixpoint loop (fuel : nat) (ls : loop_state) : option loop_state :=
  match fuel with
  | 0 => None
  | S fuel' =>
      match loop_step ls with
      | None => Some ls
      | Some ls' => loop fuel' ls'
      end
  end.

Definition token_count (d : gmap nat (list signal)) : nat :=
  map_fold (λ _ l acc, length l + acc) 0 d.

(** The state in which the column loop is entered: stages A and B done. *)
Definition loop_entry (raw_inputs : list signal)
    (const_names_per_col : gmap nat (list signal)) : loop_state :=
  let '(raw, col0_sums, col1, st1) := stage_a raw_inputs [] [] (Sched 0 [] []) in
  let names0 := default [] (const_names_per_col !! 0) in
  let col0_queue := (col0_sums ++ raw) ++ names0 in
  let '(res0, carries_to_1, st2) := fold_column 0 col0_queue st1 in
  let residual :=
    match res0 with
    | Some r => <[0 := r]> (∅ : gmap nat signal)
    | None => ∅
    end in
  let col_bits0 : gmap nat (list signal) := {[1 := col1 ++ carries_to_1]} in
  LoopState col_bits0 const_names_per_col
            (dom col_bits0 ∪ dom const_names_per_col) 1 residual names0 st2.

Record result := Result {
  r_ops : list col_op;
  r_wires : list (signal * signal);
  r_residual_by_col : gmap nat signal;
  r_const_decl : list signal
}.

(** [csa_macro_schedule_all_columns].  The fuel is the number of tokens
    that are still pending when the column loop starts, plus one. *)
Definition run_columns (raw_inputs : list signal)
    (const_names_per_col : gmap nat (list signal)) : option loop_state :=
  let ls0 := loop_entry raw_inputs const_names_per_col in
  let fuel := S (length (default [] (col_bits ls0 !! 1)) + token_count (consts ls0)) in
  loop fuel ls0.

Definition csa_macro_schedule_all_columns (raw_inputs : list signal)
    (const_names_per_col : gmap nat (list signal)) : option result :=
  ls ← run_columns raw_inputs const_names_per_col;
  Some (Result (ops (sch ls)) (wires (sch ls)) (residual_by_col ls) (const_decl ls)).

End Csa.

(** ** Folded bias *)

Inductive outcome (A : Type) :=
  | Ok (a : A)
  | AssertionError
  | OutOfFuel.
Arguments Ok {A} a.
Arguments AssertionError {A}.
Arguments OutOfFuel {A}.

Definition from_fuel {A} (o : option A) : outcome A :=
  match o with Some a => Ok a | None => OutOfFuel end.

(** [n % 2 == 1 and n >= 3] on a Python integer. *)
Definition valid_n (n : Z) : bool := ((n `mod` 2 =? 1) && (3 <=? n))%Z.

Definition K_bits_set (w K : nat) : list nat := filter (λ j, bit_set K j = true) (seq 0 w).

Definition bias_consts (w K : nat) : gmap nat (list signal) :=
  foldl (λ d j, if bit_set K j then <[j := default [] (d !! j) ++ [SK j]]> d else d) ∅ (seq 0 w).

Record fb_stats := FbStats {
  st_n : nat;
  st_threshold : nat;
  st_w_bits : nat;
  st_bias_K : nat;
  st_K_bits_set : list nat;
  st_fa_count : nat;
  st_maj_signal : signal
}.

Record fb_emitted := FbEmitted {
  fb_count : nat;
  fb_ops : list col_op;
  fb_const1 : list signal;
  fb_maj_cout : signal;
  fb_stats_of : fb_stats
}.

(** [last_k]: the carry of the last operation whose column is [w-1]. *)
Definition last_carry_at (w : nat) (ops : list col_op) : option signal :=
  foldl (λ last_k '(col, _, _, _, _, _, k), if S col =? w then Some k else last_k) None ops.

(** [emit_folded_bias], without the Verilog text it also returns. *)
Definition emit_folded_bias (n : Z) : outcome fb_emitted :=
  if negb (valid_n n) then AssertionError else
  let n := Z.to_nat n in
  let th := (n + 1) / 2 in
  let w := ceil_log2 th in
  let K := Nat.shiftl 1 w - th in
  let consts := bias_consts w K in
  let raw_inputs := SX <$> seq 0 n in
  match Csa.csa_macro_schedule_all_columns raw_inputs consts with
  | None => OutOfFuel
  | Some r =>
      let ops := Csa.r_ops r in
      let maj_cout :=
        if w =? 0 then SConst0
        else default SConst0 (last_carry_at w ops) in
      Ok (FbEmitted (length ops) ops (SK <$> K_bits_set w K) maj_cout
            (FbStats n th w K (K_bits_set w K) (length ops) maj_cout))
  end.

(** ** [build_folded_bias_netlist] *)

Module FbNet.

Record build := Build {
  fa_id : nat;
  fa_ops : list fa_op;
  last_cout_wm1 : option signal
}.

Section WithWidth.
Variable w : nat.

(** [col == (w - 1)] is written [S col = w]: the two agree on integers
    and [w - 1] is negative, hence never a column, when [w = 0]. *)
Definition new_wires (col : nat) (tag : wire_tag) (st : build)
    : signal * signal * build :=
  let s := SWire tag OutSum col (fa_id st) in
  let k := SWire tag OutCarry col (fa_id st) in
  (s, k, Build (S (fa_id st)) (fa_ops st)
               (if S col =? w then Some k else last_cout_wm1 st)).

Definition append_op (o : fa_op) (st : build) : build :=
  Build (fa_id st) (fa_ops st ++ [o]) (last_cout_wm1 st).

Fixpoint stage_a (raw : list signal) (col0_sums col1 : list signal) (st : build)
    : list signal * list signal * list signal * build :=
  match raw with
  | a :: b :: c :: raw' =>
      let '(s, k, st1) := new_wires 0 TagRaw st in
      let st2 := append_op (a, b, c, s, k) st1 in
      stage_a raw' (col0_sums ++ [s]) (col1 ++ [k]) st2
  | _ => (raw, col0_sums, col1, st)
  end.

Fixpoint fold_rest (col : nat) (acc : signal) (queue : list signal)
    (carries_out : list signal) (st : build)
    : signal * list signal * build :=
  match queue with
  | b :: c :: queue' =>
      let '(s, k, st1) := new_wires col TagPlain st in
      let st2 := append_op (acc, b, c, s, k) st1 in
      fold_rest col s queue' (carries_out ++ [k]) st2
  | [b] =>
      let '(s, k, st1) := new_wires col TagPair st in
      let st2 := append_op (acc, b, SConst0, s, k) st1 in
      (s, carries_out ++ [k], st2)
  | [] => (acc, carries_out, st)
  end.

Definition fold_column (col : nat) (queue : list signal) (st : build)
    : option signal * list signal * build :=
  match queue with
  | [] => (None, [], st)
  | acc :: queue' =>
      let '(acc', carries_out, st') := fold_rest col acc queue' [] st in
      (Some acc', carries_out, st')
  end.

(** A queue fetched with [col_bits.get(j, deque())] is the dictionary's
    own deque when the key is present; [fold_column] pops it empty. *)
Definition drained (j : nat) (col_bits : gmap nat (list signal))
    : gmap nat (list signal) :=
  match col_bits !! j with
  | Some _ => <[j := []]> col_bits
  | None => col_bits
  end.

(** [col_bits.setdefault(j, deque()).extend(ks)] *)
Definition extend_col (j : nat) (ks : list signal)
    (col_bits : gmap nat (list signal)) : gmap nat (list signal) :=
  <[j := default [] (col_bits !! j) ++ ks]> col_bits.

(** Body of [for j in range(1, max(1, w - 1))]. *)
Definition fold_middle (K : nat) (acc : gmap nat (list signal) * build) (j : nat)
    : gmap nat (list signal) * build :=
  let '(col_bits, st) := acc in
  let qj := default [] (col_bits !! j) in
  let qj := if bit_set K j then qj ++ [SK j] else qj in
  let '(_, carries_to_next, st') := fold_column j qj st in
  let col_bits := drained j col_bits in
  let col_bits :=
    match carries_to_next with
    | [] => col_bits
    | _ => extend_col (S j) carries_to_next col_bits
    end in
  (col_bits, st').

Definition build_columns (n K : nat) : gmap nat (list signal) * build :=
  let raw := SX <$> seq 0 n in
  let '(raw, col0_sums, col1, st1) := stage_a raw [] [] (Build 0 [] None) in
  let col0_queue := col0_sums ++ raw in
  let col0_queue := if bit_set K 0 then col0_queue ++ [SK 0] else col0_queue in
  let '(_, carries_to_1, st2) := fold_column 0 col0_queue st1 in
  let col_bits : gmap nat (list signal) := {[1 := col1 ++ carries_to_1]} in
  foldl (fold_middle K) (col_bits, st2) (seq 1 (Nat.max 1 (w - 1) - 1)).

Definition last_column (K : nat) (acc : gmap nat (list signal) * build) : build :=
  let '(col_bits, st) := acc in
  let q := default [] (col_bits !! (w - 1)) in
  let q := if bit_set K (w - 1) then q ++ [SK (w - 1)] else q in
  match q with
  | [] => st
  | _ => (fold_column (w - 1) q st).2
  end.

End WithWidth.

Definition build_folded_bias_netlist (n : Z)
    : outcome (list fa_op * list signal * signal) :=
  if negb (valid_n n) then AssertionError else
  let n := Z.to_nat n in
  let th := (n + 1) / 2 in
  let w := ceil_log2 th in
  let K := Nat.shiftl 1 w - th in
  let const1_names := SK <$> K_bits_set w K in
  let acc := build_columns w n K in
  if w =? 0 then Ok (fa_ops acc.2, const1_names, SConst0)
  else
    let st := last_column w K acc in
    Ok (fa_ops st, const1_names, default SConst0 (last_cout_wm1 st)).

End FbNet.

(** ** Baseline strict *)

Module Baseline.

Record params := Params {
  p_p : nat; p_N : nat; p_m : nat; p_th_N : nat; p_k : nat; p_n_big : nat
}.


(** [num_fix = n_big - k] is an integer in Python; the assertion
    [num_fix >= 0] is the test [k <= n_big]. *)
Definition num_fix (ps : params) : nat := p_n_big ps - p_k ps.


Definition th_mask_bits (ps : params) : list bool :=
  (λ j, bit_set (p_th_N ps - 1) j) <$> seq 0 (p_m ps).


Definition const1_names (ps : params) : list signal :=
  SC2 0 :: (ST <$> filter (λ j, bit_set (p_th_N ps - 1) j = true) (seq 0 (p_m ps))).




End Baseline.

(** ** The netlist optimizer *)

(** [_prune_fa_netlist]: the backward walk, with the set [needed]. *)
Definition prune_step (acc : gset signal * list fa_op) (o : fa_op)
    : gset signal * list fa_op :=
  let '(needed, pruned_rev) := acc in
  let '(a, b, cin, s, k) := o in
  if decide (s ∈ needed ∨ k ∈ needed) then
    (foldl (λ nd sig, if _is_const sig then nd else nd ∪ {[sig]}) needed [a; b; cin],
     pruned_rev ++ [o])
  else (needed, pruned_rev).

Definition _prune_fa_netlist (fa_ops : list fa_op) (maj_signal : signal) : list fa_op :=
  reverse (foldl prune_step ({[maj_signal]}, []) (reverse fa_ops)).2.

(** [resolve]: [while sig in const_map: sig = const_map[sig]].  A chain
    longer than the dictionary has entries revisits a key and never ends in
    Python; that is [None] here. *)
Fixpoint resolve_chain (const_map : gmap signal signal) (fuel : nat) (sig : signal)
    : option signal :=
  match const_map !! sig with
  | None => Some sig
  | Some sig' =>
      match fuel with
      | 0 => None
      | S fuel' => resolve_chain const_map fuel' sig'
      end
  end.

Definition resolve (const_map : gmap signal signal) (sig : signal) : option signal :=
  resolve_chain const_map (size const_map) sig.

Definition const_of_bool (b : bool) : signal := if b then SConst1 else SConst0.

(** The first loop of [_constant_fold_and_prune]. *)
Fixpoint fold_constants (fa_ops : list fa_op) (const_map : gmap signal signal)
    (processed : list fa_op) : option (gmap signal signal * list fa_op) :=
  match fa_ops with
  | [] => Some (const_map, processed)
  | (a, b, cin, s, k) :: rest =>
      a ← resolve const_map a;
      b ← resolve const_map b;
      cin ← resolve const_map cin;
      if _is_const a && _is_const b && _is_const cin then
        let ones := Nat.b2n (bool_decide (a = SConst1)) + Nat.b2n (bool_decide (b = SConst1))
                    + Nat.b2n (bool_decide (cin = SConst1)) in
        let const_map := <[s := const_of_bool (Nat.land ones 1 =? 1)]> const_map in
        let const_map := <[k := const_of_bool (2 <=? ones)]> const_map in
        fold_constants rest const_map processed
      else fold_constants rest const_map (processed ++ [(a, b, cin, s, k)])
  end.

Definition resolve_op (const_map : gmap signal signal) (o : fa_op) : option fa_op :=
  let '(a, b, cin, s, k) := o in
  a ← resolve const_map a;
  b ← resolve const_map b;
  cin ← resolve const_map cin;
  s ← resolve const_map s;
  k ← resolve const_map k;
  Some (a, b, cin, s, k).

Definition _constant_fold_and_prune (fa_ops : list fa_op) (maj_signal : signal)
    : option (list fa_op * signal) :=
  '(const_map, processed) ← fold_constants fa_ops ∅ [];
  maj_signal ← resolve const_map maj_signal;
  folded ← mapM (resolve_op const_map) processed;
  Some (_prune_fa_netlist folded maj_signal, maj_signal).

(** [sorted(used)]: the names in ascending order of their text. *)
Fixpoint insert_by_name (x : signal) (l : list signal) : list signal :=
  match l with
  | [] => [x]
  | y :: l' =>
      if String.leb (render x) (render y) then x :: l else y :: insert_by_name x l'
  end.

Definition sorted_by_name (l : list signal) : list signal := foldr insert_by_name [] l.

(** [_collect_const_names]: the candidates that the network mentions. *)
Definition _collect_const_names (fa_ops : list fa_op) (maj_signal : signal)
    (candidates : list signal) : list signal :=
  let mentioned :=
    mjoin ((λ '(a, b, cin, s, k), [a; b; cin; s; k]) <$> fa_ops) ++ [maj_signal] in
  sorted_by_name (remove_dups (filter (λ sig, sig ∈ candidates) mentioned)).

(** ** Scaffold layouts *)

(** Layout tokens [('x', i)], [('1', i)], [('0', i)]. *)
Inductive layout_kind := KindX | KindOne | KindZero.
Abbreviation layout_token := (layout_kind * nat)%type.

#[global] Instance layout_kind_eq_dec : EqDecision layout_kind.
Proof. solve_decision. Defined.


Definition _tokens_to_mapping (sequence : list layout_token) : list signal :=
  (λ '(kind, idx), match kind with
                   | KindX => SX idx
                   | KindOne => SConst1
                   | KindZero => SConst0
                   end) <$> sequence.

(** Only names of the form [x[idx]] are remapped. *)
Definition _remap_signal (sig : signal) (mapping : list signal) : signal :=
  match sig with
  | SX idx => default sig (mapping !! idx)
  | _ => sig
  end.

Definition _apply_mapping_to_netlist (fa_ops : list fa_op) (maj_signal : signal)
    (mapping : list signal) : list fa_op * signal :=
  ((λ '(a, b, cin, s, k),
      (_remap_signal a mapping, _remap_signal b mapping, _remap_signal cin mapping, s, k))
     <$> fa_ops,
   _remap_signal maj_signal mapping).

Section Layouts.
(** [random.seed(seed); random.shuffle(seq)] of the Python library, as a
    function of the seed and the list. *)
Variable shuffle : nat → list layout_token → list layout_token.

Variables (n num_fix N_big : nat).

Definition layout_clustered : list layout_token :=
  ((λ i, (KindX, i)) <$> seq 0 n)
  ++ mjoin ((λ idx, [(KindOne, idx); (KindZero, idx)]) <$> seq 0 num_fix).

(** The state [(seq, x_idx, ones_idx, zeros_idx)] of the layout loops. *)
Definition lay_state : Type := list layout_token * nat * nat * nat.

Definition push_x (c : bool) (st : lay_state) : lay_state :=
  let '(sq, x, o, z) := st in
  if c && (x <? n) then (sq ++ [(KindX, x)], S x, o, z) else st.
Definition push_one (c : bool) (st : lay_state) : lay_state :=
  let '(sq, x, o, z) := st in
  if c && (o <? num_fix) then (sq ++ [(KindOne, o)], x, S o, z) else st.
Definition push_zero (c : bool) (st : lay_state) : lay_state :=
  let '(sq, x, o, z) := st in
  if c && (z <? num_fix) then (sq ++ [(KindZero, z)], x, o, S z) else st.
Definition room (st : lay_state) : bool := length st.1.1.1 <? N_big.

(** A [while] loop whose every turn must append something: a turn that
    appends nothing repeats forever in Python, which is [None]. *)
Fixpoint while_growing (fuel : nat) (cond : lay_state → bool)
    (body : lay_state → lay_state) (st : lay_state) : option lay_state :=
  if cond st then
    match fuel with
    | 0 => None
    | S fuel' =>
        let st' := body st in
        if length st'.1.1.1 <=? length st.1.1.1 then None
        else while_growing fuel' cond body st'
    end
  else Some st.

Definition layout_interleaved : option (list layout_token) :=
  let st := foldl (λ st idx,
               let '(sq, x, o, z) := st in
               push_zero true (push_one true (sq ++ [(KindX, idx)], x, o, z)))
              ([], 0, 0, 0) (seq 0 n) in
  st ← while_growing (2 * num_fix)
         (λ '(_, _, o, z), (o <? num_fix) || (z <? num_fix))
         (λ st, push_zero true (push_one true st)) st;
  Some st.1.1.1.

Definition layout_alternating : option (list layout_token) :=
  st ← while_growing N_big room
         (λ st, let st := push_x true st in
                let st := push_one (room st) st in
                let st := push_x (room st) st in
                push_zero (room st) st) ([], 0, 0, 0);
  st ← while_growing N_big (λ st, (st.1.1.2 <? n) && room st) (push_x true) st;
  st ← while_growing N_big (λ st, (st.1.2 <? num_fix) && room st) (push_one true) st;
  st ← while_growing N_big (λ st, (st.2 <? num_fix) && room st) (push_zero true) st;
  Some st.1.1.1.

(** The loop of [layout_alt_offset1]; [toggle] is threaded beside the state. *)
Definition alt_off1_body (toggle : nat) (st : lay_state) : lay_state :=
  let '(sq, x, o, z) := st in
  if (toggle mod 2 =? 0) && (x <? n) then push_x true st
  else if (toggle mod 4 =? 1) && (o <? num_fix) then push_one true st
  else if (toggle mod 4 =? 3) && (z <? num_fix) then push_zero true st
  else if x <? n then push_x true st
  else if o <? num_fix then push_one true st
  else if z <? num_fix then push_zero true st
  else st.

Fixpoint alt_off1_loop (fuel toggle : nat) (st : lay_state) : option lay_state :=
  if room st then
    match fuel with
    | 0 => None
    | S fuel' =>
        let st' := alt_off1_body toggle st in
        if length st'.1.1.1 <=? length st.1.1.1 then None
        else alt_off1_loop fuel' (S toggle) st'
    end
  else Some st.

Definition layout_alt_offset1 : option (list layout_token) :=
  st ← alt_off1_loop N_big 0 ([], 0, 0, 0);
  Some (take N_big st.1.1.1).

Definition layout_base : list layout_token :=
  ((λ i, (KindX, i)) <$> seq 0 n) ++ ((λ i, (KindOne, i)) <$> seq 0 num_fix)
  ++ ((λ i, (KindZero, i)) <$> seq 0 num_fix).

Definition _scaffold_layout_sequences : option (list (string * list layout_token)) :=
  if num_fix =? 0 then Some [("identity", (λ i, (KindX, i)) <$> seq 0 n)] else
  l2 ← layout_interleaved;
  l3 ← layout_alternating;
  l4 ← layout_alt_offset1;
  let rand := (λ seed, ("rand" +:+ pretty seed, take N_big (shuffle seed layout_base)))
                <$> seq 0 12 in
  Some ((λ '(name, sq), (name, take N_big sq))
          <$> ([("clustered", layout_clustered); ("interleaved", l2);
                ("alternating", l3); ("alt_off1", l4)] ++ rand)).

Record selection := Selection {
  sel_score : nat * nat;
  sel_label : string;
  sel_mapping : list signal;
  sel_fa_ops : list fa_op;
  sel_maj_signal : signal;
  sel_const1_names : list signal
}.

(** Tuple comparison [score < best['score']]. *)
Definition score_lt (a b : nat * nat) : bool :=
  (a.1 <? b.1) || ((a.1 =? b.1) && (a.2 <? b.2)).

(** The body of the loop of [_select_scaffold_layout] up to the score. *)
Definition candidate (fa_ops : list fa_op) (maj_signal : signal) (const1_names : list signal)
    (idx : nat) (lay : string * list layout_token) : option selection :=
  let mapping := _tokens_to_mapping lay.2 in
  let '(mapped_ops, mapped_maj) := _apply_mapping_to_netlist fa_ops maj_signal mapping in
  '(mapped_ops, mapped_maj) ← _constant_fold_and_prune mapped_ops mapped_maj;
  let const_used := _collect_const_names mapped_ops mapped_maj const1_names in
  Some (Selection (length mapped_ops, idx) lay.1 mapping mapped_ops mapped_maj const_used).

Fixpoint select_from (fa_ops : list fa_op) (maj_signal : signal) (const1_names : list signal)
    (idx : nat) (layouts : list (string * list layout_token)) (best : option selection)
    : option (option selection) :=
  match layouts with
  | [] => Some best
  | lay :: rest =>
      c ← candidate fa_ops maj_signal const1_names idx lay;
      let best' :=
        match best with
        | None => Some c
        | Some b => if score_lt (sel_score c) (sel_score b) then Some c else Some b
        end in
      select_from fa_ops maj_signal const1_names (S idx) rest best'
  end.

(** [_select_scaffold_layout]; the outer [option] is termination, the
    inner one Python's [None] for an empty list of layouts. *)
Definition _select_scaffold_layout (fa_ops : list fa_op) (maj_signal : signal)
    (const1_names : list signal) : option (option selection) :=
  layouts ← _scaffold_layout_sequences;
  select_from fa_ops maj_signal const1_names 0 layouts None.

End Layouts.

(** ** The canonical BLIF emitter *)

Module Blif.

Open Scope string_scope.

(** [sig.replace('[','').replace(']','').replace(' ','_').replace('.','_')] *)
Fixpoint replace_chars (sig : string) : string :=
  match sig with
  | EmptyString => EmptyString
  | String c rest =>
      if bool_decide (c = "["%char) || bool_decide (c = "]"%char) then replace_chars rest
      else if bool_decide (c = " "%char) || bool_decide (c = "."%char)
           then String "_"%char (replace_chars rest)
           else String c (replace_chars rest)
  end.

Definition _sanitize (sig : string) : string :=
  if bool_decide (sig = "1'b0") || bool_decide (sig = "1'b1") then sig
  else replace_chars sig.

(** [map_in] without its two flags, which [uses_const] recomputes. *)
Definition map_in (sig : string) : string :=
  let s := _sanitize sig in
  if bool_decide (s = "1'b0") then "CONST0"
  else if bool_decide (s = "1'b1") then "CONST1"
  else s.

(** [sorted] on a list of strings, by insertion. *)
Fixpoint insert_sorted (x : string) (l : list string) : list string :=
  match l with
  | [] => [x]
  | y :: l' => if String.leb x y then x :: l else y :: insert_sorted x l'
  end.

Definition sorted (l : list string) : list string := foldr insert_sorted [] l.

(** [lst.index(x)] *)
Fixpoint index (x : string) (lst : list string) : nat :=
  match lst with
  | [] => 0
  | y :: lst' => if bool_decide (y = x) then 0 else S (index x lst')
  end.

Definition _sorted3 (a b c : string) : list string * list nat :=
  let lst := [a; b; c] in
  let srt := sorted lst in
  (srt, (λ x, index x lst) <$> srt).

Definition char_at (p : string) (i : nat) : ascii := default " "%char (String.get i p).

Definition _permute_pattern (p : string) (perm : list nat) : string :=
  if negb (String.length p =? 3)%nat then p
  else string_of_list_ascii ((λ i, char_at p (perm !!! i)) <$> seq 0 3).

(** A [.names] block: its sorted inputs, its output and its true rows. *)
Record block := Block {
  blk_inputs : list string;
  blk_output : string;
  blk_rows : list string
}.

Definition block_lines (b : block) : list string :=
  (".names " +:+ String.concat " " (blk_inputs b ++ [blk_output b]))
  :: ((λ r, r +:+ " 1") <$> blk_rows b).

Definition bit_char (b : bool) : string := if b then "1" else "0".

(** [sorted(set(rows))] *)
Definition sorted_set (rows : list string) : list string := sorted (remove_dups rows).

Definition emit_maj3 (A B C OUT : string) (mask : option (bool * bool * bool)) : block :=
  let '(na, nb, nc) := default (false, false, false) mask in
  let '(srt, perm) := _sorted3 A B C in
  let mask_orig := [na; nb; nc] in
  let mask_sorted := (λ perm_idx, mask_orig !!! perm_idx) <$> perm in
  let rows :=
    a ← [false; true]; b ← [false; true]; c ← [false; true];
    let adjusted := Nat.b2n (xorb a (mask_sorted !!! 0%nat))
                    + Nat.b2n (xorb b (mask_sorted !!! 1%nat))
                    + Nat.b2n (xorb c (mask_sorted !!! 2%nat)) in
    if (2 <=? adjusted)%nat then [bit_char a +:+ bit_char b +:+ bit_char c] else [] in
  Block srt OUT (sorted_set rows).

Definition emit_xor3 (A B C S : string) : block :=
  let '(srt, perm) := _sorted3 A B C in
  let rows := ["001"; "010"; "100"; "111"] in
  let rows := (λ r, _permute_pattern r perm) <$> rows in
  Block srt S rows.

(** The expansion of the [i]-th full adder, on rendered names. *)
Definition expand_fa (maj_only : bool) (i : nat)
    (o : string * string * string * string * string) : list block :=
  let '(a, b, cin, s, k) := o in
  let A := map_in a in
  let B := map_in b in
  let C := map_in cin in
  let S := _sanitize s in
  let K := _sanitize k in
  if maj_only then
    let op1 := "fa" +:+ pretty i +:+ "_op1" in
    [emit_maj3 A B C K None;
     emit_maj3 A B C op1 (Some (true, false, false));
     emit_maj3 op1 A K S (Some (false, false, true))]
  else
    [emit_xor3 A B C S; emit_maj3 A B C K None].

Definition uses_const (lit : string)
    (fa_ops : list (string * string * string * string * string)) : bool :=
  existsb (λ '(a, b, cin, _, _),
             bool_decide (_sanitize a = lit) || bool_decide (_sanitize b = lit)
             || bool_decide (_sanitize cin = lit)) fa_ops.

(** The loop over [const1_names]: a name is declared where it first occurs;
    [seen] is [const1_set]. *)
Fixpoint first_occurrences (seen : list string) (names : list string) : list string :=
  match names with
  | [] => []
  | ksan :: names' =>
      if bool_decide (ksan ∈ seen) then first_occurrences seen names'
      else ksan :: first_occurrences (ksan :: seen) names'
  end.

(** [_write_blif_from_fas_canonical]: the lines written to the file. *)
Definition _write_blif_from_fas_canonical (model_name : string) (n : nat)
    (fa_ops : list (string * string * string * string * string))
    (maj_signal : string) (const1_names : list string) (maj_only : bool) : list string :=
  let inputs := (λ i, "x" +:+ pretty i) <$> seq 0 n in
  let const1_set := first_occurrences [] (_sanitize <$> const1_names) in
  [".model " +:+ model_name]
  ++ (if bool_decide (inputs = []) then [] else [".inputs " +:+ String.concat " " inputs])
  ++ [".outputs maj"]
  ++ mjoin ((λ ksan, [".names " +:+ ksan; "1"]) <$> const1_set)
  ++ mjoin (block_lines <$> mjoin (imap (expand_fa maj_only) fa_ops))
  ++ (if uses_const "1'b1" fa_ops && negb (bool_decide ("CONST1" ∈ const1_set))
      then [".names CONST1"; "1"] else [])
  ++ (if uses_const "1'b0" fa_ops then [".names CONST0"] else [])
  ++ [".names " +:+ _sanitize maj_signal +:+ " maj"; "1 1"; ".end"].

(** *** Meaning of a block: the output is 1 iff some row matches. *)
Definition char_matches (v : bool) (c : ascii) : bool :=
  if bool_decide (c = "-"%char) then true
  else if v then bool_decide (c = "1"%char) else bool_decide (c = "0"%char).

Fixpoint row_matches (vals : list bool) (row : list ascii) : bool :=
  match vals, row with
  | [], [] => true
  | v :: vals', c :: row' => char_matches v c && row_matches vals' row'
  | _, _ => false
  end.

Definition block_eval (σ : string → bool) (b : block) : bool :=
  existsb (λ r, row_matches (σ <$> blk_inputs b) (list_ascii_of_string r)) (blk_rows b).

End Blif.

(** * Specification vocabulary *)

Definition ins (o : fa_op) : list signal := let '(a, b, cin, _, _) := o in [a; b; cin].
Definition outs (o : fa_op) : list signal := let '(_, _, _, s, k) := o in [s; k].

(** The FAN invariant of the data model: every output is a wire produced by
    exactly one operation, and no operand is produced by its own or a later
    operation. *)
Fixpoint fan_wf (ops : list fa_op) : Prop :=
  match ops with
  | [] => True
  | o :: rest =>
      (∀ x, x ∈ outs o → _is_const x = false)
      ∧ NoDup (outs o)
      ∧ (∀ x, x ∈ ins o → x ∉ outs o)
      ∧ Forall (λ o', ∀ x, x ∈ ins o ++ outs o → x ∉ outs o') rest
      ∧ fan_wf rest
  end.

(** No output of the operation is a literal or a primary input. *)
Definition drives_wires (o : fa_op) : Prop :=
  ∀ x, x ∈ outs o → _is_const x = false ∧ ∀ i, x ≠ SX i.

(** A FAN over the primary inputs. *)
Definition fan_ok (ops : list fa_op) : Prop := fan_wf ops ∧ Forall drives_wires ops.

(** A valuation satisfies an adder when its outputs are the parity and the
    majority of its operands. *)
Definition fa_holds (ρ : env) (o : fa_op) : Prop :=
  let '(a, b, cin, s, k) := o in
  sig_val ρ s = xor3 (sig_val ρ a) (sig_val ρ b) (sig_val ρ cin)
  ∧ sig_val ρ k = maj3 (sig_val ρ a) (sig_val ρ b) (sig_val ρ cin).

Definition models (ρ : env) (ops : list fa_op) : Prop := Forall (fa_holds ρ) ops.

(** Number of ones among a list of signals. *)
Definition val (ρ : env) (l : list signal) : nat :=
  sum_list_with (λ s, Nat.b2n (sig_val ρ s)) l.

(** A signal that can sit in a queue while [bound] adders exist: a wire of
    an adder already made, a literal, or a primary signal. *)
Definition tok_ok (prim : signal → Prop) (bound : nat) (s : signal) : Prop :=
  match s with
  | SWire _ _ _ id => id < bound
  | SConst0 | SConst1 => True
  | _ => prim s
  end.

(** The [i]-th adder of a schedule drives the two wires numbered [i]. *)
Definition op_ok (prim : signal → Prop) (i : nat) (o : fa_op) : Prop :=
  let '(a, b, cin, s, k) := o in
  tok_ok prim i a ∧ tok_ok prim i b ∧ tok_ok prim i cin
  ∧ ∃ t col, s = SWire t OutSum col i ∧ k = SWire t OutCarry col i.

Definition ops_ok (prim : signal → Prop) (base : nat) (ops : list fa_op) : Prop :=
  ∀ i o, ops !! i = Some o → op_ok prim (base + i) o.

(** * Meaning of a network *)

Section Semantics.
Implicit Types (ρ : env) (o : fa_op) (ops : list fa_op) (x s : signal).

Lemma sig_val_insert_ne ρ s x (v : bool) :
  s ≠ x → sig_val (<[s := v]> ρ) x = sig_val ρ x.
Proof. intros Hne. destruct x; try done; unfold sig_val; by rewrite fn_lookup_insert_ne. Qed.

Lemma sig_val_insert_eq ρ s (v : bool) :
  _is_const s = false → sig_val (<[s := v]> ρ) s = v.
Proof. intros Hc. destruct s; try done; unfold sig_val; by rewrite fn_lookup_insert. Qed.

Lemma elem_of_2 x (a b : signal) : x ∈ [a; b] ↔ x = a ∨ x = b.
Proof. rewrite !elem_of_cons, elem_of_nil. tauto. Qed.

Lemma elem_of_3 x (a b c : signal) : x ∈ [a; b; c] ↔ x = a ∨ x = b ∨ x = c.
Proof. rewrite !elem_of_cons, elem_of_nil. tauto. Qed.

Lemma fa_step_frame ρ o x : x ∉ outs o → sig_val (fa_step ρ o) x = sig_val ρ x.
Proof.
  destruct o as [[[[a b] c] s] k]. simpl. rewrite elem_of_2. intros Hx.
  rewrite !sig_val_insert_ne; [done | |]; intros ->; apply Hx; auto.
Qed.


Lemma run_fan_frame ops ρ x :
  Forall (λ o, x ∉ outs o) ops → sig_val (run_fan ρ ops) x = sig_val ρ x.
Proof.
  revert ρ. induction ops as [|o ops IH]; intros ρ Hx; [done|].
  inversion_clear Hx as [|? ? Hx1 Hx2]. simpl.
  unfold run_fan in IH. rewrite IH by done. by apply fa_step_frame.
Qed.

Lemma fa_step_holds ρ o :
  (∀ x, x ∈ outs o → _is_const x = false) → NoDup (outs o) →
  (∀ x, x ∈ ins o → x ∉ outs o) →
  fa_holds (fa_step ρ o) o.
Proof.
  destruct o as [[[[a b] c] s] k]. intros Hc Hnd Hin.
  assert (s ≠ k) as Hsk.
  { simpl in Hnd. apply NoDup_cons in Hnd as [Hnd _]. intros ->. apply Hnd. left. }
  assert (∀ x, x ∈ [a; b; c] → sig_val (fa_step ρ (a, b, c, s, k)) x = sig_val ρ x) as Hfr.
  { intros x Hx. apply fa_step_frame, Hin, Hx. }
  unfold fa_holds. rewrite (Hfr a), (Hfr b), (Hfr c) by (apply elem_of_3; tauto). simpl. split.
  - rewrite sig_val_insert_ne by done. apply sig_val_insert_eq, Hc. simpl. apply elem_of_2; tauto.
  - apply sig_val_insert_eq, Hc. simpl. apply elem_of_2; tauto.
Qed.

Lemma fa_holds_ext ρ1 ρ2 o :
  (∀ x, x ∈ ins o ++ outs o → sig_val ρ1 x = sig_val ρ2 x) →
  fa_holds ρ1 o → fa_holds ρ2 o.
Proof.
  destruct o as [[[[a b] c] s] k]. intros Heq [H1 H2]. unfold fa_holds.
  rewrite <- (Heq a), <- (Heq b), <- (Heq c), <- (Heq s), <- (Heq k)
    by (simpl; rewrite !elem_of_cons; tauto).
  done.
Qed.

(** Running a well-formed network yields a valuation that satisfies every
    one of its adders. *)
Lemma run_fan_models ops ρ : fan_wf ops → models (run_fan ρ ops) ops.
Proof.
  revert ρ. induction ops as [|o ops IH]; intros ρ Hwf; [constructor|].
  destruct Hwf as (Hc & Hnd & Hin & Hlater & Hwf). constructor.
  - apply (fa_holds_ext (fa_step ρ o)); [|by apply fa_step_holds].
    intros x Hx. simpl. symmetry. apply run_fan_frame.
    eapply Forall_impl; [exact Hlater|]. intros o' Ho'. by apply Ho'.
  - apply IH, Hwf.
Qed.

Lemma models_app ρ ops1 ops2 : models ρ (ops1 ++ ops2) ↔ models ρ ops1 ∧ models ρ ops2.
Proof. apply Forall_app. Qed.

Lemma ops_ok_app prim base ops1 ops2 :
  ops_ok prim base (ops1 ++ ops2)
  ↔ ops_ok prim base ops1 ∧ ops_ok prim (base + length ops1) ops2.
Proof.
  unfold ops_ok. split.
  - intros H. split.
    + intros i o Hi. apply H. by apply lookup_app_l_Some.
    + intros i o Hi. rewrite <- Nat.add_assoc. apply H.
      rewrite lookup_app_r by lia. by replace (length ops1 + i - length ops1) with i by lia.
  - intros [H1 H2] i o Hi. apply lookup_app_Some in Hi as [Hi|[Hle Hi]]; [by apply H1|].
    specialize (H2 _ _ Hi). by replace (base + length ops1 + (i - length ops1)) with (base + i) in H2 by lia.
Qed.

Lemma tok_ok_mono prim b1 b2 x : b1 ≤ b2 → tok_ok prim b1 x → tok_ok prim b2 x.
Proof. destruct x; simpl; auto. lia. Qed.

(** A schedule numbered in sequence over primary signals that are not
    literals is a FAN in the sense of the data model. *)
Lemma ops_ok_fan_wf prim base ops : ops_ok prim base ops → fan_wf ops.
Proof.
  revert base. induction ops as [|o ops IH]; intros base Hok; [done|].
  assert (op_ok prim base o) as Ho.
  { specialize (Hok 0 o eq_refl). by rewrite Nat.add_0_r in Hok. }
  assert (ops_ok prim (S base) ops) as Hrest.
  { intros i o' Hi. specialize (Hok (S i) o' Hi). by replace (S base + i) with (base + S i) by lia. }
  destruct o as [[[[a b] c] s] k]. destruct Ho as (Ha & Hb & Hc & t & col & -> & ->).
  simpl. split_and!.
  - intros x [->| ->]%elem_of_2; done.
  - apply NoDup_cons. split; [|apply NoDup_singleton].
    intros Hin%list_elem_of_singleton. discriminate.
  - intros x Hx%elem_of_3 Hx'%elem_of_2.
    destruct Hx as [->|[->| ->]], Hx' as [->| ->]; simpl in *; lia.
  - apply Forall_lookup. intros i o' Hi x Hx Hx'.
    specialize (Hrest i o' Hi). destruct o' as [[[[a' b'] c'] s'] k'].
    destruct Hrest as (_ & _ & _ & t' & col' & -> & ->).
    assert (tok_ok prim (S base) x) as Hxok.
    { simpl in Hx. rewrite !elem_of_cons, elem_of_nil in Hx.
      destruct Hx as [->|[->|[->|[->|[->|[]]]]]];
        try (eapply tok_ok_mono; [|eassumption]; lia); simpl; lia. }
    simpl in Hx'. apply elem_of_2 in Hx'.
    destruct Hx' as [->| ->]; simpl in Hxok; lia.
  - by apply (IH (S base)).
Qed.

Lemma ops_ok_drives prim base ops : ops_ok prim base ops → Forall drives_wires ops.
Proof.
  intros Hok. apply Forall_lookup. intros i o Hi. specialize (Hok i o Hi).
  destruct o as [[[[a b] c] s] k]. destruct Hok as (_ & _ & _ & t & col & -> & ->).
  intros x [->| ->]%elem_of_2; (split; [done|intros j; discriminate]).
Qed.

Lemma ops_ok_fan_ok prim base ops : ops_ok prim base ops → fan_ok ops.
Proof. intros Hok. split; [by eapply ops_ok_fan_wf|by eapply ops_ok_drives]. Qed.

End Semantics.

(** * The scheduler's building blocks, as pure functions of the counter *)

Definition op_col (o : col_op) : nat := let '(col, _, _, _, _, _, _) := o in col.
Definition op_sum (o : col_op) : signal := let '(_, _, _, _, _, s, _) := o in s.
Definition op_carry (o : col_op) : signal := let '(_, _, _, _, _, _, k) := o in k.

(** The adders [fold_column] chains after its accumulator [acc]. *)
Fixpoint chain_ops (col id : nat) (acc : signal) (q : list signal) : list col_op :=
  match q with
  | b :: c :: q' =>
      (col, Triple, acc, b, c, SWire TagPlain OutSum col id, SWire TagPlain OutCarry col id)
      :: chain_ops col (S id) (SWire TagPlain OutSum col id) q'
  | [b] =>
      [(col, Pair, acc, b, SConst0, SWire TagPair OutSum col id, SWire TagPair OutCarry col id)]
  | [] => []
  end.

(** The adders of stage A. *)
Fixpoint raw_ops (id : nat) (raw : list signal) : list col_op :=
  match raw with
  | a :: b :: c :: raw' =>
      (0, RawTriple, a, b, c, SWire TagRaw OutSum 0 id, SWire TagRaw OutCarry 0 id)
      :: raw_ops (S id) raw'
  | _ => []
  end.

Fixpoint raw_rest (raw : list signal) : list signal :=
  match raw with
  | _ :: _ :: _ :: raw' => raw_rest raw'
  | _ => raw
  end.

Definition chain_res (acc : signal) (new : list col_op) : signal :=
  default acc (op_sum <$> last new).

Definition sched_after (st : Csa.sched) (new : list col_op) : Csa.sched :=
  Csa.Sched (Csa.fa_id st + length new) (Csa.ops st ++ new)
            (Csa.wires st ++ ((λ o, (op_sum o, op_carry o)) <$> new)).

Section Chains.
Implicit Types (q raw : list signal) (st : Csa.sched).

Lemma pair_list_ind {A} (P : list A → Prop) :
  P [] → (∀ x, P [x]) → (∀ x y l, P l → P (x :: y :: l)) → ∀ l, P l.
Proof.
  intros H0 H1 H2.
  assert (∀ l, P l ∧ ∀ x, P (x :: l)) as H; [|intros l; apply H].
  induction l as [|y l [IH1 IH2]]; split; auto.
Qed.

Lemma triple_list_ind {A} (P : list A → Prop) :
  P [] → (∀ x, P [x]) → (∀ x y, P [x; y]) →
  (∀ x y z l, P l → P (x :: y :: z :: l)) → ∀ l, P l.
Proof.
  intros H0 H1 H2 H3.
  assert (∀ l, P l ∧ (∀ x, P (x :: l)) ∧ ∀ x y, P (x :: y :: l)) as H; [|intros l; apply H].
  induction l as [|z l (IH1 & IH2 & IH3)]; split_and!; auto.
Qed.

Lemma sched_after_nil st : sched_after st [] = st.
Proof.
  destruct st. unfold sched_after. simpl.
  by rewrite Nat.add_0_r, !app_nil_r.
Qed.

Lemma chain_res_nil acc : chain_res acc [] = acc.
Proof. done. Qed.

Lemma chain_res_cons acc o new : chain_res acc (o :: new) = chain_res (op_sum o) new.
Proof.
  unfold chain_res. destruct new as [|c new]; [done|].
  change (last (o :: c :: new)) with (last (c :: new)).
  destruct (last (c :: new)) eqn:E; [done|]. by apply last_None in E.
Qed.

Lemma fold_rest_chain col q : ∀ acc cs st,
  Csa.fold_rest col acc q cs st
  = let new := chain_ops col (Csa.fa_id st) acc q in
    (chain_res acc new, cs ++ (op_carry <$> new), sched_after st new).
Proof.
  induction q as [|b|b c q IH] using pair_list_ind; intros acc cs st.
  - simpl. by rewrite app_nil_r, sched_after_nil.
  - simpl. unfold sched_after, Csa.append_op. simpl.
    by rewrite Nat.add_1_r.
  - cbn [Csa.fold_rest chain_ops]. unfold Csa.new_wires. rewrite IH. cbn zeta.
    unfold sched_after, Csa.append_op. cbn [Csa.fa_id Csa.ops Csa.wires].
    f_equal; [f_equal|].
    + by rewrite chain_res_cons.
    + simpl. by rewrite <- app_assoc.
    + simpl. f_equal; [lia| |]; by rewrite <- app_assoc.
Qed.

Lemma stage_a_chain raw : ∀ sums col1 st,
  Csa.stage_a raw sums col1 st
  = let new := raw_ops (Csa.fa_id st) raw in
    (raw_rest raw, sums ++ (op_sum <$> new), col1 ++ (op_carry <$> new), sched_after st new).
Proof.
  induction raw as [|a|a b|a b c raw IH] using triple_list_ind; intros sums col1 st;
    try (simpl; by rewrite !app_nil_r, sched_after_nil).
  cbn [Csa.stage_a raw_ops raw_rest]. unfold Csa.new_wires. rewrite IH. cbn zeta.
  unfold sched_after, Csa.append_op. cbn [Csa.fa_id Csa.ops Csa.wires].
  simpl. rewrite <- !app_assoc. simpl. repeat f_equal. lia.
Qed.

Lemma chain_ops_length col q : ∀ id acc,
  length (chain_ops col id acc q) = (length q + 1) / 2.
Proof.
  induction q as [|b|b c q IH] using pair_list_ind; intros id acc; [done..|].
  cbn [chain_ops length]. rewrite IH.
  replace (S (S (length q)) + 1) with (length q + 1 + 1 * 2) by lia.
  rewrite Nat.div_add by lia. lia.
Qed.



Lemma chain_ops_col col q : ∀ id acc, Forall (λ o, op_col o = col) (chain_ops col id acc q).
Proof.
  induction q as [|b|b c q IH] using pair_list_ind; intros id acc; simpl; auto.
Qed.


(** Parity plus twice majority is the number of ones. *)
Lemma fa_arith (a b c : bool) :
  Nat.b2n (xor3 a b c) + 2 * Nat.b2n (maj3 a b c) = Nat.b2n a + Nat.b2n b + Nat.b2n c.
Proof. by destruct a, b, c. Qed.

Lemma val_cons ρ x l : val ρ (x :: l) = Nat.b2n (sig_val ρ x) + val ρ l.
Proof. done. Qed.

Lemma val_app ρ l1 l2 : val ρ (l1 ++ l2) = val ρ l1 + val ρ l2.
Proof. apply sum_list_with_app. Qed.

Lemma val_le_length ρ l : val ρ l ≤ length l.
Proof.
  induction l as [|x l IH]; [done|]. rewrite val_cons. simpl.
  destruct (sig_val ρ x); simpl; lia.
Qed.

Lemma models_cons ρ a b c s k (ops : list fa_op) :
  models ρ ((a, b, c, s, k) :: ops)
  ↔ (sig_val ρ s = xor3 (sig_val ρ a) (sig_val ρ b) (sig_val ρ c)
     ∧ sig_val ρ k = maj3 (sig_val ρ a) (sig_val ρ b) (sig_val ρ c))
    ∧ models ρ ops.
Proof. unfold models. by rewrite Forall_cons. Qed.

Lemma val_nil ρ : val ρ [] = 0.
Proof. done. Qed.

(** Conservation along a chain. *)
Lemma chain_ops_value ρ col q : ∀ id acc,
  models ρ (strip_col <$> chain_ops col id acc q) →
  Nat.b2n (sig_val ρ acc) + val ρ q
  = Nat.b2n (sig_val ρ (chain_res acc (chain_ops col id acc q)))
    + 2 * val ρ (op_carry <$> chain_ops col id acc q).
Proof.
  induction q as [|b|b c q IH] using pair_list_ind; intros id acc Hm.
  - cbn [chain_ops fmap list_fmap]. rewrite chain_res_nil, !val_nil. lia.
  - cbn [chain_ops fmap list_fmap strip_col] in Hm. apply models_cons in Hm as [[Hs Hk] _].
    cbn [chain_ops fmap list_fmap op_carry]. rewrite chain_res_cons, chain_res_nil.
    cbn [op_sum]. rewrite !val_cons, !val_nil, Hs, Hk.
    pose proof (fa_arith (sig_val ρ acc) (sig_val ρ b) (sig_val ρ SConst0)) as Hfa.
    change (sig_val ρ SConst0) with false in *.
    change (Nat.b2n false) with 0 in Hfa. lia.
  - cbn [chain_ops fmap list_fmap strip_col] in Hm. apply models_cons in Hm as [[Hs Hk] Hm'].
    specialize (IH _ _ Hm').
    cbn [chain_ops fmap list_fmap op_carry]. rewrite !val_cons, chain_res_cons.
    cbn [op_sum]. rewrite Hk. rewrite Hs in IH.
    pose proof (fa_arith (sig_val ρ acc) (sig_val ρ b) (sig_val ρ c)). lia.
Qed.

Lemma raw_ops_value ρ raw : ∀ id,
  models ρ (strip_col <$> raw_ops id raw) →
  val ρ raw = val ρ (op_sum <$> raw_ops id raw) + val ρ (raw_rest raw)
              + 2 * val ρ (op_carry <$> raw_ops id raw).
Proof.
  induction raw as [|a|a b|a b c raw IH] using triple_list_ind; intros id Hm;
    try (cbn [raw_ops raw_rest fmap list_fmap]; rewrite !val_nil; lia).
  cbn [raw_ops fmap list_fmap strip_col] in Hm. apply models_cons in Hm as [[Hs Hk] Hm'].
  specialize (IH _ Hm'). cbn [raw_ops fmap list_fmap raw_rest op_carry op_sum].
  rewrite !val_cons, Hs, Hk.
  pose proof (fa_arith (sig_val ρ a) (sig_val ρ b) (sig_val ρ c)). lia.
Qed.

Lemma ops_ok_nil prim base : ops_ok prim base [].
Proof. intros i o Hi. done. Qed.

Lemma ops_ok_cons prim base o (ops : list fa_op) :
  ops_ok prim base (o :: ops) ↔ op_ok prim base o ∧ ops_ok prim (S base) ops.
Proof.
  split.
  - intros H. split.
    + specialize (H 0 o eq_refl). by rewrite Nat.add_0_r in H.
    + intros i o' Hi. specialize (H (S i) o' Hi).
      by replace (S base + i) with (base + S i) by lia.
  - intros [H1 H2] [|i] o' Hi; simplify_eq/=.
    + by rewrite Nat.add_0_r.
    + specialize (H2 i o' Hi). by replace (base + S i) with (S base + i) by lia.
Qed.

Lemma Forall_tok_ok_mono prim b1 b2 (l : list signal) :
  b1 ≤ b2 → Forall (tok_ok prim b1) l → Forall (tok_ok prim b2) l.
Proof.
  intros Hle H. eapply Forall_impl; [exact H|]. intros x. by apply tok_ok_mono.
Qed.

(** A chain numbers its adders in sequence and only reads what exists. *)
Lemma chain_ops_ok prim col q : ∀ id acc,
  tok_ok prim id acc → Forall (tok_ok prim id) q →
  let new := chain_ops col id acc q in
  ops_ok prim id (strip_col <$> new)
  ∧ tok_ok prim (id + length new) (chain_res acc new)
  ∧ Forall (tok_ok prim (id + length new)) (op_carry <$> new).
Proof.
  induction q as [|b|b c q IH] using pair_list_ind; intros id acc Hacc Hq.
  - cbn. rewrite Nat.add_0_r. split_and!; [apply ops_ok_nil|done|constructor].
  - inversion_clear Hq as [|? ? Hb _]. cbn [chain_ops fmap list_fmap strip_col length op_carry].
    rewrite chain_res_cons, chain_res_nil. cbn [op_sum]. split_and!.
    + apply ops_ok_cons. split; [|apply ops_ok_nil]. repeat split; eauto.
    + simpl. lia.
    + constructor; [simpl; lia|constructor].
  - inversion_clear Hq as [|? ? Hb Hq']. inversion_clear Hq' as [|? ? Hc Hq].
    destruct (IH (S id) (SWire TagPlain OutSum col id)) as (IH1 & IH2 & IH3).
    { simpl. lia. }
    { eapply Forall_tok_ok_mono; [|done]. lia. }
    cbn [chain_ops fmap list_fmap strip_col length op_carry].
    rewrite chain_res_cons. cbn [op_sum].
    replace (id + S (length (chain_ops col (S id) (SWire TagPlain OutSum col id) q)))
      with (S id + length (chain_ops col (S id) (SWire TagPlain OutSum col id) q)) by lia.
    split_and!.
    + apply ops_ok_cons. split; [|done]. repeat split; eauto.
    + done.
    + constructor; [simpl; lia|done].
Qed.

Lemma raw_ops_ok prim raw : ∀ id,
  Forall (tok_ok prim id) raw →
  let new := raw_ops id raw in
  ops_ok prim id (strip_col <$> new)
  ∧ Forall (tok_ok prim (id + length new)) (op_sum <$> new)
  ∧ Forall (tok_ok prim (id + length new)) (op_carry <$> new)
  ∧ Forall (tok_ok prim (id + length new)) (raw_rest raw).
Proof.
  induction raw as [|a|a b|a b c raw IH] using triple_list_ind; intros id Hraw;
    try (cbn; rewrite Nat.add_0_r; split_and!; [apply ops_ok_nil|constructor..|done]).
  inversion_clear Hraw as [|? ? Ha Hr]. inversion_clear Hr as [|? ? Hb Hr'].
  inversion_clear Hr' as [|? ? Hc Hraw].
  destruct (IH (S id)) as (IH1 & IH2 & IH3 & IH4).
  { eapply Forall_tok_ok_mono; [|done]. lia. }
  cbn [raw_ops fmap list_fmap strip_col length op_carry op_sum raw_rest].
  replace (id + S (length (raw_ops (S id) raw)))
    with (S id + length (raw_ops (S id) raw)) by lia.
  split_and!.
  - apply ops_ok_cons. split; [|done]. repeat split; eauto.
  - constructor; [simpl; lia|done].
  - constructor; [simpl; lia|done].
  - done.
Qed.

End Chains.

(** * Sums over dictionaries *)

Definition msum {A} (f : nat → A → nat) (m : gmap nat A) : nat :=
  map_fold (λ k v acc, f k v + acc) 0 m.

Section Msum.
Context {A : Type} (f : nat → A → nat).
Implicit Types (m : gmap nat A).

Lemma msum_empty : msum f ∅ = 0.
Proof. apply map_fold_empty. Qed.

Lemma msum_insert m k v : m !! k = None → msum f (<[k := v]> m) = f k v + msum f m.
Proof. intros Hk. unfold msum. rewrite map_fold_insert_L; [done| |done]. intros. lia. Qed.

Lemma msum_delete m k v : m !! k = Some v → msum f m = f k v + msum f (delete k m).
Proof.
  intros Hk. rewrite <- (insert_delete_id m k v) at 1 by done.
  apply msum_insert, lookup_delete_eq.
Qed.

Lemma msum_insert_Some m k v v' :
  m !! k = Some v → msum f (<[k := v']> m) + f k v = f k v' + msum f m.
Proof.
  intros Hk. rewrite (msum_delete m k v) by done.
  rewrite <- insert_delete_eq, msum_insert by apply lookup_delete_eq. lia.
Qed.

Lemma msum_zero m : (∀ k v, m !! k = Some v → f k v = 0) → msum f m = 0.
Proof.
  induction m as [|k v m Hk IH] using map_ind; intros Hz; [apply msum_empty|].
  rewrite msum_insert by done. rewrite (Hz k v) by apply lookup_insert_eq.
  rewrite IH; [done|]. intros k' v' Hk'. apply Hz. rewrite lookup_insert_ne; [done|].
  intros ->. congruence.
Qed.

Lemma msum_lookup_le m k v : m !! k = Some v → f k v ≤ msum f m.
Proof. intros Hk. rewrite (msum_delete m k v) by done. lia. Qed.

End Msum.

Lemma msum_ext {A} (f g : nat → A → nat) (m : gmap nat A) :
  (∀ k v, m !! k = Some v → f k v = g k v) → msum f m = msum g m.
Proof.
  induction m as [|k v m Hk IH] using map_ind; intros H; [by rewrite !msum_empty|].
  rewrite !msum_insert by done. rewrite (H k v) by apply lookup_insert_eq.
  rewrite IH; [done|]. intros k' v' Hk'. apply H. rewrite lookup_insert_ne; [done|].
  intros ->. congruence.
Qed.

(** * One column of the scheduler *)

Definition toks (d : gmap nat (list signal)) (c : nat) : list signal := default [] (d !! c).

Definition column_ops (col id : nat) (q : list signal) : list col_op :=
  match q with
  | [] => []
  | acc :: q' => chain_ops col id acc q'
  end.

Definition column_res (q : list signal) (new : list col_op) : option signal :=
  match q with
  | [] => None
  | acc :: _ => Some (chain_res acc new)
  end.

Definition res_val (ρ : env) (r : option signal) : nat :=
  from_option (λ s, Nat.b2n (sig_val ρ s)) 0 r.

Section Column.
Implicit Types (q : list signal) (st : Csa.sched) (ls : Csa.loop_state).

Lemma fold_column_chain col q st :
  Csa.fold_column col q st
  = let new := column_ops col (Csa.fa_id st) q in
    (column_res q new, op_carry <$> new, sched_after st new).
Proof.
  destruct q as [|acc q]; simpl.
  - by rewrite sched_after_nil.
  - by rewrite fold_rest_chain.
Qed.

Lemma column_ops_length col id q : length (column_ops col id q) = length q / 2.
Proof.
  destruct q as [|acc q]; [done|]. cbn [column_ops length]. rewrite chain_ops_length.
  f_equal. lia.
Qed.

Lemma column_ops_col col id q : Forall (λ o, op_col o = col) (column_ops col id q).
Proof. destruct q; [constructor|apply chain_ops_col]. Qed.

Lemma column_ops_value ρ col id q :
  let new := column_ops col id q in
  models ρ (strip_col <$> new) →
  val ρ q = res_val ρ (column_res q new) + 2 * val ρ (op_carry <$> new).
Proof.
  destruct q as [|acc q]; intros new Hm; [done|].
  rewrite val_cons. by apply chain_ops_value.
Qed.

Lemma column_ops_ok prim col id q :
  Forall (tok_ok prim id) q →
  let new := column_ops col id q in
  ops_ok prim id (strip_col <$> new)
  ∧ (∀ r, column_res q new = Some r → tok_ok prim (id + length new) r)
  ∧ Forall (tok_ok prim (id + length new)) (op_carry <$> new).
Proof.
  destruct q as [|acc q]; intros Hq new.
  - split_and!; [apply ops_ok_nil|done|constructor].
  - inversion_clear Hq as [|? ? Hacc Hq'].
    destruct (chain_ops_ok prim col q id acc Hacc Hq') as (H1 & H2 & H3).
    split_and!; [done| |done]. intros r [= <-]. done.
Qed.

Lemma column_res_None q new : column_res q new = None ↔ q = [].
Proof. destruct q; simpl; split; congruence. Qed.

Lemma has_tokens_toks d c : Csa.has_tokens d c ↔ toks d c ≠ [].
Proof. unfold Csa.has_tokens, toks. destruct (d !! c); simpl; tauto. Qed.

Lemma toks_insert d c l c' :
  toks (<[c := l]> d) c' = if decide (c = c') then l else toks d c'.
Proof. unfold toks. rewrite lookup_insert. by case_decide. Qed.

Lemma toks_empty c : toks ∅ c = [].
Proof. done. Qed.

(** What [process_column] leaves behind, read off by lookups. *)
Lemma process_column_spec ls j :
  let qj := toks (Csa.col_bits ls) j ++ toks (Csa.consts ls) j in
  let new := column_ops j (Csa.fa_id (Csa.sch ls)) qj in
  let ls' := Csa.process_column ls j in
  Csa.current ls' = S j
  ∧ Csa.sch ls' = sched_after (Csa.sch ls) new
  ∧ Csa.const_decl ls' = Csa.const_decl ls ++ toks (Csa.consts ls) j
  ∧ Csa.residual_by_col ls'
    = match column_res qj new with
      | Some r => <[j := r]> (Csa.residual_by_col ls)
      | None => Csa.residual_by_col ls
      end
  ∧ Csa.consts ls'
    = match Csa.consts ls !! j with
      | Some _ => <[j := []]> (Csa.consts ls)
      | None => Csa.consts ls
      end
  ∧ (∀ c, toks (Csa.col_bits ls') c
          = if decide (c = j) then []
            else if decide (c = S j) then toks (Csa.col_bits ls) (S j) ++ (op_carry <$> new)
            else toks (Csa.col_bits ls) c)
  ∧ (∀ c, c ∈ Csa.pending_cols ls'
          ↔ c ∈ Csa.pending_cols ls ∨ (c = S j ∧ op_carry <$> new ≠ [])).
Proof.
  intros qj new ls'. subst ls'. unfold Csa.process_column.
  fold (toks (Csa.col_bits ls) j) (toks (Csa.consts ls) j) (toks (Csa.col_bits ls) (S j)).
  fold qj. rewrite fold_column_chain. cbn zeta. fold new.
  destruct (op_carry <$> new) as [|k ks] eqn:Ek.
  - cbn [Csa.current Csa.sch Csa.const_decl Csa.residual_by_col Csa.consts
         Csa.col_bits Csa.pending_cols].
    split_and!; try done.
    + intros c. rewrite app_nil_r.
      destruct (Csa.col_bits ls !! j) eqn:Ej.
      * rewrite toks_insert. repeat case_decide; subst; try done; lia.
      * repeat case_decide; subst; try done. unfold toks. by rewrite Ej.
    + intros c. split; [auto|]. intros [?|[_ ?]]; done.
  - cbn [Csa.current Csa.sch Csa.const_decl Csa.residual_by_col Csa.consts
         Csa.col_bits Csa.pending_cols].
    split_and!; try done.
    + intros c. rewrite lookup_insert_ne by lia.
      destruct (Csa.col_bits ls !! j) eqn:Ej.
      * rewrite !toks_insert. repeat case_decide; subst; try done; lia.
      * rewrite !toks_insert. repeat case_decide; subst; try done; try lia.
        unfold toks. by rewrite Ej.
    + intros c. rewrite elem_of_union, elem_of_singleton. split.
      * intros [?|?]; auto.
      * intros [?|[? _]]; auto.
Qed.

End Column.

(** * The column loop *)

(** Weighted value of the residual bits and of a dictionary of queues. *)
Definition residual_value (ρ : env) (m : gmap nat signal) : nat :=
  msum (λ c r, 2 ^ c * Nat.b2n (sig_val ρ r)) m.

Definition queues_value (ρ : env) (m : gmap nat (list signal)) : nat :=
  msum (λ c l, 2 ^ c * val ρ l) m.

Definition loop_value (ρ : env) (ls : Csa.loop_state) : nat :=
  residual_value ρ (Csa.residual_by_col ls)
  + 2 ^ Csa.current ls * val ρ (toks (Csa.col_bits ls) (Csa.current ls))
  + queues_value ρ (delete 0 (Csa.consts ls)).

Definition loop_measure (ls : Csa.loop_state) : nat :=
  length (toks (Csa.col_bits ls) (Csa.current ls)) + Csa.token_count (Csa.consts ls).

Definition is_choice (ls : Csa.loop_state) (j : nat) : Prop :=
  j ∈ Csa.candidates ls ∧ ∀ c, c ∈ Csa.candidates ls → j ≤ c.

Section Loop.
Variable prim : signal → Prop.
Implicit Types (ls : Csa.loop_state).

Record loop_inv (ls : Csa.loop_state) : Prop := LoopInv {
  inv_cur : 1 ≤ Csa.current ls;
  inv_id : Csa.fa_id (Csa.sch ls) = length (Csa.ops (Csa.sch ls));
  inv_ops : ops_ok prim 0 (strip_col <$> Csa.ops (Csa.sch ls));
  inv_bits : ∀ c, Forall (tok_ok prim (Csa.fa_id (Csa.sch ls))) (toks (Csa.col_bits ls) c);
  inv_consts : ∀ c, Forall (tok_ok prim 0) (toks (Csa.consts ls) c);
  inv_only : ∀ c, c ≠ Csa.current ls → toks (Csa.col_bits ls) c = [];
  inv_pend : ∀ c, toks (Csa.col_bits ls) c ≠ [] ∨ toks (Csa.consts ls) c ≠ [] →
                  c ∈ Csa.pending_cols ls;
  inv_res : ∀ c r, Csa.residual_by_col ls !! c = Some r →
                   c < Csa.current ls ∧ tok_ok prim (Csa.fa_id (Csa.sch ls)) r;
  inv_low : ∀ c, 1 ≤ c < Csa.current ls → toks (Csa.consts ls) c = []
}.

Lemma candidates_spec ls c :
  c ∈ Csa.candidates ls
  ↔ c ∈ Csa.pending_cols ls ∧ Csa.current ls ≤ c
    ∧ (toks (Csa.col_bits ls) c ≠ [] ∨ toks (Csa.consts ls) c ≠ []).
Proof.
  unfold Csa.candidates. rewrite list_elem_of_filter, elem_of_elements, !has_tokens_toks.
  tauto.
Qed.

Lemma foldr_min_spec c0 cs :
  foldr Nat.min c0 cs ∈ c0 :: cs ∧ ∀ c, c ∈ c0 :: cs → foldr Nat.min c0 cs ≤ c.
Proof.
  induction cs as [|c1 cs [IH1 IH2]]; simpl.
  - split; [left|]. by intros c ->%list_elem_of_singleton.
  - split.
    + destruct (Nat.min_spec c1 (foldr Nat.min c0 cs)) as [[_ ->]|[_ ->]].
      * right. left.
      * apply elem_of_cons in IH1 as [->|?]; [left|right; by right].
    + intros c Hc. apply elem_of_cons in Hc as [->|Hc].
      * etrans; [apply Nat.le_min_r|]. apply IH2. left.
      * apply elem_of_cons in Hc as [->|Hc]; [apply Nat.le_min_l|].
        etrans; [apply Nat.le_min_r|]. apply IH2. by right.
Qed.

Lemma loop_step_Some ls ls' :
  Csa.loop_step ls = Some ls' → ∃ j, is_choice ls j ∧ ls' = Csa.process_column ls j.
Proof.
  unfold Csa.loop_step, is_choice. destruct (Csa.candidates ls) as [|c0 cs]; [done|].
  intros [= <-]. exists (foldr Nat.min c0 cs). split; [|done]. apply foldr_min_spec.
Qed.

Lemma loop_step_None ls : Csa.loop_step ls = None ↔ Csa.candidates ls = [].
Proof. unfold Csa.loop_step. destruct (Csa.candidates ls); split; congruence. Qed.

Lemma choice_facts ls j :
  loop_inv ls → is_choice ls j →
  Csa.current ls ≤ j
  ∧ toks (Csa.col_bits ls) j ++ toks (Csa.consts ls) j ≠ []
  ∧ (j = Csa.current ls
     ∨ (toks (Csa.col_bits ls) j = [] ∧ toks (Csa.col_bits ls) (Csa.current ls) = [])).
Proof.
  intros Hinv [Hj Hmin]. apply candidates_spec in Hj as (Hp & Hle & Htok).
  split_and!; [done| |].
  - intros [? ?]%app_eq_nil. destruct Htok; congruence.
  - destruct (decide (j = Csa.current ls)) as [|Hne]; [by left|right].
    split; [by apply (inv_only _ Hinv)|].
    destruct (toks (Csa.col_bits ls) (Csa.current ls)) eqn:E; [done|].
    assert (Csa.current ls ∈ Csa.candidates ls) as Hc.
    { apply candidates_spec. split_and!; [|done|left; congruence].
      apply (inv_pend _ Hinv). left. congruence. }
    specialize (Hmin _ Hc). lia.
Qed.

Lemma token_count_reset (d : gmap nat (list signal)) j :
  Csa.token_count (match d !! j with Some _ => <[j := []]> d | None => d end)
  + length (toks d j) = Csa.token_count d.
Proof.
  unfold toks. destruct (d !! j) as [l|] eqn:E; simpl; [|lia].
  pose proof (msum_insert_Some (λ _ l, length l) d j l [] E) as H.
  unfold Csa.token_count, msum in *. cbv beta in H. simpl length in H. lia.
Qed.

Lemma queues_value_reset ρ (d : gmap nat (list signal)) j :
  j ≠ 0 →
  queues_value ρ (delete 0 (match d !! j with Some _ => <[j := []]> d | None => d end))
  + 2 ^ j * val ρ (toks d j) = queues_value ρ (delete 0 d).
Proof.
  intros Hj. unfold toks. destruct (d !! j) as [l|] eqn:E; simpl.
  - rewrite delete_insert_ne by done.
    assert (delete 0 d !! j = Some l) as E' by (by rewrite lookup_delete_ne).
    pose proof (msum_insert_Some (λ c l, 2 ^ c * val ρ l) (delete 0 d) j l [] E') as H.
    unfold queues_value. cbv beta in H. rewrite val_nil in H. lia.
  - lia.
Qed.

Lemma sched_after_fa_id st new :
  Csa.fa_id (sched_after st new) = Csa.fa_id st + length new.
Proof. done. Qed.

Lemma sched_after_ops st new : Csa.ops (sched_after st new) = Csa.ops st ++ new.
Proof. done. Qed.

Lemma process_column_inv ls j :
  loop_inv ls → is_choice ls j → loop_inv (Csa.process_column ls j).
Proof.
  intros Hinv Hch.
  destruct (choice_facts ls j Hinv Hch) as (Hle & Hne & Hcur).
  destruct (process_column_spec ls j) as (Ecur & Esch & _ & Eres & Econsts & Ebits & Epend).
  set (qj := toks (Csa.col_bits ls) j ++ toks (Csa.consts ls) j) in *.
  set (new := column_ops j (Csa.fa_id (Csa.sch ls)) qj) in *.
  assert (Forall (tok_ok prim (Csa.fa_id (Csa.sch ls))) qj) as Hq.
  { apply Forall_app. split; [apply (inv_bits _ Hinv)|].
    eapply Forall_tok_ok_mono; [|apply (inv_consts _ Hinv)]. lia. }
  destruct (column_ops_ok prim j _ qj Hq) as (Hok & Hr & Hks). fold new in Hok, Hr, Hks.
  assert (toks (Csa.col_bits ls) (S j) = []) as HSj by (apply (inv_only _ Hinv); lia).
  constructor.
  - rewrite Ecur. lia.
  - rewrite Esch, sched_after_fa_id, sched_after_ops, length_app, (inv_id _ Hinv). done.
  - rewrite Esch, sched_after_ops, fmap_app. apply ops_ok_app. split; [apply (inv_ops _ Hinv)|].
    rewrite length_fmap, <- (inv_id _ Hinv). done.
  - intros c. rewrite Ebits, Esch, sched_after_fa_id. repeat case_decide.
    + constructor.
    + rewrite HSj. done.
    + eapply Forall_tok_ok_mono; [|apply (inv_bits _ Hinv)]. lia.
  - intros c. rewrite Econsts. destruct (Csa.consts ls !! j) eqn:E; [|apply (inv_consts _ Hinv)].
    rewrite toks_insert. case_decide; [constructor|apply (inv_consts _ Hinv)].
  - intros c Hc. rewrite Ecur in Hc. rewrite Ebits. repeat case_decide; try done.
    destruct Hcur as [->|[_ Hcur]]; [by apply (inv_only _ Hinv)|].
    destruct (decide (c = Csa.current ls)) as [->|?]; [done|by apply (inv_only _ Hinv)].
  - intros c Hc. apply Epend. rewrite Ebits in Hc.
    destruct (decide (c = j)) as [->|Hcj].
    { left. apply (inv_pend _ Hinv). destruct Hch as [Hch _].
      apply candidates_spec in Hch. tauto. }
    destruct (decide (c = S j)) as [->|HcS].
    + rewrite HSj in Hc. simpl in Hc. destruct Hc as [Hc|Hc]; [by right|].
      left. apply (inv_pend _ Hinv). right. rewrite Econsts in Hc.
      destruct (Csa.consts ls !! j); [|done]. rewrite toks_insert in Hc. by case_decide; [lia|].
    + left. apply (inv_pend _ Hinv). destruct Hc as [Hc|Hc]; [by left|right].
      rewrite Econsts in Hc.
      destruct (Csa.consts ls !! j); [|done]. rewrite toks_insert in Hc. by case_decide.
  - intros c r. rewrite Eres, Ecur, Esch, sched_after_fa_id.
    destruct (column_res qj new) as [r0|] eqn:Er0.
    + rewrite lookup_insert. case_decide.
      * intros [= <-]. subst. split; [lia|]. by apply Hr.
      * intros Hc. destruct (inv_res _ Hinv _ _ Hc) as [? ?]. split; [lia|].
        eapply tok_ok_mono; [|done]. lia.
    + intros Hc. destruct (inv_res _ Hinv _ _ Hc) as [? ?]. split; [lia|].
      eapply tok_ok_mono; [|done]. lia.
  - intros c Hc. rewrite Ecur in Hc. rewrite Econsts.
    assert (toks (match Csa.consts ls !! j with
                  | Some _ => <[j:=[]]> (Csa.consts ls)
                  | None => Csa.consts ls
                  end) c = if decide (j = c) then [] else toks (Csa.consts ls) c) as ->.
    { destruct (Csa.consts ls !! j) eqn:E; [apply toks_insert|].
      case_decide; [|done]. subst. unfold toks. by rewrite E. }
    case_decide; [done|].
    destruct (decide (c < Csa.current ls)) as [?|Hge]; [apply (inv_low _ Hinv); lia|].
    destruct (toks (Csa.consts ls) c) eqn:E; [done|].
    assert (c ∈ Csa.candidates ls) as Hcand.
    { apply candidates_spec. split_and!; [|lia|right; congruence].
      apply (inv_pend _ Hinv). right. congruence. }
    destruct Hch as [_ Hmin]. specialize (Hmin _ Hcand). lia.
Qed.

Lemma process_column_measure ls j :
  loop_inv ls → is_choice ls j →
  loop_measure (Csa.process_column ls j) < loop_measure ls.
Proof.
  intros Hinv Hch.
  destruct (choice_facts ls j Hinv Hch) as (Hle & Hne & Hcur).
  destruct (process_column_spec ls j) as (Ecur & _ & _ & _ & Econsts & Ebits & _).
  unfold loop_measure. rewrite Ecur, Ebits, Econsts.
  rewrite decide_False, decide_True by lia.
  rewrite (inv_only _ Hinv (S j)) by lia. cbn [app].
  rewrite length_fmap, column_ops_length, length_app.
  pose proof (token_count_reset (Csa.consts ls) j) as Htc.
  assert (length (toks (Csa.col_bits ls) j) ≤ length (toks (Csa.col_bits ls) (Csa.current ls))).
  { destruct Hcur as [->|[-> _]]; simpl; lia. }
  assert (0 < length (toks (Csa.col_bits ls) j) + length (toks (Csa.consts ls) j)).
  { rewrite <- length_app. destruct (toks (Csa.col_bits ls) j ++ toks (Csa.consts ls) j);
      [done|simpl; lia]. }
  pose proof (Nat.div_lt (length (toks (Csa.col_bits ls) j) + length (toks (Csa.consts ls) j)) 2).
  lia.
Qed.

Lemma residual_value_insert ρ (m : gmap nat signal) j r :
  m !! j = None →
  residual_value ρ (<[j := r]> m) = 2 ^ j * Nat.b2n (sig_val ρ r) + residual_value ρ m.
Proof. intros Hj. unfold residual_value. by rewrite msum_insert. Qed.

Lemma process_column_value ρ ls j :
  loop_inv ls → is_choice ls j →
  models ρ (strip_col <$> Csa.ops (Csa.sch (Csa.process_column ls j))) →
  loop_value ρ (Csa.process_column ls j) = loop_value ρ ls.
Proof.
  intros Hinv Hch Hm.
  destruct (choice_facts ls j Hinv Hch) as (Hle & Hne & Hcur).
  destruct (process_column_spec ls j) as (Ecur & Esch & _ & Eres & Econsts & Ebits & _).
  set (qj := toks (Csa.col_bits ls) j ++ toks (Csa.consts ls) j) in *.
  set (new := column_ops j (Csa.fa_id (Csa.sch ls)) qj) in *.
  rewrite Esch, sched_after_ops, fmap_app in Hm. apply models_app in Hm as [_ Hm].
  pose proof (column_ops_value ρ j _ qj Hm) as Hval. fold new in Hval.
  unfold qj in Hval at 1. rewrite val_app in Hval.
  unfold loop_value. rewrite Ecur, Ebits, Econsts, Eres.
  rewrite decide_False, decide_True by lia.
  rewrite (inv_only _ Hinv (S j)) by lia. cbn [app].
  pose proof (inv_cur _ Hinv).
  pose proof (queues_value_reset ρ (Csa.consts ls) j ltac:(lia)) as Hqv.
  assert (2 ^ Csa.current ls * val ρ (toks (Csa.col_bits ls) (Csa.current ls))
          = 2 ^ j * val ρ (toks (Csa.col_bits ls) j)) as Hcb.
  { destruct Hcur as [->|[-> ->]]; [done|]. rewrite val_nil. lia. }
  assert (Csa.residual_by_col ls !! j = None) as Hnone.
  { destruct (Csa.residual_by_col ls !! j) eqn:E; [|done].
    destruct (inv_res _ Hinv _ _ E). lia. }
  assert (residual_value ρ
            match column_res qj new with
            | Some r => <[j:=r]> (Csa.residual_by_col ls)
            | None => Csa.residual_by_col ls
            end
          = 2 ^ j * res_val ρ (column_res qj new)
            + residual_value ρ (Csa.residual_by_col ls)) as ->.
  { destruct (column_res qj new); simpl; [by apply residual_value_insert|lia]. }
  rewrite Nat.pow_succ_r'. nia.
Qed.

(** The loop reaches its [break] within the fuel, and what it appends
    lies in the columns it had not yet passed. *)
Lemma loop_run fuel : ∀ ls,
  loop_inv ls → loop_measure ls < fuel →
  ∃ ls', Csa.loop fuel ls = Some ls'
    ∧ loop_inv ls'
    ∧ Csa.candidates ls' = []
    ∧ Csa.current ls ≤ Csa.current ls'
    ∧ (∃ extra, Csa.ops (Csa.sch ls') = Csa.ops (Csa.sch ls) ++ extra
                ∧ ∀ lo, (∀ c, Csa.current ls ≤ c < lo →
                              toks (Csa.col_bits ls) c ++ toks (Csa.consts ls) c = []) →
                        Forall (λ o, lo ≤ op_col o) extra)
    ∧ (∀ ρ, models ρ (strip_col <$> Csa.ops (Csa.sch ls')) →
            loop_value ρ ls' = loop_value ρ ls).
Proof.
  induction fuel as [|fuel IH]; intros ls Hinv Hfuel; [lia|].
  simpl. destruct (Csa.loop_step ls) as [ls1|] eqn:Estep.
  - apply loop_step_Some in Estep as (j & Hch & ->).
    pose proof (process_column_inv ls j Hinv Hch) as Hinv1.
    pose proof (process_column_measure ls j Hinv Hch) as Hlt.
    destruct (IH _ Hinv1 ltac:(lia)) as (ls' & Hrun & Hinv' & Hcand & Hcur & (extra & Eops & Hcols) & Hval).
    destruct (choice_facts ls j Hinv Hch) as (Hle & Hne & _).
    destruct (process_column_spec ls j) as (Ecur & Esch & _).
    exists ls'. split_and!; try done.
    + rewrite Ecur in Hcur. lia.
    + rewrite Esch, sched_after_ops in Eops. eexists. rewrite Eops, <- app_assoc. split; [done|].
      intros lo Hlo.
      assert (lo ≤ j) as Hloj.
      { destruct (decide (lo ≤ j)); [done|]. exfalso. apply Hne, Hlo. lia. }
      apply Forall_app. split.
      * eapply Forall_impl; [apply column_ops_col|]. intros o ->. done.
      * apply Hcols. intros c Hc. rewrite Ecur in Hc. lia.
    + intros ρ Hm. rewrite Hval by done. apply process_column_value; try done.
      rewrite Eops, fmap_app in Hm. by apply models_app in Hm as [Hm _].
  - exists ls. apply loop_step_None in Estep.
    split_and!; try done. exists []. rewrite app_nil_r. split; [done|]. constructor.
Qed.

End Loop.

(** * The scheduler as a whole *)

(** Signals a caller may hand to the scheduler: anything but the wires the
    scheduler itself names. *)
Definition primary (s : signal) : Prop :=
  match s with
  | SWire _ _ _ _ => False
  | _ => True
  end.

Section Scheduler.
Variable prim : signal → Prop.
Implicit Types (raw : list signal) (consts : gmap nat (list signal)).

Lemma toks_singleton c l c' :
  toks ({[c := l]} : gmap nat (list signal)) c' = if decide (c = c') then l else [].
Proof. rewrite <- insert_empty, toks_insert. by case_decide. Qed.

Lemma loop_entry_spec raw consts :
  let new_a := raw_ops 0 raw in
  let q0 := ((op_sum <$> new_a) ++ raw_rest raw) ++ toks consts 0 in
  let new_b := column_ops 0 (length new_a) q0 in
  Csa.loop_entry raw consts
  = Csa.LoopState {[1 := (op_carry <$> new_a) ++ (op_carry <$> new_b)]} consts
      (dom ({[1 := (op_carry <$> new_a) ++ (op_carry <$> new_b)]} : gmap nat (list signal))
       ∪ dom consts) 1
      (match column_res q0 new_b with Some r => <[0 := r]> ∅ | None => ∅ end)
      (toks consts 0)
      (sched_after (sched_after (Csa.Sched 0 [] []) new_a) new_b).
Proof.
  intros new_a q0 new_b. unfold Csa.loop_entry.
  rewrite stage_a_chain. cbn zeta. cbn [Csa.fa_id]. fold new_a.
  fold (toks consts 0). cbn [app]. fold q0.
  rewrite fold_column_chain. cbn zeta. rewrite sched_after_fa_id. cbn [Csa.fa_id plus].
  fold new_b. done.
Qed.

Lemma queues_value_split ρ consts :
  queues_value ρ consts = val ρ (toks consts 0) + queues_value ρ (delete 0 consts).
Proof.
  unfold toks, queues_value. destruct (consts !! 0) as [l|] eqn:E; simpl.
  - rewrite (msum_delete _ consts 0 l E). simpl. lia.
  - by rewrite delete_id.
Qed.

Lemma loop_entry_inv raw consts :
  Forall (tok_ok prim 0) raw →
  (∀ c, Forall (tok_ok prim 0) (toks consts c)) →
  loop_inv prim (Csa.loop_entry raw consts)
  ∧ ∀ ρ, models ρ (strip_col <$> Csa.ops (Csa.sch (Csa.loop_entry raw consts))) →
         loop_value ρ (Csa.loop_entry raw consts) = val ρ raw + queues_value ρ consts.
Proof.
  intros Hraw Hconsts. rewrite loop_entry_spec.
  set (new_a := raw_ops 0 raw). set (q0 := ((op_sum <$> new_a) ++ raw_rest raw) ++ toks consts 0).
  set (new_b := column_ops 0 (length new_a) q0).
  destruct (raw_ops_ok prim raw 0 Hraw) as (Ha1 & Ha2 & Ha3 & Ha4).
  fold new_a in Ha1, Ha2, Ha3, Ha4. cbn [plus] in *.
  assert (Forall (tok_ok prim (length new_a)) q0) as Hq0.
  { unfold q0. rewrite !Forall_app. split_and!; [done..|].
    eapply Forall_tok_ok_mono; [|apply Hconsts]. lia. }
  destruct (column_ops_ok prim 0 _ q0 Hq0) as (Hb1 & Hb2 & Hb3). fold new_b in Hb1, Hb2, Hb3.
  split.
  - constructor; cbn [Csa.current Csa.sch Csa.col_bits Csa.consts Csa.pending_cols
                      Csa.residual_by_col Csa.fa_id Csa.ops sched_after app plus].
    + done.
    + by rewrite length_app.
    + rewrite fmap_app. apply ops_ok_app. split; [done|]. by rewrite length_fmap.
    + intros c. rewrite toks_singleton. case_decide; [|constructor].
      apply Forall_app. split; [|done]. eapply Forall_tok_ok_mono; [|done]. lia.
    + done.
    + intros c Hc. rewrite toks_singleton. by case_decide.
    + intros c Hc. apply elem_of_union. rewrite !elem_of_dom. unfold toks in Hc.
      destruct Hc as [Hc|Hc]; [left|right].
      * destruct (_ !! c); [done|]. simpl in Hc. done.
      * destruct (consts !! c); [done|]. simpl in Hc. done.
    + intros c r. destruct (column_res q0 new_b) as [r0|] eqn:Er; [|done].
      rewrite lookup_insert. case_decide; [|done]. intros [= <-]. subst c. split; [lia|].
      by apply Hb2.
    + intros c Hc. lia.
  - intros ρ Hm. cbn [Csa.sch Csa.ops sched_after app] in Hm.
    rewrite fmap_app in Hm. apply models_app in Hm as [Hma Hmb].
    pose proof (raw_ops_value ρ raw 0 Hma) as Hva. fold new_a in Hva.
    pose proof (column_ops_value ρ 0 _ q0 Hmb) as Hvb. fold new_b in Hvb.
    unfold q0 in Hvb at 1. rewrite !val_app in Hvb.
    unfold loop_value. cbn [Csa.current Csa.col_bits Csa.consts Csa.residual_by_col].
    rewrite toks_singleton, decide_True by done. rewrite val_app.
    rewrite (queues_value_split ρ consts).
    assert (residual_value ρ (match column_res q0 new_b with
                              | Some r => <[0:=r]> ∅ | None => ∅ end)
            = res_val ρ (column_res q0 new_b)) as ->.
    { destruct (column_res q0 new_b); simpl.
      - rewrite residual_value_insert by done. unfold residual_value. rewrite msum_empty.
        simpl. lia.
      - apply msum_empty. }
    simpl. lia.
Qed.

Lemma entry_fuel raw consts :
  loop_measure (Csa.loop_entry raw consts)
  < S (length (default [] (Csa.col_bits (Csa.loop_entry raw consts) !! 1))
       + Csa.token_count (Csa.consts (Csa.loop_entry raw consts))).
Proof.
  unfold loop_measure. rewrite loop_entry_spec. cbn [Csa.current Csa.col_bits Csa.consts].
  unfold toks. lia.
Qed.

(** The scheduler terminates; its operations form a numbered schedule;
    nothing is left in any queue; the residual bits weigh what went in. *)
Lemma run_columns_sound raw consts :
  Forall (tok_ok prim 0) raw →
  (∀ c, Forall (tok_ok prim 0) (toks consts c)) →
  ∃ ls, Csa.run_columns raw consts = Some ls
    ∧ loop_inv prim ls
    ∧ Csa.candidates ls = []
    ∧ (∀ c, toks (Csa.col_bits ls) c = [])
    ∧ (∀ c, 1 ≤ c → toks (Csa.consts ls) c = [])
    ∧ ∀ ρ, models ρ (strip_col <$> Csa.ops (Csa.sch ls)) →
           residual_value ρ (Csa.residual_by_col ls) = val ρ raw + queues_value ρ consts.
Proof.
  intros Hraw Hconsts.
  destruct (loop_entry_inv raw consts Hraw Hconsts) as [Hinv0 Hval0].
  destruct (loop_run prim _ _ Hinv0 (entry_fuel raw consts))
    as (ls & Hrun & Hinv & Hcand & Hcur & (extra & Eops & Hcols) & Hval).
  assert (∀ c, Csa.current ls ≤ c →
               toks (Csa.col_bits ls) c = [] ∧ toks (Csa.consts ls) c = []) as Hdone.
  { intros c Hc.
    destruct (decide (toks (Csa.col_bits ls) c ≠ [] ∨ toks (Csa.consts ls) c ≠ [])) as [Ht|Ht].
    - assert (c ∈ Csa.candidates ls) as Hin.
      { apply candidates_spec. split_and!; [|done..]. by apply (inv_pend _ _ Hinv). }
      rewrite Hcand in Hin. by apply elem_of_nil in Hin.
    - split.
      + destruct (toks (Csa.col_bits ls) c); [done|]. exfalso. apply Ht. by left.
      + destruct (toks (Csa.consts ls) c); [done|]. exfalso. apply Ht. by right. }
  assert (∀ c, toks (Csa.col_bits ls) c = []) as Hbits.
  { intros c. destruct (decide (c = Csa.current ls)) as [->|Hne].
    - by apply Hdone.
    - by apply (inv_only _ _ Hinv). }
  assert (∀ c, 1 ≤ c → toks (Csa.consts ls) c = []) as Hcs.
  { intros c Hc. destruct (decide (c < Csa.current ls)).
    - apply (inv_low _ _ Hinv). lia.
    - apply Hdone. lia. }
  exists ls. split_and!; try done.
  intros ρ Hm. rewrite <- Hval0.
    2:{ rewrite Eops, fmap_app in Hm. by apply models_app in Hm as [Hm _]. }
  rewrite <- (Hval ρ Hm). unfold loop_value. rewrite Hbits, val_nil.
  assert (queues_value ρ (delete 0 (Csa.consts ls)) = 0) as ->; [|lia].
  apply msum_zero. intros k l Hk.
  destruct (decide (k = 0)) as [->|Hk0]; [by rewrite lookup_delete_eq in Hk|].
  rewrite lookup_delete_ne in Hk by done.
  specialize (Hcs k ltac:(lia)). unfold toks in Hcs. rewrite Hk in Hcs. simpl in Hcs.
  subst l. rewrite val_nil. lia.
Qed.

End Scheduler.

(** * [build_folded_bias_netlist] follows the scheduler *)


Section Simulation.
Variable w : nat.
Implicit Types (q raw : list signal) (st : Csa.sched).








End Simulation.

(** * Arithmetic of the bias *)

Section BiasArith.






Lemma half_lt (a : nat) : 0 < a → a / 2 < a.
Proof. intros. apply Nat.div_lt; lia. Qed.





End BiasArith.

(** * The columns of [build_folded_bias_netlist] *)


Definition any_prim : signal → Prop := λ _, True.


Section FbColumns.
Variables (w n K : nat) (xs : nat → bool).
Hypothesis Hw : 1 ≤ w.
Implicit Types (cb : gmap nat (list signal)) (st : Csa.sched).













End FbColumns.

(** * Correctness of the folded-bias network *)

Section FbCorrect.
Variables (n th w K : nat) (xs : nat → bool).
Hypothesis Hodd : n `mod` 2 = 1.
Hypothesis Hn : 3 ≤ n.
Hypothesis Eth : th = (n + 1) / 2.
Hypothesis Ew : w = ceil_log2 th.
Hypothesis EK : K = Nat.shiftl 1 w - th.



Lemma run_fan_primary prim ops ρ x :
  ops_ok prim 0 ops → primary x → sig_val (run_fan ρ ops) x = sig_val ρ x.
Proof.
  intros Hok Hx. apply run_fan_frame. apply Forall_lookup. intros i o Hi.
  specialize (Hok i o Hi). destruct o as [[[[a b] c] s] k].
  destruct Hok as (_ & _ & _ & t & col & -> & ->). simpl.
  intros [->| ->]%elem_of_2; done.
Qed.





End FbCorrect.

(** * [emit_folded_bias] against [build_folded_bias_netlist] *)


Section Steps.
Implicit Types (ls : Csa.loop_state).





End Steps.

Section BiasConsts.


End BiasConsts.

Section EmitVsBuild.
Variables (w n K : nat).
Hypothesis Hw : 1 ≤ w.
Implicit Types (G : Csa.loop_state) (cb : gmap nat (list signal)) (st : Csa.sched).









End EmitVsBuild.

Section FbBoth.
Variables (n th w K : nat).
Hypothesis Hodd : n `mod` 2 = 1.
Hypothesis Hn : 3 ≤ n.
Hypothesis Eth : th = (n + 1) / 2.
Hypothesis Ew : w = ceil_log2 th.
Hypothesis EK : K = Nat.shiftl 1 w - th.







End FbBoth.

(** * Claims about the folded-bias design and the scheduler *)

Lemma primary_tok_ok s : primary s ↔ tok_ok any_prim 0 s.
Proof. destruct s; simpl; unfold any_prim; split; try done; lia. Qed.





Lemma n3_is_one_full_adder_aux :
  ∃ r, emit_folded_bias 3 = Ok r ∧ st_bias_K (fb_stats_of r) = 0.
Proof. eexists. split; [vm_compute; reflexivity|]. reflexivity. Qed.

(** C3, as the code has it: for [n = 3] the threshold is 2, the width is 1,
    the bias constant is [2^1 - 2 = 0], no bias constant is injected, and
    the network is exactly one full adder, whose carry is the decision. *)
Theorem n3_is_one_full_adder :
  ∃ r,
    emit_folded_bias 3 = Ok r
    ∧ st_threshold (fb_stats_of r) = 2
    ∧ st_w_bits (fb_stats_of r) = 1
    ∧ st_bias_K (fb_stats_of r) = 0
    ∧ fb_const1 r = []
    ∧ fb_count r = 1
    ∧ FbNet.build_folded_bias_netlist 3
      = Ok ([(SX 0, SX 1, SX 2, SWire TagRaw OutSum 0 0, SWire TagRaw OutCarry 0 0)],
            [], SWire TagRaw OutCarry 0 0).
Proof. eexists. split; [vm_compute; reflexivity|]. vm_compute. repeat split. Qed.

(** C3 as the specification words it (bias [K = 1] at [n = 3]) does not
    hold of the code. *)
Lemma n3_bias_is_not_one :
  ¬ ∃ r, emit_folded_bias 3 = Ok r
         ∧ st_threshold (fb_stats_of r) = 2
         ∧ st_w_bits (fb_stats_of r) = 1
         ∧ st_bias_K (fb_stats_of r) = 1
         ∧ fb_count r = 1.
Proof.
  intros (r & Hr & _ & _ & HK & _).
  destruct n3_is_one_full_adder_aux as (r' & Hr' & HK').
  rewrite Hr in Hr'. injection Hr' as <-. congruence.
Qed.

(** C6: for every list of input signals and every dictionary of per-column
    constants (none of them a wire the scheduler names itself), the CSA
    column scheduler terminates with every queue drained, keeps at most one
    residual signal per column (the dictionary [residual_by_col]), and for
    every valuation of the inputs the residual bits, weighted by
    [2^column], add up to the number of ones among the inputs plus the
    weighted ones among the injected constants. *)
Theorem scheduler_conserves_weight (raw_inputs : list signal)
    (const_names_per_col : gmap nat (list signal)) :
  Forall primary raw_inputs →
  (∀ c, Forall primary (toks const_names_per_col c)) →
  ∃ ls r,
    Csa.run_columns raw_inputs const_names_per_col = Some ls
    ∧ Csa.csa_macro_schedule_all_columns raw_inputs const_names_per_col = Some r
    ∧ Csa.r_ops r = Csa.ops (Csa.sch ls)
    ∧ Csa.r_residual_by_col r = Csa.residual_by_col ls
    ∧ Csa.candidates ls = []
    ∧ (∀ c, toks (Csa.col_bits ls) c = [])
    ∧ (∀ c, 1 ≤ c → toks (Csa.consts ls) c = [])
    ∧ ∀ ρ0 : env,
        residual_value (run_fan ρ0 (strip_col <$> Csa.r_ops r)) (Csa.r_residual_by_col r)
        = val ρ0 raw_inputs + queues_value ρ0 const_names_per_col.
Proof.
  intros Hraw Hconsts.
  assert (Forall (tok_ok any_prim 0) raw_inputs) as Hraw'.
  { eapply Forall_impl; [exact Hraw|]. intros s. apply primary_tok_ok. }
  assert (∀ c, Forall (tok_ok any_prim 0) (toks const_names_per_col c)) as Hconsts'.
  { intros c. eapply Forall_impl; [apply Hconsts|]. intros s. apply primary_tok_ok. }
  destruct (run_columns_sound any_prim raw_inputs const_names_per_col Hraw' Hconsts')
    as (ls & Hrun & Hinv & Hcand & Hbits & Hcs & Hval).
  exists ls, (Csa.Result (Csa.ops (Csa.sch ls)) (Csa.wires (Csa.sch ls))
                         (Csa.residual_by_col ls) (Csa.const_decl ls)).
  split_and!; try done.
  { unfold Csa.csa_macro_schedule_all_columns. rewrite Hrun. done. }
  cbn [Csa.r_ops Csa.r_residual_by_col]. intros ρ0.
  set (ρ := run_fan ρ0 (strip_col <$> Csa.ops (Csa.sch ls))).
  assert (∀ x, primary x → sig_val ρ x = sig_val ρ0 x) as Hframe.
  { intros x Hx. apply (run_fan_primary any_prim); [apply (inv_ops _ _ Hinv)|done]. }
  rewrite Hval.
  2:{ apply run_fan_models. eapply ops_ok_fan_wf, (inv_ops _ _ Hinv). }
  assert (∀ l, Forall primary l → val ρ l = val ρ0 l) as Hvalf.
  { induction 1 as [|x l Hx Hl IH]; [done|]. rewrite !val_cons, IH, Hframe; done. }
  f_equal; [by apply Hvalf|].
  unfold queues_value. apply msum_ext. intros c l Hl.
  rewrite Hvalf; [done|]. specialize (Hconsts c). unfold toks in Hconsts. by rewrite Hl in Hconsts.
Qed.

Lemma scheduler_conserves_weight_witness :
  ∃ ls r,
    Csa.run_columns [SX 0; SX 1; SX 2; SX 3; SX 4] {[0 := [SK 0]]} = Some ls
    ∧ Csa.csa_macro_schedule_all_columns [SX 0; SX 1; SX 2; SX 3; SX 4] {[0 := [SK 0]]} = Some r
    ∧ Csa.r_ops r = Csa.ops (Csa.sch ls)
    ∧ Csa.r_residual_by_col r = Csa.residual_by_col ls
    ∧ Csa.candidates ls = []
    ∧ (∀ c, toks (Csa.col_bits ls) c = [])
    ∧ (∀ c, 1 ≤ c → toks (Csa.consts ls) c = [])
    ∧ ∀ ρ0 : env,
        residual_value (run_fan ρ0 (strip_col <$> Csa.r_ops r)) (Csa.r_residual_by_col r)
        = val ρ0 [SX 0; SX 1; SX 2; SX 3; SX 4] + queues_value ρ0 {[0 := [SK 0]]}.
Proof.
  apply (scheduler_conserves_weight [SX 0; SX 1; SX 2; SX 3; SX 4] {[0 := [SK 0]]}).
  - repeat constructor.
  - intros c. rewrite toks_singleton. case_decide; repeat constructor.
Defined.

(** * The baseline: scaffold, reduction and ripple comparator *)

(** Little-endian value of a list of signals. *)
Fixpoint bits_value (ρ : env) (l : list signal) : nat :=
  match l with
  | [] => 0
  | s :: l' => Nat.b2n (sig_val ρ s) + 2 * bits_value ρ l'
  end.





Section BaselineArith.



End BaselineArith.

Section Ripple.
Variables (ps : Baseline.params) (ρ : env).
Hypothesis HT : ∀ j, sig_val ρ (if bit_set (Baseline.p_th_N ps - 1) j then ST j else SConst0)
                     = bit_set (Baseline.p_th_N ps - 1) j.



End Ripple.

Section BaselineNet.
Implicit Types (ρ : env) (res : gmap nat signal) (ops : list fa_op).

(** [hw_bits]: the residual of each column, ["1'b0"] where there is none. *)
Definition hw_bits_from res (i len : nat) : list signal :=
  (λ i, default SConst0 (res !! i)) <$> seq i len.

Lemma bits_value_insert ρ res k r len : ∀ i,
  res !! k = None →
  bits_value ρ (hw_bits_from (<[k := r]> res) i len)
  = bits_value ρ (hw_bits_from res i len)
    + (if decide (i ≤ k < i + len) then 2 ^ (k - i) * Nat.b2n (sig_val ρ r) else 0).
Proof.
  induction len as [|len IH]; intros i Hk.
  - cbn. case_decide; lia.
  - unfold hw_bits_from in *. cbn [seq fmap list_fmap bits_value]. rewrite IH by done.
    rewrite lookup_insert. destruct (decide (k = i)) as [->|Hne].
    + rewrite Hk. cbn [default]. change (sig_val ρ SConst0) with false.
      rewrite decide_False, decide_True by lia. rewrite Nat.sub_diag. simpl. lia.
    + destruct (decide (S i ≤ k < S i + len)) as [Hin|Hout].
      * rewrite decide_True by lia.
        replace (k - i) with (S (k - S i)) by lia. rewrite Nat.pow_succ_r'. lia.
      * rewrite decide_False by lia. lia.
Qed.

Lemma bits_value_empty ρ len : ∀ i, bits_value ρ (hw_bits_from ∅ i len) = 0.
Proof.
  unfold hw_bits_from. induction len as [|len IH]; intros i; [done|].
  cbn [seq fmap list_fmap bits_value]. by rewrite IH, lookup_empty.
Qed.

Lemma residual_low ρ m res :
  residual_value ρ res < 2 ^ m →
  bits_value ρ (hw_bits_from res 0 m) = residual_value ρ res.
Proof.
  induction res as [|k r res Hk IH] using map_ind; intros Hlt.
  - unfold residual_value. by rewrite msum_empty, bits_value_empty.
  - rewrite residual_value_insert in Hlt |- * by done.
    rewrite bits_value_insert, IH by (done || lia). rewrite Nat.sub_0_r.
    case_decide; [lia|].
    assert (2 ^ m ≤ 2 ^ k) by (apply Nat.pow_le_mono_r; lia).
    destruct (sig_val ρ r); simpl in *; lia.
Qed.












End BaselineNet.






(** * The optimizer *)

(** [_prune_fa_netlist] read from the left: the needed set in front of an
    operation and the operations kept from there on. *)
Definition add_ins (needed : gset signal) (o : fa_op) : gset signal :=
  foldl (λ nd sig, if _is_const sig then nd else nd ∪ {[sig]}) needed (ins o).

Definition wanted (needed : gset signal) (o : fa_op) : Prop :=
  let '(_, _, _, s, k) := o in s ∈ needed ∨ k ∈ needed.

#[global] Instance wanted_dec needed o : Decision (wanted needed o).
Proof. destruct o as [[[[a b] c] s] k]. simpl. apply _. Defined.

Fixpoint prune_r (ops : list fa_op) (needed0 : gset signal) : gset signal * list fa_op :=
  match ops with
  | [] => (needed0, [])
  | o :: rest =>
      let '(nd, kept) := prune_r rest needed0 in
      if decide (wanted nd o) then (add_ins nd o, o :: kept) else (nd, kept)
  end.

Definition all_const (o : fa_op) : bool :=
  let '(a, b, cin, _, _) := o in _is_const a && _is_const b && _is_const cin.

(** No entry of [const_map] is a literal and every value is one. *)
Definition cm_ok (cm : gmap signal signal) : Prop :=
  ∀ k v, cm !! k = Some v → _is_const v = true ∧ _is_const k = false.

(** An operation already processed mentions nothing that [const_map] maps
    now or will map later. *)
Definition settled (cm : gmap signal signal) (rest : list fa_op) (o : fa_op) : Prop :=
  ∀ x, x ∈ ins o ++ outs o →
       cm !! x = None ∧ (_is_const x = true ∨ Forall (λ o', x ∉ outs o') rest).

(** [o'] drives what [o] drives and reads operands of [o] or literals. *)
Definition refines (o' o : fa_op) : Prop :=
  outs o' = outs o ∧ ∀ x, x ∈ ins o' → _is_const x = true ∨ x ∈ ins o.

(** [thin Q L' L]: [L'] is [L] with some operations satisfying [Q] left out
    and the others refined. *)
Inductive thin (Q : fa_op → Prop) : list fa_op → list fa_op → Prop :=
  | thin_nil : thin Q [] []
  | thin_skip o L' L : Q o → thin Q L' L → thin Q L' (o :: L)
  | thin_keep o' o L' L : refines o' o → thin Q L' L → thin Q (o' :: L') (o :: L).

Definition mapped_by (cm : gmap signal signal) (o : fa_op) : Prop :=
  ∀ x, x ∈ outs o → is_Some (cm !! x).

Section Optimizer.
Implicit Types (cm : gmap signal signal) (ops P : list fa_op) (o : fa_op).

Lemma thin_app Q L1' L1 L2' L2 :
  thin Q L1' L1 → thin Q L2' L2 → thin Q (L1' ++ L2') (L1 ++ L2).
Proof.
  induction 1; intros H2; simpl; [done|apply thin_skip; auto|apply thin_keep; auto].
Qed.

Lemma thin_mono (Q Q' : fa_op → Prop) L' L :
  (∀ o, Q o → Q' o) → thin Q L' L → thin Q' L' L.
Proof.
  intros HQ. induction 1; [apply thin_nil|apply thin_skip; auto|apply thin_keep; auto].
Qed.

Lemma refines_refl o : refines o o.
Proof. split; [done|]. intros x Hx. by right. Qed.

Lemma thin_outs Q (Φ : list signal → Prop) L' L :
  thin Q L' L → Forall (λ o, Φ (outs o)) L → Forall (λ o, Φ (outs o)) L'.
Proof.
  induction 1 as [|o L' L Ho Ht IH|o' o L' L [Ho _] Ht IH]; intros HL; [done|..];
    inversion_clear HL as [|? ? H1 H2]; [by apply IH|].
  constructor; [by rewrite Ho|by apply IH].
Qed.

Lemma thin_cover Q L' L :
  thin Q L' L → Forall (λ o, Q o ∨ ∃ o', o' ∈ L' ∧ outs o' = outs o) L.
Proof.
  induction 1 as [|o L' L Ho Ht IH|o' o L' L [Ho _] Ht IH].
  - constructor.
  - constructor; [by left|done].
  - constructor.
    + right. exists o'. split; [left|done].
    + eapply Forall_impl; [exact IH|]. intros o2 [H2|(o2' & H2 & H3)]; [by left|right].
      exists o2'. split; [by right|done].
Qed.

(** Thinning a FAN leaves a FAN. *)
Lemma thin_wf Q L' L : thin Q L' L → fan_wf L → fan_wf L'.
Proof.
  induction 1 as [|o L' L Ho Ht IH|o' o L' L [Ho Hi] Ht IH]; intros Hwf; [done|..];
    destruct Hwf as (Hc & Hnd & Hin & Hlater & Hwf); [by apply IH|].
  assert (Forall (λ o2, ∀ x, x ∈ outs o2 → _is_const x = false) L) as HcL.
  { clear -Hwf. induction L as [|o2 L IHL]; [constructor|].
    destruct Hwf as (Hc & _ & _ & _ & Hwf). constructor; auto. }
  cbn [fan_wf]. rewrite Ho. split_and!; [done..| | |by apply IH].
  - intros x Hx Hx'. destruct (Hi x Hx) as [Hcx|Hx2]; [|by apply (Hin x)].
    rewrite Hc in Hcx; done.
  - assert (Forall (λ o2, ∀ x, x ∈ ins o' ++ outs o → x ∉ outs o2) L) as Hl.
    { apply Forall_forall. intros o2 Ho2 x Hx Hx2.
      rewrite Forall_forall in Hlater, HcL. apply elem_of_app in Hx as [Hx|Hx].
      - destruct (Hi x Hx) as [Hcx|Hxi].
        + rewrite (HcL o2 Ho2 x Hx2) in Hcx. done.
        + apply (Hlater o2 Ho2 x); [|done]. rewrite elem_of_app. by left.
      - apply (Hlater o2 Ho2 x); [|done]. rewrite elem_of_app. by right. }
    apply (thin_outs Q (λ l, ∀ x, x ∈ ins o' ++ outs o → x ∉ l) _ _ Ht Hl).
Qed.

Lemma prune_step_wanted nd kept o :
  prune_step (nd, kept) o
  = if decide (wanted nd o) then (add_ins nd o, kept ++ [o]) else (nd, kept).
Proof. destruct o as [[[[a b] c] s] k]. simpl. by destruct (decide _). Qed.

Lemma prune_foldl ops needed0 :
  foldl prune_step (needed0, []) (reverse ops)
  = ((prune_r ops needed0).1, reverse (prune_r ops needed0).2).
Proof.
  induction ops as [|o ops IH]; [done|].
  rewrite reverse_cons, foldl_app, IH. cbn [foldl prune_r].
  destruct (prune_r ops needed0) as [nd kept]. cbn [fst snd].
  rewrite prune_step_wanted. destruct (decide (wanted nd o)); cbn [fst snd]; [|done].
  by rewrite reverse_cons.
Qed.

Lemma prune_eq ops maj : _prune_fa_netlist ops maj = (prune_r ops {[maj]}).2.
Proof. unfold _prune_fa_netlist. rewrite prune_foldl. apply reverse_involutive. Qed.

Lemma prune_r_idem ops needed0 :
  prune_r (prune_r ops needed0).2 needed0 = prune_r ops needed0.
Proof.
  induction ops as [|o ops IH]; [done|]. cbn [prune_r].
  destruct (prune_r ops needed0) as [nd kept] eqn:E. cbn [snd] in IH.
  destruct (decide (wanted nd o)) as [Hw|Hw]; cbn [snd].
  - cbn [prune_r]. rewrite IH. by rewrite decide_True by done.
  - done.
Qed.

Lemma prune_r_Forall (Q : fa_op → Prop) ops needed0 :
  Forall Q ops → Forall Q (prune_r ops needed0).2.
Proof.
  induction 1 as [|o ops Ho Hops IH]; [constructor|]. cbn [prune_r].
  destruct (prune_r ops needed0) as [nd kept]. cbn [snd] in *.
  destruct (decide (wanted nd o)); cbn [snd]; [by constructor|done].
Qed.

Lemma prune_idem ops maj :
  _prune_fa_netlist (_prune_fa_netlist ops maj) maj = _prune_fa_netlist ops maj.
Proof. by rewrite !prune_eq, prune_r_idem. Qed.

Lemma resolve_None cm x : cm !! x = None → resolve cm x = Some x.
Proof. intros Hx. unfold resolve. destruct (size cm); simpl; by rewrite Hx. Qed.

Lemma resolve_ok cm x : cm_ok cm → resolve cm x = Some (default x (cm !! x)).
Proof.
  intros Hok. destruct (cm !! x) as [v|] eqn:E; [|by apply resolve_None].
  unfold resolve. destruct (size cm) as [|fuel] eqn:Es.
  - apply map_size_empty_iff in Es. subst. by rewrite lookup_empty in E.
  - cbn [resolve_chain]. rewrite E. cbn [default].
    assert (cm !! v = None) as Hv.
    { destruct (cm !! v) as [v'|] eqn:Ev; [|done].
      destruct (Hok _ _ E) as [Hc _]. destruct (Hok _ _ Ev) as [_ Hc']. congruence. }
    destruct fuel; simpl; by rewrite Hv.
Qed.

Lemma resolve_op_id cm o :
  (∀ x, x ∈ ins o ++ outs o → cm !! x = None) → resolve_op cm o = Some o.
Proof.
  destruct o as [[[[a b] c] s] k]. intros H. unfold resolve_op.
  rewrite !resolve_None; [done|apply H..]; simpl; rewrite !elem_of_cons; tauto.
Qed.

Lemma mapM_id {A} (f : A → option A) (l : list A) :
  Forall (λ x, f x = Some x) l → mapM f l = Some l.
Proof.
  induction 1 as [|x l Hx Hl IH]; [done|]. cbn [mapM]. rewrite Hx. cbn. rewrite IH. done.
Qed.

Lemma const_of_bool_const b : _is_const (const_of_bool b) = true.
Proof. by destruct b. Qed.

(** The first loop on a FAN: it returns, and what it leaves in [processed]
    is untouched by the second resolution. *)
Lemma fold_constants_wf all ops : ∀ cm P pre,
  all = pre ++ ops →
  fan_wf ops → cm_ok cm →
  (∀ x, is_Some (cm !! x) → Forall (λ o, x ∉ outs o) ops) →
  Forall (settled cm ops) P → Forall (λ o, all_const o = false) P →
  thin (mapped_by cm) P pre →
  ∃ cm' P',
    fold_constants ops cm P = Some (cm', P')
    ∧ cm_ok cm'
    ∧ Forall (settled cm' []) P'
    ∧ Forall (λ o, all_const o = false) P'
    ∧ thin (mapped_by cm') P' all.
Proof.
  induction ops as [|h rest IH]; intros cm P pre Hall Hwf Hok Hdom HP Hnc Hthin.
  - exists cm, P. rewrite app_nil_r in Hall. by subst.
  - destruct h as [[[[a b] c] s] k]. destruct Hwf as (Hc & Hnd & Hin & Hlater & Hwf).
    assert (all = (pre ++ [(a, b, c, s, k)]) ++ rest) as Hall'
      by (by rewrite <- app_assoc).
    cbn [fold_constants]. rewrite !resolve_ok by done. cbn [mbind option_bind].
    set (a' := default a (cm !! a)). set (b' := default b (cm !! b)).
    set (c' := default c (cm !! c)).
    assert (s ≠ k) as Hsk.
    { simpl in Hnd. apply NoDup_cons in Hnd as [Hnd _]. intros ->. apply Hnd. left. }
    assert (_is_const s = false ∧ _is_const k = false) as [Hcs Hck].
    { split; apply Hc; simpl; apply elem_of_2; tauto. }
    assert (cm !! s = None ∧ cm !! k = None) as [Hms Hmk].
    { split.
      - destruct (cm !! s) eqn:E; [|done]. exfalso.
        assert (is_Some (cm !! s)) as Hs by (by rewrite E).
        specialize (Hdom _ Hs). inversion_clear Hdom as [|? ? Hh _]. apply Hh. simpl.
        apply elem_of_2. tauto.
      - destruct (cm !! k) eqn:E; [|done]. exfalso.
        assert (is_Some (cm !! k)) as Hs by (by rewrite E).
        specialize (Hdom _ Hs). inversion_clear Hdom as [|? ? Hh _]. apply Hh. simpl.
        apply elem_of_2. tauto. }
    destruct (_is_const a' && _is_const b' && _is_const c') eqn:Eall.
    + (* folded *)
      set (vs := const_of_bool _). set (vk := const_of_bool _).
      apply (IH _ _ _ Hall'); try done.
      * intros k0 v0. rewrite !lookup_insert. repeat case_decide; subst.
        -- intros [= <-]. split; [apply const_of_bool_const|done].
        -- intros [= <-]. split; [apply const_of_bool_const|done].
        -- apply Hok.
      * intros x. rewrite !lookup_insert. repeat case_decide; subst.
        -- intros _. eapply Forall_impl; [exact Hlater|]. intros o' Ho'. apply Ho'.
           simpl. rewrite !elem_of_cons. tauto.
        -- intros _. eapply Forall_impl; [exact Hlater|]. intros o' Ho'. apply Ho'.
           simpl. rewrite !elem_of_cons. tauto.
        -- intros Hx. specialize (Hdom _ Hx). by inversion_clear Hdom.
      * eapply Forall_impl; [exact HP|]. intros o Ho x Hx.
        destruct (Ho x Hx) as [Hx1 Hx2]. split.
        -- rewrite !lookup_insert. repeat case_decide; subst; try done.
           ++ destruct Hx2 as [Hx2|Hx2]; [congruence|].
              inversion_clear Hx2 as [|? ? Hh _]. exfalso. apply Hh. simpl. apply elem_of_2. tauto.
           ++ destruct Hx2 as [Hx2|Hx2]; [congruence|].
              inversion_clear Hx2 as [|? ? Hh _]. exfalso. apply Hh. simpl. apply elem_of_2. tauto.
        -- destruct Hx2 as [Hx2|Hx2]; [by left|right]. by inversion_clear Hx2.
      * rewrite <- (app_nil_r P). apply thin_app.
        -- eapply thin_mono; [|exact Hthin]. intros o Ho x Hx.
           destruct (Ho x Hx) as [v Hv]. rewrite !lookup_insert. repeat case_decide; eauto.
        -- apply thin_skip; [|constructor]. intros x [->| ->]%elem_of_2.
           ++ rewrite !lookup_insert. repeat case_decide; eauto; congruence.
           ++ rewrite !lookup_insert. repeat case_decide; eauto; congruence.
    + (* kept *)
      apply (IH _ _ _ Hall'); try done.
      * intros x Hx. specialize (Hdom _ Hx). by inversion_clear Hdom.
      * apply Forall_app. split.
        -- eapply Forall_impl; [exact HP|]. intros o Ho x Hx.
           destruct (Ho x Hx) as [Hx1 Hx2]. split; [done|].
           destruct Hx2 as [Hx2|Hx2]; [by left|right]. by inversion_clear Hx2.
        -- constructor; [|constructor]. intros x Hx.
           assert (∀ y, y ∈ [a; b; c] →
                     cm !! default y (cm !! y) = None
                     ∧ (_is_const (default y (cm !! y)) = true
                        ∨ Forall (λ o', default y (cm !! y) ∉ outs o') rest)) as Hres.
           { intros y Hy. destruct (cm !! y) as [v|] eqn:Ey; cbn [default].
             - destruct (Hok _ _ Ey) as [Hv _]. split; [|by left].
               destruct (cm !! v) as [v'|] eqn:Ev; [|done].
               destruct (Hok _ _ Ev) as [_ Hv']. congruence.
             - split; [done|right]. eapply Forall_impl; [exact Hlater|].
               intros o' Ho'. apply Ho'. simpl. simpl in Hy. rewrite !elem_of_cons in *. tauto. }
           simpl in Hx. rewrite !elem_of_cons, elem_of_nil in Hx.
           destruct Hx as [->|[->|[->|[->|[->|[]]]]]].
           ++ apply Hres. apply elem_of_3. tauto.
           ++ apply Hres. apply elem_of_3. tauto.
           ++ apply Hres. apply elem_of_3. tauto.
           ++ split; [done|right]. eapply Forall_impl; [exact Hlater|].
              intros o' Ho'. apply Ho'. simpl. rewrite !elem_of_cons. tauto.
           ++ split; [done|right]. eapply Forall_impl; [exact Hlater|].
              intros o' Ho'. apply Ho'. simpl. rewrite !elem_of_cons. tauto.
      * apply Forall_app. split; [done|]. constructor; [|constructor]. exact Eall.
      * apply thin_app; [done|]. apply thin_keep; [|constructor]. split; [done|].
        intros x Hx. apply elem_of_3 in Hx.
        assert (∀ y, _is_const (default y (cm !! y)) = true ∨ default y (cm !! y) = y) as Hy.
        { intros y. destruct (cm !! y) as [v|] eqn:Ey; cbn [default]; [left|by right].
          by destruct (Hok _ _ Ey). }
        simpl. rewrite elem_of_3.
        destruct Hx as [->|[->| ->]].
        -- destruct (Hy a) as [?|E]; [by left|right]. fold a' in E. tauto.
        -- destruct (Hy b) as [?|E]; [by left|right]. fold b' in E. tauto.
        -- destruct (Hy c) as [?|E]; [by left|right]. fold c' in E. tauto.
Qed.

(** The first loop on a list without all-constant operations keeps it. *)
Lemma fold_constants_keep ops : ∀ P,
  Forall (λ o, all_const o = false) ops →
  fold_constants ops ∅ P = Some (∅, P ++ ops).
Proof.
  induction ops as [|h rest IH]; intros P Hnc; [by rewrite app_nil_r|].
  inversion_clear Hnc as [|? ? Hh Hrest]. destruct h as [[[[a b] c] s] k].
  cbn [fold_constants]. rewrite !resolve_None by apply lookup_empty. cbn [mbind option_bind].
  simpl in Hh. rewrite Hh, IH by done. by rewrite <- app_assoc.
Qed.

(** On a FAN the optimizer returns, and its result is a fixed point. *)
Lemma optimizer_fixpoint ops maj :
  fan_wf ops →
  ∃ ops' maj',
    _constant_fold_and_prune ops maj = Some (ops', maj')
    ∧ Forall (λ o, all_const o = false) ops'
    ∧ _constant_fold_and_prune ops' maj' = Some (ops', maj').
Proof.
  intros Hwf.
  destruct (fold_constants_wf ops ops ∅ [] [] eq_refl Hwf)
    as (cm & P & Efold & Hok & Hset & Hnc & _); try done.
  { intros x [v Hv]. by rewrite lookup_empty in Hv. }
  { constructor. }
  assert (mapM (resolve_op cm) P = Some P) as EmapM.
  { apply mapM_id. eapply Forall_impl; [exact Hset|]. intros o Ho.
    apply resolve_op_id. intros x Hx. by destruct (Ho x Hx). }
  set (maj' := default maj (cm !! maj)).
  assert (_constant_fold_and_prune ops maj = Some (_prune_fa_netlist P maj', maj')) as E1.
  { unfold _constant_fold_and_prune. rewrite Efold. cbn [mbind option_bind].
    rewrite resolve_ok by done. cbn [mbind option_bind]. rewrite EmapM. done. }
  assert (Forall (λ o, all_const o = false) (_prune_fa_netlist P maj')) as Hnc'.
  { rewrite prune_eq. by apply prune_r_Forall. }
  exists (_prune_fa_netlist P maj'), maj'. split_and!; [done..|].
  unfold _constant_fold_and_prune. rewrite fold_constants_keep by done.
  cbn [mbind option_bind app]. rewrite resolve_None by apply lookup_empty.
  cbn [mbind option_bind]. rewrite mapM_id.
  2:{ apply Forall_forall. intros o _. apply resolve_op_id. intros x _. apply lookup_empty. }
  cbn [mbind option_bind]. by rewrite prune_idem.
Qed.

End Optimizer.

(** C7: on every FAN (every output produced by one operation, no operand
    produced by its own or a later operation) and every decision signal, the
    optimizer returns, and applied to its own output it returns that output
    again, operation list and decision signal alike. *)
Theorem optimizer_is_idempotent (fa_ops : list fa_op) (maj_signal : signal) :
  fan_wf fa_ops →
  ∃ ops' maj',
    _constant_fold_and_prune fa_ops maj_signal = Some (ops', maj')
    ∧ _constant_fold_and_prune ops' maj' = Some (ops', maj').
Proof.
  intros Hwf. destruct (optimizer_fixpoint fa_ops maj_signal Hwf) as (ops' & maj' & E1 & _ & E2).
  eauto.
Qed.

Lemma optimizer_is_idempotent_witness :
  ∃ ops' maj',
    _constant_fold_and_prune
      [(SConst1, SConst0, SConst1, SWire TagRaw OutSum 0 0, SWire TagRaw OutCarry 0 0);
       (SX 0, SWire TagRaw OutCarry 0 0, SX 1, SWire TagPlain OutSum 1 1, SWire TagPlain OutCarry 1 1);
       (SX 2, SX 3, SX 4, SWire TagPlain OutSum 1 2, SWire TagPlain OutCarry 1 2)]
      (SWire TagPlain OutCarry 1 1) = Some (ops', maj')
    ∧ _constant_fold_and_prune ops' maj' = Some (ops', maj').
Proof.
  apply (optimizer_is_idempotent
      [(SConst1, SConst0, SConst1, SWire TagRaw OutSum 0 0, SWire TagRaw OutCarry 0 0);
       (SX 0, SWire TagRaw OutCarry 0 0, SX 1, SWire TagPlain OutSum 1 1, SWire TagPlain OutCarry 1 1);
       (SX 2, SX 3, SX 4, SWire TagPlain OutSum 1 2, SWire TagPlain OutCarry 1 2)]
      (SWire TagPlain OutCarry 1 1)).
  simpl. split_and!; try done;
    repeat first [ apply NoDup_nil_2 | apply NoDup_cons_2 | apply Forall_nil_2
                 | apply Forall_cons_2 ];
    intros; simpl in *; rewrite ?elem_of_cons, ?elem_of_nil in *;
    intuition (subst; done).
Defined.

(** Outside the FAN invariant the fixed point is lost: with an operation that
    reads a wire produced after it, the first run leaves an all-constant
    operation behind, which the second run folds away. *)
Lemma optimizer_needs_topological_order :
  let t := SWire TagPlain OutSum 0 0 in
  let s := SWire TagPlain OutSum 0 1 in
  let k := SWire TagPlain OutCarry 0 1 in
  let u := SWire TagPlain OutCarry 0 0 in
  _constant_fold_and_prune [(t, SConst1, SConst1, s, k); (SConst1, SConst1, SConst1, t, u)] s
  = Some ([(SConst1, SConst1, SConst1, s, k)], s)
  ∧ _constant_fold_and_prune [(SConst1, SConst1, SConst1, s, k)] s = Some ([], SConst1).
Proof. split; vm_compute; reflexivity. Qed.

(** * The BLIF lowering *)

(** The names an operation is written with. *)
Definition render_op (o : fa_op) : string * string * string * string * string :=
  let '(a, b, cin, s, k) := o in (render a, render b, render cin, render s, render k).

(** Reading a list of [.names] blocks in order: each block drives its output
    with the value its rows give on the signals read so far. *)
Definition run_blocks (σ : string → bool) (bs : list Blif.block) : string → bool :=
  foldl (λ σ b, <[Blif.blk_output b := Blif.block_eval σ b]> σ) σ bs.

Section Lowering.
Import Blif.

(** A majority block on three distinct names computes the majority of its
    operands, each complemented as the mask says. *)
Lemma emit_maj3_eval (A B C OUT : string) (mask : option (bool * bool * bool))
    (σ : string → bool) :
  A ≠ B → A ≠ C → B ≠ C →
  block_eval σ (emit_maj3 A B C OUT mask)
  = let '(na, nb, nc) := default (false, false, false) mask in
    maj3 (xorb (σ A) na) (xorb (σ B) nb) (xorb (σ C) nc).
Proof.
  intros HAB HAC HBC. unfold emit_maj3, _sorted3, sorted.
  destruct (default (false, false, false) mask) as [[na nb] nc].
  cbn [foldr insert_sorted].
  destruct (String.leb B C); cbn [insert_sorted];
    destruct (String.leb A B); destruct (String.leb A C); cbn [insert_sorted fmap list_fmap index];
    repeat (case_bool_decide; try congruence);
    unfold block_eval; cbn [blk_inputs blk_rows fmap list_fmap];
    destruct na, nb, nc, (σ A), (σ B), (σ C); vm_compute; reflexivity.
Qed.

(** The majority-only expansion of an adder whose operand names differ from
    one another and from the names it drives. *)
Lemma maj_only_lowering_distinct (i : nat) (a b c s k : string) (σ : string → bool) :
  let A := map_in a in
  let B := map_in b in
  let C := map_in c in
  let S := _sanitize s in
  let K := _sanitize k in
  let op1 := "fa" +:+ pretty i +:+ "_op1" in
  A ≠ B → A ≠ C → B ≠ C →
  K ≠ A → K ≠ B → K ≠ C →
  op1 ≠ A → op1 ≠ B → op1 ≠ C → op1 ≠ K → S ≠ K →
  let σ' := run_blocks σ (expand_fa true i (a, b, c, s, k)) in
  σ' K = maj3 (σ A) (σ B) (σ C) ∧ σ' S = xor3 (σ A) (σ B) (σ C).
Proof.
  intros A B C S K op1 HAB HAC HBC HKA HKB HKC H1A H1B H1C H1K HSK.
  cbn zeta. unfold expand_fa, run_blocks. fold A B C S K op1. cbn [foldl].
  rewrite !emit_maj3_eval by congruence.
  assert (∀ OUT m, blk_output (emit_maj3 A B C OUT m) = OUT) as Hout1.
  { intros OUT m. unfold emit_maj3. destruct (default _ m) as [[? ?] ?].
    by destruct (_sorted3 A B C). }
  assert (∀ OUT m, blk_output (emit_maj3 op1 A K OUT m) = OUT) as Hout2.
  { intros OUT m. unfold emit_maj3. destruct (default _ m) as [[? ?] ?].
    by destruct (_sorted3 op1 A K). }
  rewrite !Hout1, !Hout2. cbn [default].
  rewrite !fn_lookup_insert.
  rewrite !(fn_lookup_insert_ne _ K A), !(fn_lookup_insert_ne _ K B),
    !(fn_lookup_insert_ne _ K C) by congruence.
  rewrite !(fn_lookup_insert_ne _ op1 A), !(fn_lookup_insert_ne _ op1 K) by congruence.
  rewrite !(fn_lookup_insert_ne _ K A) by congruence.
  rewrite !fn_lookup_insert.
  rewrite !(fn_lookup_insert_ne _ S K) by congruence.
  rewrite !(fn_lookup_insert_ne _ op1 K) by congruence.
  rewrite !fn_lookup_insert.
  destruct (σ A), (σ B), (σ C); done.
Qed.

End Lowering.


(** C4, at the third adder of the folded-bias network for n = 5, written in
    the mixed form: the parity block has its operand names sorted, but its
    rows are the permuted patterns in the order 100, 010, 001, 111, which is
    not ascending, and the same three operands supplied in sorted order give
    the rows in another order; the majority block beside it has its rows
    sorted. *)
Theorem parity_block_rows_follow_operand_order :
  let o := (SWire TagPlain OutSum 0 1, SK 0, SConst0,
            SWire TagPair OutSum 0 2, SWire TagPair OutCarry 0 2) in
  match FbNet.build_folded_bias_netlist 5 with
  | Ok (ops, _, _) => ops !! 2 = Some o
  | _ => False
  end
  ∧ Blif.expand_fa false 2 (render_op o)
    = [Blif.Block ["CONST0"; "K0"; "s_c0_1"] "p_s_c0_2" ["100"; "010"; "001"; "111"];
       Blif.Block ["CONST0"; "K0"; "s_c0_1"] "p_c_c0_2" ["011"; "101"; "110"; "111"]]
  ∧ Blif.emit_xor3 "s_c0_1" "K0" "CONST0" "p_s_c0_2"
    = Blif.Block ["CONST0"; "K0"; "s_c0_1"] "p_s_c0_2" ["100"; "010"; "001"; "111"]
  ∧ Blif.emit_xor3 "CONST0" "K0" "s_c0_1" "p_s_c0_2"
    = Blif.Block ["CONST0"; "K0"; "s_c0_1"] "p_s_c0_2" ["001"; "010"; "100"; "111"]
  ∧ Blif.sorted ["100"; "010"; "001"; "111"] = ["001"; "010"; "100"; "111"].
Proof. cbv zeta. split_and!; vm_compute; reflexivity. Qed.

(** * The optimizer preserves the decision *)

Section OptimizerSound.
Implicit Types (cm : gmap signal signal) (ops P L : list fa_op) (o : fa_op) (ρ : env).

Lemma sig_val_const ρ1 ρ2 x : _is_const x = true → sig_val ρ1 x = sig_val ρ2 x.
Proof. by destruct x. Qed.

Lemma resolve_chain_val ρ cm :
  (∀ k v, cm !! k = Some v → sig_val ρ k = sig_val ρ v) →
  ∀ fuel x y, resolve_chain cm fuel x = Some y → sig_val ρ y = sig_val ρ x.
Proof.
  intros Hcm. induction fuel as [|fuel IH]; intros x y; cbn [resolve_chain];
    destruct (cm !! x) as [v|] eqn:E; try (intros [= <-]; done); try done.
  intros Hy. rewrite (IH _ _ Hy). symmetry. by apply Hcm.
Qed.

Lemma fold_step_val (va vb vc : signal) ρ :
  _is_const va && _is_const vb && _is_const vc = true →
  let ones := Nat.b2n (bool_decide (va = SConst1)) + Nat.b2n (bool_decide (vb = SConst1))
              + Nat.b2n (bool_decide (vc = SConst1)) in
  sig_val ρ (const_of_bool (Nat.land ones 1 =? 1))
  = xor3 (sig_val ρ va) (sig_val ρ vb) (sig_val ρ vc)
  ∧ sig_val ρ (const_of_bool (2 <=? ones))
    = maj3 (sig_val ρ va) (sig_val ρ vb) (sig_val ρ vc).
Proof. destruct va, vb, vc; try done; intros _; split; reflexivity. Qed.

(** The first loop keeps, for a valuation that satisfies the network, the
    value of every signal it maps and the equations of what it keeps. *)
Lemma fold_constants_val ρ ops : ∀ cm P cm' P',
  models ρ ops →
  (∀ k v, cm !! k = Some v → sig_val ρ k = sig_val ρ v) →
  Forall (fa_holds ρ) P →
  fold_constants ops cm P = Some (cm', P') →
  (∀ k v, cm' !! k = Some v → sig_val ρ k = sig_val ρ v) ∧ Forall (fa_holds ρ) P'.
Proof.
  induction ops as [|h rest IH]; intros cm P cm' P' Hm Hcm HP Hf.
  - simpl in Hf. by injection Hf as <- <-.
  - destruct h as [[[[a b] c] s] k]. inversion_clear Hm as [|? ? Hh Hrest].
    cbn [fold_constants] in Hf.
    destruct (resolve cm a) as [a'|] eqn:Ea; [|done].
    destruct (resolve cm b) as [b'|] eqn:Eb; [|done].
    destruct (resolve cm c) as [c'|] eqn:Ec; [|done].
    cbn [mbind option_bind] in Hf.
    apply (resolve_chain_val ρ cm Hcm) in Ea, Eb, Ec.
    destruct Hh as [Hs Hk]. rewrite <- Ea, <- Eb, <- Ec in Hs, Hk.
    destruct (_is_const a' && _is_const b' && _is_const c') eqn:Eall.
    + destruct (fold_step_val a' b' c' ρ Eall) as [Hxor Hmaj]. cbn zeta in Hxor, Hmaj.
      set (vs := const_of_bool (Nat.land _ 1 =? 1)) in *.
      set (vk := const_of_bool (2 <=? _)) in *. clearbody vs vk.
      apply (IH _ _ _ _ Hrest) in Hf; [done| |done].
      intros k0 v0. rewrite !lookup_insert. repeat case_decide; subst.
      * intros [= <-]. by rewrite Hmaj.
      * intros [= <-]. by rewrite Hxor.
      * apply Hcm.
    + apply (IH _ _ _ _ Hrest) in Hf; [done|done|].
      apply Forall_app. split; [done|]. constructor; [|constructor]. by split.
Qed.

Lemma add_ins_mono nd o x : x ∈ nd → x ∈ add_ins nd o.
Proof.
  destruct o as [[[[a b] c] s] k]. unfold add_ins. simpl. intros Hx.
  destruct (_is_const a), (_is_const b), (_is_const c); set_solver.
Qed.

Lemma add_ins_ins nd o x : x ∈ ins o → _is_const x = false → x ∈ add_ins nd o.
Proof.
  destruct o as [[[[a b] c] s] k]. unfold add_ins. simpl. intros Hx Hc.
  apply elem_of_3 in Hx.
  destruct (_is_const a) eqn:Ha, (_is_const b) eqn:Hb, (_is_const c) eqn:Hcc;
    destruct Hx as [->|[->| ->]]; try congruence; set_solver.
Qed.

Lemma add_ins_inv nd o x : x ∈ add_ins nd o → x ∈ nd ∨ x ∈ ins o.
Proof.
  destruct o as [[[[a b] c] s] k]. unfold add_ins. simpl. rewrite elem_of_3.
  destruct (_is_const a), (_is_const b), (_is_const c); set_solver.
Qed.

Lemma prune_r_needed_mono L N x : x ∈ N → x ∈ (prune_r L N).1.
Proof.
  intros Hx. induction L as [|o L IH]; [done|]. cbn [prune_r].
  destruct (prune_r L N) as [nd kept]. cbn [fst] in *.
  destruct (decide (wanted nd o)); cbn [fst]; [by apply add_ins_mono|done].
Qed.

Lemma prune_r_needed_inv L N x :
  x ∈ (prune_r L N).1 → x ∈ N ∨ ∃ o, o ∈ (prune_r L N).2 ∧ x ∈ ins o.
Proof.
  induction L as [|o L IH]; [by left|]. cbn [prune_r].
  destruct (prune_r L N) as [nd kept]. cbn [fst snd] in *.
  destruct (decide (wanted nd o)); cbn [fst snd]; [|done].
  intros [Hx|Hx]%add_ins_inv.
  - destruct (IH Hx) as [?|(o' & Ho' & Hx')]; [by left|right].
    exists o'. split; [by right|done].
  - right. exists o. split; [left|done].
Qed.

Lemma prune_r_thin L N : thin (λ _, True) (prune_r L N).2 L.
Proof.
  induction L as [|o L IH]; [constructor|]. cbn [prune_r].
  destruct (prune_r L N) as [nd kept]. cbn [snd] in *.
  destruct (decide (wanted nd o)); cbn [snd].
  - apply thin_keep; [apply refines_refl|done].
  - by apply thin_skip.
Qed.

Lemma prune_r_sub L N o : o ∈ (prune_r L N).2 → o ∈ L.
Proof.
  induction L as [|o' L IH]; [done|]. cbn [prune_r].
  destruct (prune_r L N) as [nd kept]. cbn [snd] in *.
  destruct (decide (wanted nd o')); cbn [snd]; rewrite ?elem_of_cons; intuition.
Qed.

(** Dead-code elimination: what is kept computes, from an initial valuation
    that is right on the free signals it needs, the needed signals as any
    valuation satisfying the whole network has them. *)
Lemma prune_r_sound ρ L N : ∀ ρ0,
  fan_wf L → models ρ L →
  (∀ x, x ∈ (prune_r L N).1 → Forall (λ o, x ∉ outs o) L → sig_val ρ0 x = sig_val ρ x) →
  ∀ x, x ∈ N → sig_val (run_fan ρ0 (prune_r L N).2) x = sig_val ρ x.
Proof.
  induction L as [|o L IH]; intros ρ0 Hwf Hm Hfree x Hx.
  - simpl. apply Hfree; [done|constructor].
  - destruct Hwf as (Hc & Hnd & Hin & Hlater & Hwf). inversion_clear Hm as [|? ? Ho HL].
    cbn [prune_r] in *. destruct (prune_r L N) as [nd kept] eqn:E. cbn [fst snd] in *.
    destruct (decide (wanted nd o)) as [Hw|Hw]; cbn [fst snd] in *.
    + cbn [run_fan foldl]. apply (IH (fa_step ρ0 o)); try done.
      intros y Hy Hyrest. destruct (decide (y ∈ outs o)) as [Hyo|Hyo].
      * pose proof (fa_step_holds ρ0 o Hc Hnd Hin) as Hstep.
        assert (∀ z, z ∈ ins o → sig_val (fa_step ρ0 o) z = sig_val ρ z) as Hz.
        { intros z Hz. rewrite fa_step_frame by by apply Hin.
          destruct (_is_const z) eqn:Ez; [by apply sig_val_const|].
          apply Hfree; [by apply add_ins_ins|]. constructor; [by apply Hin|].
          eapply Forall_impl; [exact Hlater|]. intros o' Ho'. apply Ho'.
          rewrite elem_of_app. by left. }
        destruct o as [[[[a b] c] s] k]. destruct Hstep as [Hs Hk]. destruct Ho as [Hs' Hk'].
        rewrite (Hz a), (Hz b), (Hz c) in Hs, Hk by (simpl; apply elem_of_3; tauto).
        simpl in Hyo. apply elem_of_2 in Hyo as [->| ->]; congruence.
      * rewrite fa_step_frame by done. apply Hfree; [by apply add_ins_mono|].
        by constructor.
    + apply IH; try done. intros y Hy Hyrest. apply Hfree; [done|].
      constructor; [|done]. destruct o as [[[[a b] c] s] k]. simpl in *.
      rewrite elem_of_2. intros [->| ->]; tauto.
Qed.

(** What the optimizer returns on a FAN. *)
Lemma optimizer_shape ops maj :
  fan_wf ops →
  ∃ cm P,
    fold_constants ops ∅ [] = Some (cm, P)
    ∧ cm_ok cm
    ∧ Forall (settled cm []) P
    ∧ thin (mapped_by cm) P ops
    ∧ _constant_fold_and_prune ops maj
      = Some (_prune_fa_netlist P (default maj (cm !! maj)), default maj (cm !! maj)).
Proof.
  intros Hwf.
  destruct (fold_constants_wf ops ops ∅ [] [] eq_refl Hwf)
    as (cm & P & Efold & Hok & Hset & Hnc & Hthin); try done.
  { intros x [v Hv]. by rewrite lookup_empty in Hv. }
  { constructor. }
  exists cm, P. split_and!; try done.
  unfold _constant_fold_and_prune. rewrite Efold. cbn [mbind option_bind].
  rewrite resolve_ok by done. cbn [mbind option_bind]. rewrite mapM_id; [done|].
  eapply Forall_impl; [exact Hset|]. intros o Ho.
  apply resolve_op_id. intros x Hx. by destruct (Ho x Hx).
Qed.

(** On a FAN the optimizer returns a FAN whose decision signal has, from
    every initial valuation, the value of the decision signal it was given. *)
Lemma optimizer_sound ops maj :
  fan_wf ops →
  ∃ ops' maj',
    _constant_fold_and_prune ops maj = Some (ops', maj')
    ∧ fan_wf ops'
    ∧ ∀ ρ0, sig_val (run_fan ρ0 ops') maj' = sig_val (run_fan ρ0 ops) maj.
Proof.
  intros Hwf. destruct (optimizer_shape ops maj Hwf) as (cm & P & Efold & Hok & Hset & Hthin & E).
  set (maj' := default maj (cm !! maj)) in *.
  exists (_prune_fa_netlist P maj'), maj'. split; [done|].
  pose proof (thin_wf _ _ _ Hthin Hwf) as HwfP.
  assert (fan_wf (_prune_fa_netlist P maj')) as Hwf'.
  { rewrite prune_eq. eapply thin_wf; [apply prune_r_thin|done]. }
  split; [done|]. intros ρ0. revert Hwf'. cut (fan_wf (_prune_fa_netlist P maj') →
    fan_wf (_prune_fa_netlist P maj')
    ∧ sig_val (run_fan ρ0 (_prune_fa_netlist P maj')) maj' = sig_val (run_fan ρ0 ops) maj).
  { intros H Hwf'. by destruct (H Hwf'). }
  intros _.
  set (ρ := run_fan ρ0 ops).
  pose proof (run_fan_models ops ρ0 Hwf) as Hm. fold ρ in Hm.
  destruct (fold_constants_val ρ ops ∅ [] cm P Hm) as [Hcm HP]; try done.
  assert (cm !! maj' = None) as Hmaj'.
  { unfold maj'. destruct (cm !! maj) as [v|] eqn:Ev; cbn [default]; [|done].
    destruct (Hok _ _ Ev) as [Hv _]. destruct (cm !! v) as [v'|] eqn:Ev'; [|done].
    destruct (Hok _ _ Ev') as [_ Hv']. congruence. }
  assert (sig_val ρ maj' = sig_val ρ maj) as Hval.
  { unfold maj'. destruct (cm !! maj) as [v|] eqn:Ev; cbn [default]; [|done].
    symmetry. by apply Hcm. }
  rewrite prune_eq. split.
  - eapply thin_wf; [apply prune_r_thin|done].
  - rewrite <- Hval. apply prune_r_sound; try done; [|set_solver].
    intros x Hx HxP. symmetry. apply run_fan_frame.
    assert (cm !! x = None) as Hcx.
    { apply prune_r_needed_inv in Hx as [Hx|(o & Ho & Hx)].
      - apply elem_of_singleton in Hx. by subst.
      - apply prune_r_sub in Ho. rewrite Forall_forall in Hset.
        apply (Hset o Ho x). rewrite elem_of_app. by left. }
    pose proof (thin_cover _ _ _ Hthin) as Hcover.
    eapply Forall_impl; [exact Hcover|]. intros o [Ho|(o' & Ho' & Eo)] Hxo.
    + destruct (Ho x Hxo) as [v Hv]. congruence.
    + rewrite Forall_forall in HxP. apply (HxP o' Ho'). by rewrite Eo.
Qed.

End OptimizerSound.

(** * Substituting a layout into the scaffold network *)

(** What a layout puts on a scaffold input: a real input or a literal. *)
Definition is_tok (t : signal) : Prop := _is_const t = true ∨ ∃ j, t = SX j.

(** The assignment of the scaffold inputs that a mapping induces. *)
Definition big_assign (xs : nat → bool) (mapping : list signal) : nat → bool :=
  λ i, match mapping !! i with
       | Some t => sig_val (input_env xs []) t
       | None => xs i
       end.

Definition remap_op (mapping : list signal) (o : fa_op) : fa_op :=
  let '(a, b, cin, s, k) := o in
  (_remap_signal a mapping, _remap_signal b mapping, _remap_signal cin mapping, s, k).

Section Substitution.
Variable mapping : list signal.
Hypothesis Hmap : Forall is_tok mapping.
Implicit Types (ρ : env) (o : fa_op) (ops : list fa_op).

Lemma apply_mapping_eq ops maj :
  _apply_mapping_to_netlist ops maj mapping
  = (remap_op mapping <$> ops, _remap_signal maj mapping).
Proof.
  reflexivity.
Qed.

Lemma remap_cases s :
  _remap_signal s mapping = s ∨ is_tok (_remap_signal s mapping).
Proof.
  destruct s; try (by left). simpl. destruct (mapping !! i) as [t|] eqn:E; [|by left].
  right. simpl. rewrite Forall_forall in Hmap. apply Hmap. by eapply list_elem_of_lookup_2.
Qed.

Lemma remap_wire s : (∀ i, s ≠ SX i) → _remap_signal s mapping = s.
Proof. destruct s; try done. intros H. by destruct (H i). Qed.

Lemma tok_not_out t o : is_tok t → drives_wires o → t ∉ outs o.
Proof.
  intros [Ht|[j ->]] Ho Hin; destruct (Ho _ Hin) as [Hc Hx]; [congruence|by apply (Hx j)].
Qed.

Lemma outs_remap_op o : outs (remap_op mapping o) = outs o.
Proof. by destruct o as [[[[a b] c] s] k]. Qed.

Lemma ins_remap_op o : ins (remap_op mapping o) = (λ s, _remap_signal s mapping) <$> ins o.
Proof. by destruct o as [[[[a b] c] s] k]. Qed.

Lemma remap_val xs c1 s :
  sig_val (input_env xs c1) (_remap_signal s mapping)
  = sig_val (input_env (big_assign xs mapping) c1) s.
Proof.
  destruct s; try done. simpl. unfold big_assign.
  destruct (mapping !! i) as [t|] eqn:E; [|done]. simpl.
  rewrite Forall_forall in Hmap.
  destruct (Hmap t (list_elem_of_lookup_2 _ _ _ E)) as [Ht|[j ->]]; [|done].
  by destruct t.
Qed.

(** The two runs agree through the substitution. *)
Definition remap_rel ρ ρ' : Prop :=
  ∀ s, sig_val ρ (_remap_signal s mapping) = sig_val ρ' s.

Lemma fa_step_out ρ o x :
  x ∈ outs o → _is_const x = false →
  let '(a, b, c, s, k) := o in
  sig_val (fa_step ρ o) x
  = if decide (x = k) then maj3 (sig_val ρ a) (sig_val ρ b) (sig_val ρ c)
    else xor3 (sig_val ρ a) (sig_val ρ b) (sig_val ρ c).
Proof.
  destruct o as [[[[a b] c] s] k]. simpl. intros Hx Hc. apply elem_of_2 in Hx.
  destruct (decide (x = k)) as [->|Hk].
  - by apply sig_val_insert_eq.
  - destruct Hx as [->|Hx]; [|done]. rewrite sig_val_insert_ne by done.
    by apply sig_val_insert_eq.
Qed.

Lemma remap_rel_step ρ ρ' o :
  drives_wires o → remap_rel ρ ρ' →
  remap_rel (fa_step ρ (remap_op mapping o)) (fa_step ρ' o).
Proof.
  intros Ho HR x. destruct (decide (x ∈ outs o)) as [Hx|Hx].
  - destruct (Ho x Hx) as [Hc Hnx]. rewrite (remap_wire x Hnx).
    destruct o as [[[[a b] c] s] k].
    pose proof (fa_step_out ρ (remap_op mapping (a, b, c, s, k)) x Hx Hc) as H1.
    pose proof (fa_step_out ρ' (a, b, c, s, k) x Hx Hc) as H2.
    cbn [remap_op] in *. rewrite H1, H2, !HR. done.
  - rewrite (fa_step_frame ρ' o x Hx). rewrite fa_step_frame; [apply HR|].
    rewrite outs_remap_op. destruct (remap_cases x) as [->|Ht]; [done|].
    by apply tok_not_out.
Qed.

Lemma remap_rel_run ops : ∀ ρ ρ',
  Forall drives_wires ops → remap_rel ρ ρ' →
  remap_rel (run_fan ρ (remap_op mapping <$> ops)) (run_fan ρ' ops).
Proof.
  induction ops as [|o ops IH]; intros ρ ρ' Hops HR; [done|].
  inversion_clear Hops as [|? ? Ho Hrest]. cbn [fmap list_fmap run_fan foldl].
  apply IH; [done|]. by apply remap_rel_step.
Qed.

(** The substituted network decides, on the real inputs, what the scaffold
    network decides on the assignment the layout induces. *)
Lemma mapped_decision xs c1 ops maj :
  Forall drives_wires ops →
  decision xs c1 (remap_op mapping <$> ops) (_remap_signal maj mapping)
  = decision (big_assign xs mapping) c1 ops maj.
Proof.
  intros Hops. unfold decision. apply remap_rel_run; [done|].
  intros s. apply remap_val.
Qed.

Lemma mapped_wf ops :
  Forall drives_wires ops → fan_wf ops → fan_wf (remap_op mapping <$> ops).
Proof.
  induction ops as [|o ops IH]; intros Hops Hwf; [done|].
  inversion_clear Hops as [|? ? Ho Hrest].
  destruct Hwf as (Hc & Hnd & Hin & Hlater & Hwf).
  cbn [fmap list_fmap fan_wf]. rewrite outs_remap_op, ins_remap_op.
  split_and!; [done|done| | |by apply IH].
  - intros x [y [-> Hy]]%list_elem_of_fmap.
    destruct (remap_cases y) as [->|Ht]; [by apply Hin|by apply tok_not_out].
  - apply Forall_fmap. rewrite Forall_forall in Hlater, Hrest. apply Forall_forall.
    intros o2 Ho2 x Hx. cbn. rewrite outs_remap_op.
    apply elem_of_app in Hx as [[y [-> Hy]]%list_elem_of_fmap|Hx].
    + destruct (remap_cases y) as [->|Ht].
      * apply (Hlater o2 Ho2). rewrite elem_of_app. by left.
      * apply tok_not_out; [done|by apply Hrest].
    + apply (Hlater o2 Ho2). rewrite elem_of_app. by right.
Qed.

End Substitution.

(** * The layouts *)

(** What a layout token contributes to the number of ones. *)
Definition tok_weight (xs : nat → bool) (t : layout_token) : nat :=
  match t.1 with
  | KindX => Nat.b2n (xs t.2)
  | KindOne => 1
  | KindZero => 0
  end.

Definition weight (xs : nat → bool) (sq : list layout_token) : nat :=
  sum_list_with (tok_weight xs) sq.

Section LayoutFacts.
Variables (n nf N_big : nat).

(** A layout under construction with [x] inputs, [o] ones and [z] zeros. *)
Definition lay_ok (st : lay_state) : Prop :=
  let '(sq, x, o, z) := st in
  length sq = x + o + z ∧ x ≤ n ∧ o ≤ nf ∧ z ≤ nf
  ∧ ∀ xs, weight xs sq = popcount xs x + o.

(** A finished layout. *)
Definition lay_done (sq : list layout_token) : Prop :=
  length sq = N_big ∧ ∀ xs, weight xs sq = popcount xs n + nf.

Lemma popcount_S xs m : popcount xs (S m) = popcount xs m + Nat.b2n (xs m).
Proof. unfold popcount. rewrite seq_S, sum_list_with_app. simpl. lia. Qed.

Lemma weight_snoc xs sq t : weight xs (sq ++ [t]) = weight xs sq + tok_weight xs t.
Proof. unfold weight. rewrite sum_list_with_app. simpl. lia. Qed.

Lemma weight_app xs sq1 sq2 : weight xs (sq1 ++ sq2) = weight xs sq1 + weight xs sq2.
Proof. apply sum_list_with_app. Qed.

Lemma push_x_ok c st : lay_ok st → lay_ok (push_x n c st).
Proof.
  destruct st as [[[sq x] o] z]. intros (Hl & Hx & Ho & Hz & Hw). unfold push_x.
  destruct (c && (x <? n)) eqn:E; [|done].
  apply andb_true_iff in E as [_ E%Nat.ltb_lt]. unfold lay_ok.
  rewrite length_app. cbn [length]. split_and!; try lia.
  intros xs. rewrite weight_snoc, Hw, popcount_S. unfold tok_weight. simpl. lia.
Qed.

Lemma push_one_ok c st : lay_ok st → lay_ok (push_one nf c st).
Proof.
  destruct st as [[[sq x] o] z]. intros (Hl & Hx & Ho & Hz & Hw). unfold push_one.
  destruct (c && (o <? nf)) eqn:E; [|done].
  apply andb_true_iff in E as [_ E%Nat.ltb_lt]. unfold lay_ok.
  rewrite length_app. cbn [length]. split_and!; try lia.
  intros xs. rewrite weight_snoc, Hw. unfold tok_weight. simpl. lia.
Qed.

Lemma push_zero_ok c st : lay_ok st → lay_ok (push_zero nf c st).
Proof.
  destruct st as [[[sq x] o] z]. intros (Hl & Hx & Ho & Hz & Hw). unfold push_zero.
  destruct (c && (z <? nf)) eqn:E; [|done].
  apply andb_true_iff in E as [_ E%Nat.ltb_lt]. unfold lay_ok.
  rewrite length_app. cbn [length]. split_and!; try lia.
  intros xs. rewrite weight_snoc, Hw. unfold tok_weight. simpl. lia.
Qed.

Lemma lay_ok_length (HN : N_big = n + 2 * nf) st : lay_ok st → length st.1.1.1 ≤ N_big.
Proof. destruct st as [[[sq x] o] z]. intros (Hl & Hx & Ho & Hz & Hw). simpl. lia. Qed.

Lemma lay_ok_full (HN : N_big = n + 2 * nf) st :
  lay_ok st → room N_big st = false → lay_done st.1.1.1.
Proof.
  destruct st as [[[sq x] o] z]. intros (Hl & Hx & Ho & Hz & Hw) Hr.
  unfold room in Hr. simpl in *. apply Nat.ltb_ge in Hr.
  assert (x = n ∧ o = nf) as [-> ->] by lia. split; [lia|done].
Qed.

(** How the pushes change the length. *)
Lemma push_x_length c st :
  length (push_x n c st).1.1.1
  = length st.1.1.1 + (if c && (st.1.1.2 <? n) then 1 else 0).
Proof.
  destruct st as [[[sq x] o] z]. unfold push_x. simpl.
  destruct (c && (x <? n)); simpl; rewrite ?length_app; simpl; lia.
Qed.

Lemma push_one_length c st :
  length (push_one nf c st).1.1.1
  = length st.1.1.1 + (if c && (st.1.2 <? nf) then 1 else 0).
Proof.
  destruct st as [[[sq x] o] z]. unfold push_one. simpl.
  destruct (c && (o <? nf)); simpl; rewrite ?length_app; simpl; lia.
Qed.

Lemma push_zero_length c st :
  length (push_zero nf c st).1.1.1
  = length st.1.1.1 + (if c && (st.2 <? nf) then 1 else 0).
Proof.
  destruct st as [[[sq x] o] z]. unfold push_zero. simpl.
  destruct (c && (z <? nf)); simpl; rewrite ?length_app; simpl; lia.
Qed.

(** The counters that a push leaves alone. *)
Lemma push_x_counts c st :
  (push_x n c st).1.2 = st.1.2 ∧ (push_x n c st).2 = st.2.
Proof. destruct st as [[[sq x] o] z]. unfold push_x. by destruct (c && (x <? n)). Qed.

Lemma push_one_counts c st :
  (push_one nf c st).1.1.2 = st.1.1.2 ∧ (push_one nf c st).2 = st.2.
Proof. destruct st as [[[sq x] o] z]. unfold push_one. by destruct (c && (o <? nf)). Qed.

(** A loop that appends on every turn and cannot pass [bound] returns. *)
Lemma while_growing_run (Inv : lay_state → Prop) cond body bound :
  (∀ st, Inv st → length st.1.1.1 ≤ bound) →
  (∀ st, Inv st → cond st = true →
         Inv (body st) ∧ length st.1.1.1 < length (body st).1.1.1) →
  ∀ fuel st, Inv st → bound ≤ fuel + length st.1.1.1 →
  ∃ st', while_growing fuel cond body st = Some st' ∧ Inv st' ∧ cond st' = false.
Proof.
  intros Hb Hstep. induction fuel as [|fuel IH]; intros st Hst Hf.
  - cbn [while_growing]. destruct (cond st) eqn:Ec; [|eauto].
    destruct (Hstep st Hst Ec) as [Hst' Hg]. pose proof (Hb _ Hst'). lia.
  - cbn [while_growing]. destruct (cond st) eqn:Ec; [|eauto]. cbn zeta.
    destruct (Hstep st Hst Ec) as [Hst' Hg].
    destruct (length (body st).1.1.1 <=? length st.1.1.1) eqn:El.
    { apply Nat.leb_le in El. lia. }
    apply IH; [done|lia].
Qed.

Lemma while_growing_false fuel cond body st :
  cond st = false → while_growing fuel cond body st = Some st.
Proof. intros H. destruct fuel; cbn [while_growing]; by rewrite H. Qed.

End LayoutFacts.

Ltac split_step :=
  try unfold room in *;
  cbn [push_x push_one push_zero alt_off1_body andb fst snd] in *;
  rewrite ?andb_true_r, ?andb_false_r in *.

Ltac split_tests :=
  repeat (split_step;
          match goal with
          | |- context [?a <? ?b] => destruct (a <? b) eqn:?
          | |- context [?a =? ?b] => destruct (a =? b) eqn:?
          end);
  split_step;
  repeat match goal with
         | H : (_ <? _) = true |- _ => apply Nat.ltb_lt in H
         | H : (_ <? _) = false |- _ => apply Nat.ltb_ge in H
         | H : (_ =? _) = true |- _ => apply Nat.eqb_eq in H
         | H : (_ =? _) = false |- _ => apply Nat.eqb_neq in H
         end;
  rewrite ?length_app in *; cbn [length] in *.

Section LayoutsDone.
Variables (n nf N_big : nat).
Hypothesis HN : N_big = n + 2 * nf.

(** The invariant with the number [m] of inputs placed so far kept apart
    from the state, as the [for] loop of [layout_interleaved] has it. *)
Definition lay_at (m : nat) (st : lay_state) : Prop :=
  let '(sq, _, o, z) := st in
  length sq = m + o + z ∧ m ≤ n ∧ o ≤ nf ∧ z ≤ nf
  ∧ ∀ xs, weight xs sq = popcount xs m + o.

Lemma push_one_at m c st : lay_at m st → lay_at m (push_one nf c st).
Proof.
  destruct st as [[[sq x] o] z]. intros (Hl & Hx & Ho & Hz & Hw). unfold push_one.
  destruct (c && (o <? nf)) eqn:E; [|done].
  apply andb_true_iff in E as [_ E%Nat.ltb_lt]. unfold lay_at.
  rewrite length_app. cbn [length]. split_and!; try lia.
  intros xs. rewrite weight_snoc, Hw. unfold tok_weight. simpl. lia.
Qed.

Lemma push_zero_at m c st : lay_at m st → lay_at m (push_zero nf c st).
Proof.
  destruct st as [[[sq x] o] z]. intros (Hl & Hx & Ho & Hz & Hw). unfold push_zero.
  destruct (c && (z <? nf)) eqn:E; [|done].
  apply andb_true_iff in E as [_ E%Nat.ltb_lt]. unfold lay_at.
  rewrite length_app. cbn [length]. split_and!; try lia.
  intros xs. rewrite weight_snoc, Hw. unfold tok_weight. simpl. lia.
Qed.

Definition fix_pairs (l : list nat) : list layout_token :=
  mjoin ((λ idx, [(KindOne, idx); (KindZero, idx)]) <$> l).

Lemma sum_pairs xs (l : list nat) :
  length (fix_pairs l) = 2 * length l ∧ weight xs (fix_pairs l) = length l.
Proof.
  induction l as [|i l [IH1 IH2]]; [done|].
  change (fix_pairs (i :: l)) with ([(KindOne, i); (KindZero, i)] ++ fix_pairs l).
  rewrite length_app, IH1. split; [simpl; lia|].
  unfold weight in *. rewrite sum_list_with_app, IH2. done.
Qed.

Lemma weight_inputs xs m : weight xs ((λ i, (KindX, i)) <$> seq 0 m) = popcount xs m.
Proof.
  unfold weight, popcount. generalize (seq 0 m). intros l.
  induction l as [|i l IH]; [done|]. cbn [fmap list_fmap sum_list_with].
  cbn [fmap list_fmap] in IH. by rewrite IH.
Qed.

Lemma weight_ones xs m : weight xs ((λ i, (KindOne, i)) <$> seq 0 m) = m.
Proof.
  unfold weight. rewrite <- (length_seq m 0) at 2. generalize (seq 0 m). intros l.
  induction l as [|i l IH]; [done|]. cbn [fmap list_fmap sum_list_with length].
  cbn [fmap list_fmap] in IH. by rewrite IH.
Qed.

Lemma weight_zeros xs m : weight xs ((λ i, (KindZero, i)) <$> seq 0 m) = 0.
Proof.
  unfold weight. generalize (seq 0 m). intros l.
  induction l as [|i l IH]; [done|]. cbn [fmap list_fmap sum_list_with].
  cbn [fmap list_fmap] in IH. by rewrite IH.
Qed.

Lemma layout_clustered_done : lay_done n nf N_big (layout_clustered n nf).
Proof.
  unfold layout_clustered, lay_done. fold (fix_pairs (seq 0 nf)). split.
  - rewrite length_app, length_fmap, length_seq.
    destruct (sum_pairs (λ _, false) (seq 0 nf)) as [-> _]. rewrite length_seq. lia.
  - intros xs. rewrite weight_app, weight_inputs.
    destruct (sum_pairs xs (seq 0 nf)) as [_ ->]. by rewrite length_seq.
Qed.

Lemma layout_base_done : lay_done n nf N_big (layout_base n nf).
Proof.
  unfold layout_base, lay_done. split.
  - rewrite !length_app, !length_fmap, !length_seq. lia.
  - intros xs. rewrite !weight_app, weight_inputs, weight_ones, weight_zeros. lia.
Qed.

Lemma interleaved_for m :
  m ≤ n →
  lay_at m (foldl (λ st idx,
               let '(sq, x, o, z) := st in
               push_zero nf true (push_one nf true (sq ++ [(KindX, idx)], x, o, z)))
              ([], 0, 0, 0) (seq 0 m)).
Proof.
  induction m as [|m IH]; intros Hm.
  - simpl. split_and!; first [lia|done].
  - rewrite seq_S, foldl_app. cbn [foldl plus].
    destruct (foldl _ _ (seq 0 m)) as [[[sq x] o] z].
    destruct IH as (Hl & Hx & Ho & Hz & Hw); [lia|].
    apply push_zero_at, push_one_at. unfold lay_at.
    rewrite length_app. cbn [length]. split_and!; try lia.
    intros xs. rewrite weight_snoc, Hw, popcount_S. unfold tok_weight. simpl. lia.
Qed.

Lemma layout_interleaved_done :
  ∃ sq, layout_interleaved n nf = Some sq ∧ lay_done n nf N_big sq.
Proof.
  unfold layout_interleaved.
  pose proof (interleaved_for n (le_n n)) as H0.
  set (st0 := foldl _ _ _) in *.
  destruct (while_growing_run (lay_at n)
              (λ '(_, _, o, z), (o <? nf) || (z <? nf))
              (λ st, push_zero nf true (push_one nf true st)) N_big) with (fuel := 2 * nf) (st := st0)
    as (st' & -> & Hst' & Hc); try done.
  - intros [[[sq x] o] z] (Hl & Hx & Ho & Hz & Hw). simpl. lia.
  - intros st Hst Hc. split; [by apply push_zero_at, push_one_at|].
    destruct st as [[[sq x] o] z]. apply orb_true_iff in Hc.
    split_tests; lia.
  - destruct st0 as [[[sq x] o] z]. destruct H0 as (Hl & _). simpl. lia.
  - cbn [mbind option_bind]. eexists. split; [done|].
    destruct st' as [[[sq x] o] z]. destruct Hst' as (Hl & Hx & Ho & Hz & Hw).
    apply orb_false_iff in Hc as [Ho'%Nat.ltb_ge Hz'%Nat.ltb_ge].
    assert (o = nf) as -> by lia. split; [simpl; lia|done].
Qed.

Lemma alternating_grows st :
  lay_ok n nf st → room N_big st = true →
  length st.1.1.1
  < length (push_zero nf (room N_big (push_x n (room N_big (push_one nf (room N_big (push_x n true st)) (push_x n true st))) (push_one nf (room N_big (push_x n true st)) (push_x n true st))))
              (push_x n (room N_big (push_one nf (room N_big (push_x n true st)) (push_x n true st))) (push_one nf (room N_big (push_x n true st)) (push_x n true st)))).1.1.1.
Proof.
  destruct st as [[[sq x] o] z]. intros (Hl & Hx & Ho & Hz & Hw) Hr.
  unfold room in Hr. simpl in Hr. apply Nat.ltb_lt in Hr.
  split_tests; lia.
Qed.

Lemma layout_alternating_done :
  ∃ sq, layout_alternating n nf N_big = Some sq ∧ lay_done n nf N_big sq.
Proof.
  unfold layout_alternating.
  match goal with
  | |- context [while_growing ?f ?c ?b ?s] =>
      destruct (while_growing_run (lay_ok n nf) c b N_big) with (fuel := f) (st := s)
        as (st' & E & Hst' & Hc); [| | | |rewrite E]
  end.
  - intros st Hst. by apply (lay_ok_length n nf N_big HN).
  - intros st Hst Hc. split; [|by apply alternating_grows].
    cbn zeta. by apply push_zero_ok, push_x_ok, push_one_ok, push_x_ok.
  - simpl. split_and!; first [lia|done].
  - simpl. lia.
  - cbn [mbind option_bind].
    assert (∀ c, (c && room N_big st') = false) as Hc'.
    { intros c. rewrite Hc. apply andb_false_r. }
    repeat (rewrite while_growing_false by apply Hc'; cbn [mbind option_bind]).
    eexists. split; [done|]. by apply lay_ok_full.
Qed.

Lemma alt_off1_step toggle st :
  lay_ok n nf st → room N_big st = true →
  lay_ok n nf (alt_off1_body n nf toggle st)
  ∧ length st.1.1.1 < length (alt_off1_body n nf toggle st).1.1.1.
Proof.
  intros Hst Hr. split.
  - destruct st as [[[sq x] o] z]. unfold alt_off1_body.
    repeat case_match; try done;
      first [by apply push_x_ok|by apply push_one_ok|by apply push_zero_ok].
  - destruct st as [[[sq x] o] z]. destruct Hst as (Hl & Hx & Ho & Hz & Hw).
    unfold room in Hr. simpl in Hr. apply Nat.ltb_lt in Hr.
    split_tests; lia.
Qed.

Lemma alt_off1_run : ∀ fuel toggle st,
  lay_ok n nf st → N_big ≤ fuel + length st.1.1.1 →
  ∃ st', alt_off1_loop n nf N_big fuel toggle st = Some st'
         ∧ lay_ok n nf st' ∧ room N_big st' = false.
Proof.
  induction fuel as [|fuel IH]; intros toggle st Hst Hf.
  - cbn [alt_off1_loop]. destruct (room N_big st) eqn:Er; [|eauto].
    destruct (alt_off1_step toggle st Hst Er) as [Hst' Hg].
    pose proof (lay_ok_length n nf N_big HN _ Hst'). lia.
  - cbn [alt_off1_loop]. destruct (room N_big st) eqn:Er; [|eauto]. cbn zeta.
    destruct (alt_off1_step toggle st Hst Er) as [Hst' Hg].
    destruct (length (alt_off1_body n nf toggle st).1.1.1 <=? length st.1.1.1) eqn:El.
    { apply Nat.leb_le in El. lia. }
    apply IH; [done|lia].
Qed.

Lemma layout_alt_offset1_done :
  ∃ sq, layout_alt_offset1 n nf N_big = Some sq ∧ lay_done n nf N_big sq.
Proof.
  unfold layout_alt_offset1.
  destruct (alt_off1_run N_big 0 ([], 0, 0, 0)) as (st' & -> & Hst' & Hr).
  - simpl. split_and!; first [lia|done].
  - simpl. lia.
  - cbn [mbind option_bind]. eexists. split; [done|].
    pose proof (lay_ok_full n nf N_big HN st' Hst' Hr) as [Hl Hw].
    rewrite take_ge by lia. by split.
Qed.

End LayoutsDone.

(** * The candidates of the scaffold search *)

Section Candidates.
Variable shuffle : nat → list layout_token → list layout_token.
Hypothesis shuffle_perm : ∀ seed l, shuffle seed l ≡ₚ l.
Variables (n nf N_big : nat).
Hypothesis HN : N_big = n + 2 * nf.
Hypothesis Hnf : 0 < nf.

Lemma lay_done_take sq : lay_done n nf N_big sq → lay_done n nf N_big (take N_big sq).
Proof. intros [Hl Hw]. rewrite take_ge by lia. by split. Qed.

Lemma lay_done_perm sq sq' : sq' ≡ₚ sq → lay_done n nf N_big sq → lay_done n nf N_big sq'.
Proof.
  intros Hp [Hl Hw]. split.
  - by rewrite (Permutation_length Hp).
  - intros xs. unfold weight. rewrite Hp. apply Hw.
Qed.

(** Every layout of the search places the [n] inputs, [nf] ones and [nf]
    zeros on the [N_big] inputs of the scaffold. *)
Lemma scaffold_layouts_done :
  ∃ lays,
    _scaffold_layout_sequences shuffle n nf N_big = Some lays
    ∧ length lays = 16
    ∧ Forall (λ lay, lay_done n nf N_big lay.2) lays.
Proof.
  unfold _scaffold_layout_sequences.
  assert ((nf =? 0) = false) as -> by (apply Nat.eqb_neq; lia).
  destruct (layout_interleaved_done n nf N_big HN) as (l2 & -> & H2).
  destruct (layout_alternating_done n nf N_big HN) as (l3 & -> & H3).
  destruct (layout_alt_offset1_done n nf N_big HN) as (l4 & -> & H4).
  cbn [mbind option_bind]. eexists. split; [done|]. split.
  - rewrite length_fmap, length_app, length_fmap, length_seq. done.
  - apply Forall_fmap, Forall_app. split.
    + repeat constructor; cbn; apply lay_done_take; try done;
        apply (layout_clustered_done n nf N_big HN).
    + apply Forall_fmap, Forall_forall. intros seed _. cbn.
      apply lay_done_take, lay_done_take. eapply lay_done_perm; [apply shuffle_perm|].
      apply (layout_base_done n nf N_big HN).
Qed.

End Candidates.

Lemma tokens_are_toks sq : Forall is_tok (_tokens_to_mapping sq).
Proof.
  unfold _tokens_to_mapping. apply Forall_fmap, Forall_forall.
  intros [[] idx] _; cbn; [right; eauto|by left..].
Qed.

(** The assignment a layout induces on the scaffold has the weight of the
    layout. *)
Lemma big_assign_popcount xs sq :
  popcount (big_assign xs (_tokens_to_mapping sq)) (length sq) = weight xs sq.
Proof.
  unfold popcount, weight.
  assert (∀ s (h : nat → nat),
            (∀ i t, sq !! i = Some t → h (s + i) = tok_weight xs t) →
            sum_list_with h (seq s (length sq)) = sum_list_with (tok_weight xs) sq) as Hgen.
  { induction sq as [|t sq IH]; intros s h Hh; [done|]. cbn [length seq sum_list_with].
    rewrite (IH (S s) h).
    - f_equal. rewrite <- (Hh 0 t eq_refl). f_equal. lia.
    - intros i t' Hi. rewrite <- (Hh (S i) t' Hi). f_equal. lia. }
  apply Hgen. intros i [kd idx] Hi. cbn [plus]. unfold big_assign, _tokens_to_mapping.
  rewrite list_lookup_fmap, Hi. cbn. by destruct kd.
Qed.


(** The decision depends only on the signals the network mentions. *)
Definition mentioned (ops : list fa_op) (maj : signal) : list signal :=
  mjoin ((λ '(a, b, cin, s, k), [a; b; cin; s; k]) <$> ops) ++ [maj].

Lemma mentioned_cons o ops maj x :
  x ∈ mentioned (o :: ops) maj ↔ x ∈ ins o ++ outs o ∨ x ∈ mentioned ops maj.
Proof.
  destruct o as [[[[a b] c] s] k]. unfold mentioned. rewrite fmap_cons.
  cbn [mjoin list_join ins outs]. rewrite !elem_of_app, !elem_of_cons, !elem_of_nil.
  tauto.
Qed.

Lemma run_fan_agree ops maj : ∀ ρ1 ρ2,
  (∀ x, x ∈ mentioned ops maj → sig_val ρ1 x = sig_val ρ2 x) →
  sig_val (run_fan ρ1 ops) maj = sig_val (run_fan ρ2 ops) maj.
Proof.
  induction ops as [|o ops IH]; intros ρ1 ρ2 Hag.
  - apply Hag. unfold mentioned. simpl. left.
  - cbn [run_fan foldl]. apply IH. intros x Hx.
    assert (∀ y, y ∈ ins o → sig_val ρ1 y = sig_val ρ2 y) as Hin.
    { intros y Hy. apply Hag, mentioned_cons. left. rewrite elem_of_app. by left. }
    destruct (decide (x ∈ outs o)) as [Hxo|Hxo].
    + destruct (_is_const x) eqn:Ec; [by apply sig_val_const|].
      pose proof (fa_step_out ρ1 o x Hxo Ec) as H1.
      pose proof (fa_step_out ρ2 o x Hxo Ec) as H2.
      destruct o as [[[[a b] c] s] k]. rewrite H1, H2.
      rewrite (Hin a), (Hin b), (Hin c) by (simpl; apply elem_of_3; tauto). done.
    + rewrite !fa_step_frame by done. apply Hag, mentioned_cons. by right.
Qed.

Lemma elem_of_insert_by_name x y l : x ∈ insert_by_name y l ↔ x = y ∨ x ∈ l.
Proof.
  induction l as [|z l IH]; cbn [insert_by_name].
  - by rewrite elem_of_cons.
  - destruct (String.leb (render y) (render z)); rewrite !elem_of_cons, ?IH; tauto.
Qed.

Lemma elem_of_sorted_by_name x l : x ∈ sorted_by_name l ↔ x ∈ l.
Proof.
  induction l as [|y l IH]; [done|]. unfold sorted_by_name in *. cbn [foldr].
  by rewrite elem_of_insert_by_name, IH, elem_of_cons.
Qed.

Lemma collect_const_names_elem ops maj c1 x :
  x ∈ _collect_const_names ops maj c1 ↔ x ∈ c1 ∧ x ∈ mentioned ops maj.
Proof.
  unfold _collect_const_names. fold (mentioned ops maj).
  by rewrite elem_of_sorted_by_name, elem_of_remove_dups, list_elem_of_filter.
Qed.

(** The named constants a network does not mention do not matter. *)
Lemma decision_const_used xs c1 ops maj :
  decision xs (_collect_const_names ops maj c1) ops maj = decision xs c1 ops maj.
Proof.
  unfold decision. apply run_fan_agree. intros x Hx.
  destruct x; try done; cbn; apply bool_decide_ext; rewrite collect_const_names_elem; tauto.
Qed.

Section Search.
Variables (n nf N_big th : nat).
Variables (ops : list fa_op) (c1 : list signal) (maj : signal).
Hypothesis Hok : fan_ok ops.
Hypothesis Hdec : ∀ xs, decision xs c1 ops maj = (th <=? popcount xs N_big).

(** A candidate: the optimizer returns on the substituted network, and what
    it returns decides whether the real inputs and the [nf] ones of the
    layout reach the scaffold's threshold. *)
Lemma candidate_correct idx name sq :
  lay_done n nf N_big sq →
  ∃ c, candidate ops maj c1 idx (name, sq) = Some c
       ∧ sel_score c = (length (sel_fa_ops c), idx)
       ∧ ∀ xs, decision xs (sel_const1_names c) (sel_fa_ops c) (sel_maj_signal c)
               = (th <=? popcount xs n + nf).
Proof.
  intros [Hl Hw]. destruct Hok as [Hwf Hdr].
  pose proof (tokens_are_toks sq) as Hmap.
  set (mapping := _tokens_to_mapping sq) in *.
  destruct (optimizer_sound (remap_op mapping <$> ops) (_remap_signal maj mapping))
    as (ops' & maj' & E & Hwf' & Hval); [by apply mapped_wf|].
  unfold candidate. cbn [snd fst]. fold mapping. rewrite apply_mapping_eq.
  rewrite E. cbn [mbind option_bind]. eexists. split; [done|]. split; [done|].
  intros xs. cbn [sel_fa_ops sel_maj_signal sel_const1_names].
  rewrite decision_const_used. unfold decision at 1. rewrite Hval.
  fold (decision xs c1 (remap_op mapping <$> ops) (_remap_signal maj mapping)).
  rewrite (mapped_decision mapping Hmap) by done. rewrite Hdec, <- Hl.
  unfold mapping. by rewrite big_assign_popcount, Hw.
Qed.

(** What [best] holds after the candidates [s .. k-1], [C j] being the
    candidate of index [j]. *)
Definition best_inv (C : nat → option selection) (s k : nat) (best : option selection) : Prop :=
  match best with
  | None => k = s
  | Some b =>
      ∃ i, s ≤ i < k ∧ C i = Some b
           ∧ ∀ j c, s ≤ j < k → C j = Some c →
                    length (sel_fa_ops b) ≤ length (sel_fa_ops c)
                    ∧ (length (sel_fa_ops c) = length (sel_fa_ops b) → i ≤ j)
  end.

Lemma select_from_spec (C : nat → option selection) (s : nat) :
  (∀ j c, C j = Some c → sel_score c = (length (sel_fa_ops c), j)) →
  ∀ lays idx best,
    s ≤ idx →
    (∀ i lay, lays !! i = Some lay →
              ∃ c, candidate ops maj c1 (idx + i) lay = Some c ∧ C (idx + i) = Some c) →
    best_inv C s idx best →
    ∃ r, select_from ops maj c1 idx lays best = Some r
         ∧ best_inv C s (idx + length lays) r.
Proof.
  intros Hscore. induction lays as [|lay lays IH]; intros idx best Hs Hc Hb.
  - exists best. split; [done|]. by rewrite Nat.add_0_r.
  - cbn [select_from]. destruct (Hc 0 lay eq_refl) as (c & Ec & EC).
    rewrite Nat.add_0_r in Ec, EC. rewrite Ec. cbn [mbind option_bind].
    cbn [length]. replace (idx + S (length lays)) with (S idx + length lays) by lia.
    apply IH; [lia| |].
    { intros i lay' Hi. destruct (Hc (S i) lay' Hi) as (c' & Ec' & EC').
      replace (idx + S i) with (S idx + i) in * by lia. eauto. }
    pose proof (Hscore _ _ EC) as Hsc.
    destruct best as [b|]; cbn [best_inv] in *.
    + destruct Hb as (i & Hi & Ei & Hmin). pose proof (Hscore _ _ Ei) as Hsb.
      unfold score_lt. rewrite Hsc, Hsb. cbn [fst snd].
      destruct (length (sel_fa_ops c) <? length (sel_fa_ops b)) eqn:Elt.
      * apply Nat.ltb_lt in Elt. cbn [orb best_inv]. exists idx. split_and!; [lia..|done|].
        intros j c' Hj Ej. destruct (decide (j = idx)) as [->|Hne].
        -- rewrite EC in Ej. injection Ej as <-. lia.
        -- destruct (Hmin j c' ltac:(lia) Ej). lia.
      * apply Nat.ltb_ge in Elt. cbn [orb].
        assert ((length (sel_fa_ops c) =? length (sel_fa_ops b)) && (idx <? i) = false) as ->.
        { apply andb_false_iff. right. apply Nat.ltb_ge. lia. }
        cbn [best_inv]. exists i. split_and!; [lia..|done|].
        intros j c' Hj Ej. destruct (decide (j = idx)) as [->|Hne].
        -- rewrite EC in Ej. injection Ej as <-. lia.
        -- apply Hmin; [lia|done].
    + subst idx. exists s. split_and!; [lia..|done|].
      intros j c' Hj Ej. assert (j = s) as -> by lia.
      rewrite EC in Ej. injection Ej as <-. lia.
Qed.

End Search.





(** * The canonical form of majority blocks *)

Section Canonical.
Import Blif.

Lemma string_compare_trans (s1 : string) : ∀ s2 s3,
  String.compare s1 s2 ≠ Gt → String.compare s2 s3 ≠ Gt → String.compare s1 s3 ≠ Gt.
Proof.
  induction s1 as [|c1 s1 IH]; intros [|c2 s2] [|c3 s3]; cbn [String.compare]; try done.
  unfold Ascii.compare.
  destruct (N.compare_spec (N_of_ascii c1) (N_of_ascii c2)) as [E12|L12|G12];
    destruct (N.compare_spec (N_of_ascii c2) (N_of_ascii c3)) as [E23|L23|G23];
    destruct (N.compare_spec (N_of_ascii c1) (N_of_ascii c3)) as [E13|L13|G13];
    try done; try lia.
  apply IH.
Qed.

Lemma string_leb_trans (s1 s2 s3 : string) :
  String.leb s1 s2 = true → String.leb s2 s3 = true → String.leb s1 s3 = true.
Proof.
  unfold String.leb. intros H12 H23.
  pose proof (string_compare_trans s1 s2 s3) as H.
  destruct (String.compare s1 s2), (String.compare s2 s3), (String.compare s1 s3);
    try done; exfalso; by apply H.
Qed.

Lemma string_leb_flip (s1 s2 : string) :
  s1 ≠ s2 → String.leb s2 s1 = negb (String.leb s1 s2).
Proof.
  intros Hne. destruct (String.leb s1 s2) eqn:E12, (String.leb s2 s1) eqn:E21; try done.
  - by destruct Hne; apply String.leb_antisym.
  - destruct (String.leb_total s1 s2); congruence.
Qed.

(** Two names next to each other in a list are in order. *)
Definition names_sorted (l : list string) : Prop :=
  ∀ i x y, l !! i = Some x → l !! S i = Some y → String.leb x y = true.

Lemma sorted3_sorted (A B C : string) :
  names_sorted (sorted [A; B; C]) ∧ sorted [A; B; C] ≡ₚ [A; B; C].
Proof.
  unfold sorted. cbn [foldr insert_sorted].
  destruct (String.leb B C) eqn:EBC; cbn [insert_sorted];
    destruct (String.leb A B) eqn:EAB; destruct (String.leb A C) eqn:EAC;
    cbn [insert_sorted]; (split; [|by (reflexivity || solve_Permutation)]);
    intros [|[|[|i]]] x y Hx Hy; simplify_eq/=; try done;
    match goal with
    | |- String.leb ?a ?b = true => destruct (String.leb_total a b); congruence
    end.
Qed.

(** Strictly ascending: sorted and without repetition. *)
Fixpoint ascending (l : list string) : bool :=
  match l with
  | x :: (y :: _) as l' => String.ltb x y && ascending l'
  | _ => true
  end.

Lemma emit_maj3_inputs A B C OUT mask :
  blk_inputs (emit_maj3 A B C OUT mask) = sorted [A; B; C]
  ∧ blk_output (emit_maj3 A B C OUT mask) = OUT.
Proof. unfold emit_maj3. by destruct (default _ mask) as [[na nb] nc]. Qed.

Lemma emit_xor3_inputs A B C S :
  blk_inputs (emit_xor3 A B C S) = sorted [A; B; C] ∧ blk_output (emit_xor3 A B C S) = S.
Proof. done. Qed.

(** The rows of a majority block are strictly ascending, whatever the
    operands and the mask. *)
Lemma emit_maj3_rows_ascending A B C OUT mask :
  ascending (blk_rows (emit_maj3 A B C OUT mask)) = true.
Proof.
  unfold emit_maj3. destruct (default _ mask) as [[na nb] nc].
  destruct (_sorted3 A B C) as [srt perm]. cbn [blk_rows].
  set (m0 := _ !!! 0). set (m1 := _ !!! 1). set (m2 := _ !!! 2). clearbody m0 m1 m2.
  destruct m0, m1, m2; vm_compute; reflexivity.
Qed.

(** Closing a goal whose hypotheses order distinct names inconsistently. *)
Ltac leb_saturate :=
  repeat match goal with
         | H : String.leb ?x ?y = false |- _ =>
             lazymatch goal with
             | _ : String.leb y x = true |- _ => fail
             | _ => assert (String.leb y x = true)
                      by (destruct (String.leb_total x y); congruence)
             end
         end;
  repeat match goal with
         | H1 : String.leb ?x ?y = true, H2 : String.leb ?y ?z = true |- _ =>
             lazymatch goal with
             | _ : String.leb x z = true |- _ => fail
             | _ => pose proof (string_leb_trans _ _ _ H1 H2)
             end
         end.

Ltac leb_contra :=
  leb_saturate;
  match goal with
  | H1 : String.leb ?x ?y = true, H2 : String.leb ?y ?x = true, Hne : ?x ≠ ?y |- _ =>
      destruct Hne; by apply String.leb_antisym
  | H1 : String.leb ?x ?y = true, H2 : String.leb ?y ?x = true, Hne : ?y ≠ ?x |- _ =>
      destruct Hne; by apply String.leb_antisym
  | H1 : String.leb ?x ?y = true, H2 : String.leb ?x ?y = false |- _ => congruence
  end.

Ltac leb_cases :=
  repeat (cbn [insert_sorted foldr];
          match goal with
          | |- context [String.leb ?x ?y] => destruct (String.leb x y) eqn:?
          end);
  cbn [insert_sorted foldr].

(** Sorting three distinct names does not depend on their order. *)
Lemma sorted3_order A B C :
  A ≠ B → A ≠ C → B ≠ C →
  sorted [B; A; C] = sorted [A; B; C]
  ∧ sorted [A; C; B] = sorted [A; B; C]
  ∧ sorted [C; B; A] = sorted [A; B; C]
  ∧ sorted [B; C; A] = sorted [A; B; C]
  ∧ sorted [C; A; B] = sorted [A; B; C].
Proof.
  intros HAB HAC HBC. unfold sorted.
  split_and!; leb_cases; first [done|exfalso; leb_contra].
Qed.

(** The rows of a majority block whose operands, in sorted order, carry the
    complement flags [ms]. *)
Definition maj_rows (ms : list bool) : list string :=
  sorted_set
    (a ← [false; true]; b ← [false; true]; c ← [false; true];
     let adjusted := Nat.b2n (xorb a (ms !!! 0%nat)) + Nat.b2n (xorb b (ms !!! 1%nat))
                     + Nat.b2n (xorb c (ms !!! 2%nat)) in
     if (2 <=? adjusted)%nat then [bit_char a +:+ bit_char b +:+ bit_char c] else []).

(** The complement flag that goes with an operand name. *)
Definition flag_of (A B : string) (na nb nc : bool) (x : string) : bool :=
  if bool_decide (x = A) then na else if bool_decide (x = B) then nb else nc.

(** With three distinct operand names, each sorted operand keeps its own
    complement flag. *)
Lemma emit_maj3_by_name A B C OUT na nb nc :
  A ≠ B → A ≠ C → B ≠ C →
  emit_maj3 A B C OUT (Some (na, nb, nc))
  = Block (sorted [A; B; C]) OUT (maj_rows (flag_of A B na nb nc <$> sorted [A; B; C])).
Proof.
  intros HAB HAC HBC. unfold emit_maj3, _sorted3. cbn [default]. f_equal.
  unfold maj_rows. rewrite <- list_fmap_compose.
  assert ((λ perm_idx, [na; nb; nc] !!! perm_idx) ∘ (λ x, index x [A; B; C]) <$> sorted [A; B; C]
          = flag_of A B na nb nc <$> sorted [A; B; C]) as ->; [|done].
  apply Forall_fmap_ext_1.
  destruct (sorted3_sorted A B C) as [_ Hp]. rewrite Hp.
  apply Forall_forall. intros x Hx. rewrite !elem_of_cons, elem_of_nil in Hx.
  destruct Hx as [->|[->|[->|[]]]]; cbn; unfold flag_of;
    repeat case_bool_decide; first [congruence|reflexivity].
Qed.

(** With three distinct operand names, a majority block does not depend on
    the order in which operands and their complement flags are supplied. *)
Lemma emit_maj3_order A B C OUT na nb nc :
  A ≠ B → A ≠ C → B ≠ C →
  emit_maj3 B A C OUT (Some (nb, na, nc)) = emit_maj3 A B C OUT (Some (na, nb, nc))
  ∧ emit_maj3 A C B OUT (Some (na, nc, nb)) = emit_maj3 A B C OUT (Some (na, nb, nc))
  ∧ emit_maj3 C B A OUT (Some (nc, nb, na)) = emit_maj3 A B C OUT (Some (na, nb, nc))
  ∧ emit_maj3 B C A OUT (Some (nb, nc, na)) = emit_maj3 A B C OUT (Some (na, nb, nc))
  ∧ emit_maj3 C A B OUT (Some (nc, na, nb)) = emit_maj3 A B C OUT (Some (na, nb, nc)).
Proof.
  intros HAB HAC HBC.
  destruct (sorted3_order A B C HAB HAC HBC) as (E1 & E2 & E3 & E4 & E5).
  destruct (sorted3_sorted A B C) as [_ Hp].
  assert (∀ A' B' na' nb' nc',
            (∀ x, x ∈ [A; B; C] → flag_of A' B' na' nb' nc' x = flag_of A B na nb nc x) →
            flag_of A' B' na' nb' nc' <$> sorted [A; B; C]
            = flag_of A B na nb nc <$> sorted [A; B; C]) as Hflag.
  { intros A' B' na' nb' nc' H. apply Forall_fmap_ext_1. rewrite Hp.
    apply Forall_forall. exact H. }
  rewrite !emit_maj3_by_name by congruence. rewrite E1, E2, E3, E4, E5.
  split_and!; f_equal; f_equal; apply Hflag; intros x Hx;
    rewrite !elem_of_cons, elem_of_nil in Hx; unfold flag_of;
    repeat case_bool_decide; try congruence; intuition congruence.
Qed.

End Canonical.

(** * Further properties of the optimizer *)

Ltac solve_concrete_wf :=
  simpl; split_and!; try done;
  repeat first [ apply NoDup_nil_2 | apply NoDup_cons_2 | apply Forall_nil_2
               | apply Forall_cons_2 ];
  intros; simpl in *; rewrite ?elem_of_cons, ?elem_of_nil in *;
  intuition (subst; done).

Section OptimizerMore.
Implicit Types (cm : gmap signal signal) (ops P L : list fa_op) (o : fa_op).

Lemma thin_length Q L' L : thin Q L' L → length L' ≤ length L.
Proof. induction 1; simpl; lia. Qed.

Lemma thin_origin Q L' L :
  thin Q L' L → Forall (λ o', ∃ o, o ∈ L ∧ outs o' = outs o) L'.
Proof.
  induction 1 as [|o L' L Ho Ht IH|o' o L' L [Ho _] Ht IH]; [constructor|..].
  - eapply Forall_impl; [exact IH|]. intros o' (o2 & H2 & E). exists o2. split; [by right|done].
  - constructor; [exists o; split; [left|done]|].
    eapply Forall_impl; [exact IH|]. intros o2' (o2 & H2 & E). exists o2. split; [by right|done].
Qed.

Lemma prune_r_sublist L N : (prune_r L N).2 `sublist_of` L.
Proof.
  induction L as [|o L IH]; [constructor|]. cbn [prune_r].
  destruct (prune_r L N) as [nd kept]. cbn [snd] in *.
  destruct (decide (wanted nd o)); cbn [snd]; by constructor.
Qed.

Lemma prune_sound ops maj ρ0 :
  fan_wf ops →
  sig_val (run_fan ρ0 (_prune_fa_netlist ops maj)) maj = sig_val (run_fan ρ0 ops) maj.
Proof.
  intros Hwf. rewrite prune_eq. apply prune_r_sound; [done| | |set_solver].
  - by apply run_fan_models.
  - intros x _ Hx. symmetry. by apply run_fan_frame.
Qed.

(** With outputs that are not literals the first loop returns: every chain
    that [resolve] follows has one link. *)
Lemma fold_constants_total ops : ∀ cm P,
  Forall (λ o, ∀ x, x ∈ outs o → _is_const x = false) ops → cm_ok cm →
  ∃ cm' P', fold_constants ops cm P = Some (cm', P') ∧ cm_ok cm'.
Proof.
  induction ops as [|h rest IH]; intros cm P Hops Hok; [by exists cm, P|].
  inversion_clear Hops as [|? ? Hh Hrest]. destruct h as [[[[a b] c] s] k].
  cbn [fold_constants]. rewrite !resolve_ok by done. cbn [mbind option_bind].
  destruct (_ && _ && _); [|by apply IH].
  set (vs := const_of_bool (Nat.land _ 1 =? 1)). set (vk := const_of_bool (2 <=? _)).
  assert (_is_const vs = true ∧ _is_const vk = true) as [Hvs Hvk]
    by (split; apply const_of_bool_const).
  clearbody vs vk.
  apply IH; [done|]. intros k0 v0. rewrite !lookup_insert. repeat case_decide; subst.
  - intros [= <-]. split; [done|]. apply Hh. simpl. apply elem_of_2. tauto.
  - intros [= <-]. split; [done|]. apply Hh. simpl. apply elem_of_2. tauto.
  - apply Hok.
Qed.

Lemma optimizer_total ops maj :
  Forall (λ o, ∀ x, x ∈ outs o → _is_const x = false) ops →
  is_Some (_constant_fold_and_prune ops maj).
Proof.
  intros Hops. destruct (fold_constants_total ops ∅ [] Hops) as (cm & P & E & Hok).
  { intros k v Hv. by rewrite lookup_empty in Hv. }
  unfold _constant_fold_and_prune. rewrite E. cbn [mbind option_bind].
  rewrite resolve_ok by done. cbn [mbind option_bind].
  assert (is_Some (mapM (resolve_op cm) P)) as [folded ->]; [|by eexists].
  apply mapM_is_Some, Forall_forall. intros [[[[a b] c] s] k] _. cbn.
  unfold resolve_op. rewrite !resolve_ok by done. by eexists.
Qed.

Lemma optimizer_shape_more ops maj :
  fan_wf ops →
  ∃ ops' maj',
    _constant_fold_and_prune ops maj = Some (ops', maj')
    ∧ length ops' ≤ length ops
    ∧ Forall (λ o, all_const o = false) ops'
    ∧ Forall (λ o', ∃ o, o ∈ ops ∧ outs o' = outs o) ops'
    ∧ (maj' = maj ∨ _is_const maj' = true).
Proof.
  intros Hwf.
  destruct (fold_constants_wf ops ops ∅ [] [] eq_refl Hwf)
    as (cm & P & Efold & Hok & Hset & Hnc & Hthin); try done.
  { intros x [v Hv]. by rewrite lookup_empty in Hv. }
  { constructor. }
  destruct (optimizer_shape ops maj Hwf) as (cm2 & P2 & Efold2 & _ & _ & _ & E).
  rewrite Efold in Efold2. injection Efold2 as <- <-.
  set (maj' := default maj (cm !! maj)) in *.
  exists (_prune_fa_netlist P maj'), maj'. rewrite prune_eq.
  pose proof (prune_r_thin P {[maj']}) as Hthin'.
  split_and!.
  - by rewrite <- prune_eq.
  - apply thin_length in Hthin, Hthin'. lia.
  - by apply prune_r_Forall.
  - apply thin_origin in Hthin, Hthin'. rewrite Forall_forall in Hthin.
    eapply Forall_impl; [exact Hthin'|]. intros o' (o1 & H1 & E1).
    destruct (Hthin o1 H1) as (o & Ho & E2). exists o. split; [done|congruence].
  - unfold maj'. destruct (cm !! maj) as [v|] eqn:Ev; cbn [default]; [right|by left].
    by destruct (Hok _ _ Ev).
Qed.

End OptimizerMore.

(** X1: on every FAN the optimizer returns a FAN, and from every initial
    valuation the decision signal it returns has, on the network it returns,
    the value that the given decision signal has on the given network. *)
Theorem optimizer_preserves_decision (fa_ops : list fa_op) (maj_signal : signal) :
  fan_wf fa_ops →
  ∃ ops' maj',
    _constant_fold_and_prune fa_ops maj_signal = Some (ops', maj')
    ∧ fan_wf ops'
    ∧ ∀ ρ0, sig_val (run_fan ρ0 ops') maj' = sig_val (run_fan ρ0 fa_ops) maj_signal.
Proof. apply optimizer_sound. Qed.

Lemma optimizer_preserves_decision_witness :
  ∃ ops' maj',
    _constant_fold_and_prune
      [(SConst1, SConst0, SX 0, SWire TagRaw OutSum 0 0, SWire TagRaw OutCarry 0 0);
       (SConst1, SConst1, SConst0, SWire TagPlain OutSum 0 1, SWire TagPlain OutCarry 0 1);
       (SWire TagRaw OutCarry 0 0, SWire TagPlain OutCarry 0 1, SX 1,
        SWire TagPlain OutSum 1 2, SWire TagPlain OutCarry 1 2)]
      (SWire TagPlain OutCarry 1 2) = Some (ops', maj')
    ∧ fan_wf ops'
    ∧ ∀ ρ0, sig_val (run_fan ρ0 ops') maj'
            = sig_val (run_fan ρ0
                [(SConst1, SConst0, SX 0, SWire TagRaw OutSum 0 0, SWire TagRaw OutCarry 0 0);
                 (SConst1, SConst1, SConst0, SWire TagPlain OutSum 0 1, SWire TagPlain OutCarry 0 1);
                 (SWire TagRaw OutCarry 0 0, SWire TagPlain OutCarry 0 1, SX 1,
                  SWire TagPlain OutSum 1 2, SWire TagPlain OutCarry 1 2)])
                (SWire TagPlain OutCarry 1 2).
Proof. apply optimizer_preserves_decision. solve_concrete_wf. Defined.

(** X2: what the optimizer returns on a FAN has no more operations than it
    was given, none of them with three literal operands, each driving the
    two wires of an operation it was given; the decision signal it returns
    is the given one or a literal. *)
Theorem optimizer_output_is_reduced (fa_ops : list fa_op) (maj_signal : signal) :
  fan_wf fa_ops →
  ∃ ops' maj',
    _constant_fold_and_prune fa_ops maj_signal = Some (ops', maj')
    ∧ length ops' ≤ length fa_ops
    ∧ Forall (λ o, all_const o = false) ops'
    ∧ Forall (λ o', ∃ o, o ∈ fa_ops ∧ outs o' = outs o) ops'
    ∧ (maj' = maj_signal ∨ _is_const maj' = true).
Proof. apply optimizer_shape_more. Qed.

Lemma optimizer_output_is_reduced_witness :
  ∃ ops' maj',
    _constant_fold_and_prune
      [(SConst1, SConst1, SConst0, SWire TagRaw OutSum 0 0, SWire TagRaw OutCarry 0 0);
       (SX 0, SX 1, SWire TagRaw OutSum 0 0, SWire TagPlain OutSum 0 1, SWire TagPlain OutCarry 0 1)]
      (SWire TagRaw OutCarry 0 0) = Some (ops', maj')
    ∧ length ops' ≤ 2
    ∧ Forall (λ o, all_const o = false) ops'
    ∧ Forall (λ o', ∃ o,
        o ∈ [(SConst1, SConst1, SConst0, SWire TagRaw OutSum 0 0, SWire TagRaw OutCarry 0 0);
             (SX 0, SX 1, SWire TagRaw OutSum 0 0, SWire TagPlain OutSum 0 1,
              SWire TagPlain OutCarry 0 1)]
        ∧ outs o' = outs o) ops'
    ∧ (maj' = SWire TagRaw OutCarry 0 0 ∨ _is_const maj' = true).
Proof. apply optimizer_output_is_reduced. solve_concrete_wf. Defined.

(** X3: the optimizer returns on every operation list none of whose outputs
    is a literal, whatever the order of the operations. *)
Theorem optimizer_returns_on_wire_outputs (fa_ops : list fa_op) (maj_signal : signal) :
  Forall (λ o, ∀ x, x ∈ outs o → _is_const x = false) fa_ops →
  is_Some (_constant_fold_and_prune fa_ops maj_signal).
Proof. apply optimizer_total. Qed.

Lemma optimizer_returns_on_wire_outputs_witness :
  is_Some (_constant_fold_and_prune
             [(SWire TagPlain OutSum 0 1, SConst1, SConst1,
               SWire TagPlain OutSum 0 0, SWire TagPlain OutCarry 0 0);
              (SConst1, SConst1, SConst1,
               SWire TagPlain OutSum 0 1, SWire TagPlain OutCarry 0 1)]
             (SWire TagPlain OutSum 0 0)).
Proof.
  apply optimizer_returns_on_wire_outputs.
  repeat first [apply Forall_nil_2 | apply Forall_cons_2];
    intros x Hx; simpl in Hx; rewrite !elem_of_cons, elem_of_nil in Hx;
    intuition (subst; done).
Defined.

(** X4: dead-code elimination is idempotent on every operation list, and
    what it keeps is a sublist of the list, in the same order. *)
Theorem prune_is_idempotent_sublist (fa_ops : list fa_op) (maj_signal : signal) :
  _prune_fa_netlist (_prune_fa_netlist fa_ops maj_signal) maj_signal
  = _prune_fa_netlist fa_ops maj_signal
  ∧ _prune_fa_netlist fa_ops maj_signal `sublist_of` fa_ops.
Proof. split; [apply prune_idem|]. rewrite prune_eq. apply prune_r_sublist. Qed.

(** X5: on a FAN, dead-code elimination keeps the value of the decision
    signal, from every initial valuation. *)
Theorem prune_preserves_decision (fa_ops : list fa_op) (maj_signal : signal) (ρ0 : env) :
  fan_wf fa_ops →
  sig_val (run_fan ρ0 (_prune_fa_netlist fa_ops maj_signal)) maj_signal
  = sig_val (run_fan ρ0 fa_ops) maj_signal.
Proof. apply prune_sound. Qed.

Lemma prune_preserves_decision_witness :
  sig_val (run_fan (input_env (λ i, i =? 1) [])
             (_prune_fa_netlist
                [(SX 0, SX 1, SX 2, SWire TagRaw OutSum 0 0, SWire TagRaw OutCarry 0 0);
                 (SX 3, SX 4, SX 5, SWire TagRaw OutSum 0 1, SWire TagRaw OutCarry 0 1)]
                (SWire TagRaw OutSum 0 0)))
          (SWire TagRaw OutSum 0 0)
  = sig_val (run_fan (input_env (λ i, i =? 1) [])
               [(SX 0, SX 1, SX 2, SWire TagRaw OutSum 0 0, SWire TagRaw OutCarry 0 0);
                (SX 3, SX 4, SX 5, SWire TagRaw OutSum 0 1, SWire TagRaw OutCarry 0 1)])
            (SWire TagRaw OutSum 0 0).
Proof. apply prune_preserves_decision. solve_concrete_wf. Defined.

(** * Further properties of the scaffold substitution and search *)

(** [_prepare_for_emit]: the optimizer, then the named constants still in use. *)
Definition _prepare_for_emit (fa_ops : list fa_op) (maj_signal : signal)
    (const_candidates : list signal) : option (list fa_op * signal * list signal) :=
  '(fa_ops_prepped, maj_signal_prepped) ← _constant_fold_and_prune fa_ops maj_signal;
  let const_used := _collect_const_names fa_ops_prepped maj_signal_prepped const_candidates in
  Some (fa_ops_prepped, maj_signal_prepped, const_used).

(** Ascending order of the names as texts. *)
Definition name_le (x y : signal) : Prop := String.leb (render x) (render y) = true.

Section SearchMore.

Lemma remap_identity N s : _remap_signal s (SX <$> seq 0 N) = s.
Proof.
  destruct s; try done. cbn. rewrite list_lookup_fmap.
  destruct (decide (i < N)) as [Hi|Hi].
  - by rewrite lookup_seq_lt.
  - by rewrite lookup_seq_ge by lia.
Qed.

Lemma apply_identity_mapping N ops maj :
  _apply_mapping_to_netlist ops maj (SX <$> seq 0 N) = (ops, maj).
Proof.
  unfold _apply_mapping_to_netlist. rewrite remap_identity. f_equal.
  induction ops as [|[[[[a b] c] s] k] ops IH]; [done|]. cbn [fmap list_fmap].
  rewrite !remap_identity. f_equal. exact IH.
Qed.

Lemma insert_by_name_perm x l : insert_by_name x l ≡ₚ x :: l.
Proof.
  induction l as [|y l IH]; [done|]. cbn [insert_by_name].
  destruct (String.leb (render x) (render y)); [done|]. rewrite IH. apply Permutation_swap.
Qed.

Lemma sorted_by_name_perm l : sorted_by_name l ≡ₚ l.
Proof.
  induction l as [|x l IH]; [done|]. unfold sorted_by_name in *. cbn [foldr].
  by rewrite insert_by_name_perm, IH.
Qed.

Lemma insert_by_name_sorted x l : Sorted name_le l → Sorted name_le (insert_by_name x l).
Proof.
  induction 1 as [|y l Hl IH Hy]; cbn [insert_by_name]; [by repeat constructor|].
  destruct (String.leb (render x) (render y)) eqn:E.
  - constructor; [by constructor|]. by constructor.
  - constructor; [done|].
    assert (name_le y x) as Hyx.
    { unfold name_le. destruct (String.leb_total (render x) (render y)); congruence. }
    destruct l as [|z l]; cbn [insert_by_name]; [by constructor|].
    destruct (String.leb (render x) (render z)); constructor; [done|].
    by inversion Hy.
Qed.

Lemma sorted_by_name_sorted l : Sorted name_le (sorted_by_name l).
Proof.
  induction l as [|x l IH]; [constructor|]. unfold sorted_by_name in *. cbn [foldr].
  by apply insert_by_name_sorted.
Qed.

Lemma collect_const_names_facts ops maj cands :
  (∀ x, x ∈ _collect_const_names ops maj cands ↔ x ∈ cands ∧ x ∈ mentioned ops maj)
  ∧ NoDup (_collect_const_names ops maj cands)
  ∧ Sorted name_le (_collect_const_names ops maj cands)
  ∧ ∀ xs, decision xs (_collect_const_names ops maj cands) ops maj = decision xs cands ops maj.
Proof.
  split_and!.
  - intros x. apply collect_const_names_elem.
  - unfold _collect_const_names. rewrite sorted_by_name_perm. apply NoDup_remove_dups.
  - apply sorted_by_name_sorted.
  - intros xs. apply decision_const_used.
Qed.

Lemma prepare_for_emit_sound ops maj c1 :
  fan_wf ops →
  ∃ ops' maj' used,
    _prepare_for_emit ops maj c1 = Some (ops', maj', used)
    ∧ fan_wf ops'
    ∧ (∀ x, x ∈ used → x ∈ c1)
    ∧ ∀ xs, decision xs used ops' maj' = decision xs c1 ops maj.
Proof.
  intros Hwf. destruct (optimizer_sound ops maj Hwf) as (ops' & maj' & E & Hwf' & Hval).
  exists ops', maj', (_collect_const_names ops' maj' c1).
  unfold _prepare_for_emit. rewrite E. cbn [mbind option_bind]. split_and!; [done..| |].
  - intros x Hx. by apply collect_const_names_elem in Hx as [? _].
  - intros xs. rewrite decision_const_used. apply Hval.
Qed.

End SearchMore.

(** X6: substituting a mapping made of real inputs and literals into a FAN
    whose outputs are wires gives a FAN, and on every assignment of the real
    inputs it decides what the given network decides on the assignment that
    the mapping induces on its inputs. *)
Theorem substitution_preserves_meaning (fa_ops : list fa_op) (maj_signal : signal)
    (mapping : list signal) :
  Forall is_tok mapping → Forall drives_wires fa_ops → fan_wf fa_ops →
  let '(mapped_ops, mapped_maj) := _apply_mapping_to_netlist fa_ops maj_signal mapping in
  fan_wf mapped_ops
  ∧ ∀ xs const1, decision xs const1 mapped_ops mapped_maj
                 = decision (big_assign xs mapping) const1 fa_ops maj_signal.
Proof.
  intros Hmap Hdr Hwf. rewrite apply_mapping_eq. split; [by apply mapped_wf|].
  intros xs c1. by apply mapped_decision.
Qed.

Lemma substitution_preserves_meaning_witness :
  let '(mapped_ops, mapped_maj) :=
    _apply_mapping_to_netlist
      [(SX 0, SX 1, SX 2, SWire TagRaw OutSum 0 0, SWire TagRaw OutCarry 0 0)]
      (SWire TagRaw OutCarry 0 0) [SConst1; SX 0; SConst0] in
  fan_wf mapped_ops
  ∧ ∀ xs const1, decision xs const1 mapped_ops mapped_maj
                 = decision (big_assign xs [SConst1; SX 0; SConst0]) const1
                     [(SX 0, SX 1, SX 2, SWire TagRaw OutSum 0 0, SWire TagRaw OutCarry 0 0)]
                     (SWire TagRaw OutCarry 0 0).
Proof.
  apply (substitution_preserves_meaning
           [(SX 0, SX 1, SX 2, SWire TagRaw OutSum 0 0, SWire TagRaw OutCarry 0 0)]
           (SWire TagRaw OutCarry 0 0) [SConst1; SX 0; SConst0]).
  - repeat first [apply Forall_nil_2 | apply Forall_cons_2]; first [by left|right; eauto].
  - repeat first [apply Forall_nil_2 | apply Forall_cons_2];
      intros x Hx; simpl in Hx; rewrite !elem_of_cons, elem_of_nil in Hx;
      intuition (subst; done).
  - solve_concrete_wf.
Defined.

(** X7: remapping with the identity mapping [x[0], ..., x[N-1]] of any
    length, the empty one included, returns the network unchanged. *)
Theorem identity_mapping_changes_nothing (N : nat) (fa_ops : list fa_op)
    (maj_signal : signal) :
  _apply_mapping_to_netlist fa_ops maj_signal (_tokens_to_mapping ((λ i, (KindX, i)) <$> seq 0 N))
  = (fa_ops, maj_signal).
Proof.
  unfold _tokens_to_mapping. rewrite <- list_fmap_compose.
  apply (apply_identity_mapping N).
Qed.

(** X8: the named constants that [_collect_const_names] returns are the
    candidates the network mentions, each once, in ascending order of
    their names, and tying only them to 1 decides as tying all candidates. *)
Theorem collected_constants_suffice (fa_ops : list fa_op) (maj_signal : signal)
    (candidates : list signal) :
  (∀ x, x ∈ _collect_const_names fa_ops maj_signal candidates
        ↔ x ∈ candidates ∧ x ∈ mentioned fa_ops maj_signal)
  ∧ NoDup (_collect_const_names fa_ops maj_signal candidates)
  ∧ Sorted name_le (_collect_const_names fa_ops maj_signal candidates)
  ∧ ∀ xs, decision xs (_collect_const_names fa_ops maj_signal candidates) fa_ops maj_signal
          = decision xs candidates fa_ops maj_signal.
Proof. apply collect_const_names_facts. Qed.

(** X9: on a FAN, [_prepare_for_emit] returns a FAN and a sublist of the
    named constants under which its decision signal evaluates, on every
    assignment, as the given decision signal under all of them. *)
Theorem prepare_for_emit_preserves_decision (fa_ops : list fa_op) (maj_signal : signal)
    (const_candidates : list signal) :
  fan_wf fa_ops →
  ∃ ops' maj' used,
    _prepare_for_emit fa_ops maj_signal const_candidates = Some (ops', maj', used)
    ∧ fan_wf ops'
    ∧ (∀ x, x ∈ used → x ∈ const_candidates)
    ∧ ∀ xs, decision xs used ops' maj' = decision xs const_candidates fa_ops maj_signal.
Proof. apply prepare_for_emit_sound. Qed.

Lemma prepare_for_emit_preserves_decision_witness :
  ∃ ops' maj' used,
    _prepare_for_emit
      [(SX 0, SK 0, SConst0, SWire TagPair OutSum 0 0, SWire TagPair OutCarry 0 0)]
      (SWire TagPair OutCarry 0 0) [SK 0; SK 1]
    = Some (ops', maj', used)
    ∧ fan_wf ops'
    ∧ (∀ x, x ∈ used → x ∈ [SK 0; SK 1])
    ∧ ∀ xs, decision xs used ops' maj'
            = decision xs [SK 0; SK 1]
                [(SX 0, SK 0, SConst0, SWire TagPair OutSum 0 0, SWire TagPair OutCarry 0 0)]
                (SWire TagPair OutCarry 0 0).
Proof. apply prepare_for_emit_preserves_decision. solve_concrete_wf. Defined.



Section SearchGeneral.
Variable shuffle : nat → list layout_token → list layout_token.
Hypothesis shuffle_perm : ∀ seed l, shuffle seed l ≡ₚ l.
Variables (n nf N_big th : nat).
Hypothesis HN : N_big = n + 2 * nf.
Hypothesis Hnf : 0 < nf.

Lemma scaffold_layouts_labels :
  ∃ lays,
    _scaffold_layout_sequences shuffle n nf N_big = Some lays
    ∧ lays.*1 = ["clustered"; "interleaved"; "alternating"; "alt_off1"]
                ++ ((λ seed, "rand" +:+ pretty seed) <$> seq 0 12)
    ∧ Forall (λ lay, length lay.2 = N_big ∧ ∀ xs, weight xs lay.2 = popcount xs n + nf) lays.
Proof.
  destruct (scaffold_layouts_done shuffle shuffle_perm n nf N_big HN Hnf)
    as (lays & E & _ & Hdone).
  exists lays. split; [done|]. split; [|done].
  unfold _scaffold_layout_sequences in E.
  assert ((nf =? 0) = false) as Hz by (apply Nat.eqb_neq; lia). rewrite Hz in E.
  destruct (layout_interleaved n nf) as [l2|]; [|done].
  destruct (layout_alternating n nf N_big) as [l3|]; [|done].
  destruct (layout_alt_offset1 n nf N_big) as [l4|]; [|done].
  cbn [mbind option_bind] in E. injection E as <-. reflexivity.
Qed.

Variables (ops : list fa_op) (c1 : list signal) (maj : signal).
Hypothesis Hok : fan_ok ops.
Hypothesis Hdec : ∀ xs, decision xs c1 ops maj = (th <=? popcount xs N_big).

Lemma search_general :
  ∃ best i lays lay,
    _scaffold_layout_sequences shuffle n nf N_big = Some lays
    ∧ _select_scaffold_layout shuffle n nf N_big ops maj c1 = Some (Some best)
    ∧ lays !! i = Some lay
    ∧ candidate ops maj c1 i lay = Some best
    ∧ sel_score best = (length (sel_fa_ops best), i)
    ∧ sel_label best = lay.1
    ∧ sel_mapping best = _tokens_to_mapping lay.2
    ∧ (∀ xs, decision xs (sel_const1_names best) (sel_fa_ops best) (sel_maj_signal best)
             = (th <=? popcount xs n + nf))
    ∧ ∀ j lay' c, lays !! j = Some lay' → candidate ops maj c1 j lay' = Some c →
                  length (sel_fa_ops best) ≤ length (sel_fa_ops c)
                  ∧ (length (sel_fa_ops c) = length (sel_fa_ops best) → i ≤ j).
Proof.
  destruct (scaffold_layouts_done shuffle shuffle_perm n nf N_big HN Hnf)
    as (lays & Elays & Hlen & Hdone).
  assert (∀ idx lay, lays !! idx = Some lay →
            ∃ c, candidate ops maj c1 idx lay = Some c
                 ∧ sel_score c = (length (sel_fa_ops c), idx)
                 ∧ ∀ xs, decision xs (sel_const1_names c) (sel_fa_ops c) (sel_maj_signal c)
                         = (th <=? popcount xs n + nf)) as Hcand.
  { intros idx [name sq] Hlay. rewrite Forall_lookup in Hdone.
    apply (candidate_correct n nf N_big th ops c1 maj Hok Hdec idx name sq (Hdone _ _ Hlay)). }
  set (C := λ j, lays !! j ≫= candidate ops maj c1 j).
  destruct (select_from_spec ops c1 maj C 0) with (lays := lays) (idx := 0) (best := @None selection)
    as (r & Esel & Hr).
  { intros j c Hj. unfold C in Hj. apply bind_Some in Hj as (lay & Hlay & Ec).
    destruct (Hcand j lay Hlay) as (c' & Ec' & Hsc & _). congruence. }
  { lia. }
  { intros i lay Hlay. destruct (Hcand i lay Hlay) as (c & Ec & _).
    exists c. split; [done|]. unfold C. cbn [plus]. by rewrite Hlay. }
  { done. }
  destruct r as [b|]; cbn [best_inv] in Hr; [|lia].
  destruct Hr as (i & Hi & Ei & Hmin).
  unfold C in Ei. apply bind_Some in Ei as (lay & Hlay & Eb).
  destruct (Hcand i lay Hlay) as (c & Ec & Hsc & Hc).
  assert (c = b) as -> by congruence.
  exists b, i, lays, lay. split_and!; try done.
  - unfold _select_scaffold_layout. rewrite Elays. cbn [mbind option_bind]. exact Esel.
  - unfold candidate in Eb. destruct (_apply_mapping_to_netlist _ _ _) as [mo mm].
    destruct (_constant_fold_and_prune mo mm) as [[mo' mm']|]; [|done].
    cbn [mbind option_bind] in Eb. by injection Eb as <-.
  - unfold candidate in Eb. destruct (_apply_mapping_to_netlist _ _ _) as [mo mm].
    destruct (_constant_fold_and_prune mo mm) as [[mo' mm']|]; [|done].
    cbn [mbind option_bind] in Eb. by injection Eb as <-.
  - intros j lay' c Hlay' Ec'. apply (Hmin j c).
    + apply lookup_lt_Some in Hlay'. lia.
    + unfold C. rewrite Hlay'. done.
Qed.

End SearchGeneral.

(** X11: for every number of fixed pairs [num_fix > 0], with
    [N_big = n + 2 * num_fix] and a shuffle that permutes, the sixteen
    layouts are returned under their labels "clustered", "interleaved",
    "alternating", "alt_off1", "rand0" .. "rand11"; each has [N_big]
    entries, of which, on every assignment, as many carry 1 as the [n] real
    inputs do plus [num_fix]. *)
Theorem layouts_place_inputs_and_pairs
    (shuffle : nat → list layout_token → list layout_token) (n num_fix N_big : nat) :
  (∀ seed l, shuffle seed l ≡ₚ l) → N_big = n + 2 * num_fix → 0 < num_fix →
  ∃ lays,
    _scaffold_layout_sequences shuffle n num_fix N_big = Some lays
    ∧ lays.*1 = ["clustered"; "interleaved"; "alternating"; "alt_off1"]
                ++ ((λ seed, "rand" +:+ pretty seed) <$> seq 0 12)
    ∧ Forall (λ lay, length lay.2 = N_big
                     ∧ ∀ xs, weight xs lay.2 = popcount xs n + num_fix) lays.
Proof. intros Hp HN Hnf. by apply scaffold_layouts_labels. Qed.

Lemma layouts_place_inputs_and_pairs_witness :
  ∃ lays,
    _scaffold_layout_sequences (λ _ l, reverse l) 3 2 7 = Some lays
    ∧ lays.*1 = ["clustered"; "interleaved"; "alternating"; "alt_off1"]
                ++ ((λ seed, "rand" +:+ pretty seed) <$> seq 0 12)
    ∧ Forall (λ lay, length lay.2 = 7 ∧ ∀ xs, weight xs lay.2 = popcount xs 3 + 2) lays.
Proof.
  apply (layouts_place_inputs_and_pairs (λ _ l, reverse l) 3 2 7).
  - intros seed l. apply reverse_Permutation.
  - reflexivity.
  - lia.
Defined.

(** X12: for any FAN over the primary inputs that decides
    [popcount >= th] on [N_big = n + 2 * num_fix] inputs, any
    [num_fix > 0] and a shuffle that permutes, the search returns a
    candidate: the first of those with the fewest operations, carrying the
    label and the mapping of its layout, and deciding
    [popcount + num_fix >= th] on the [n] real inputs. *)
Theorem search_returns_first_smallest_candidate
    (shuffle : nat → list layout_token → list layout_token) (n num_fix N_big th : nat)
    (fa_ops : list fa_op) (const1_names : list signal) (maj_signal : signal) :
  (∀ seed l, shuffle seed l ≡ₚ l) → N_big = n + 2 * num_fix → 0 < num_fix →
  fan_ok fa_ops →
  (∀ xs, decision xs const1_names fa_ops maj_signal = (th <=? popcount xs N_big)) →
  ∃ best i lays lay,
    _scaffold_layout_sequences shuffle n num_fix N_big = Some lays
    ∧ _select_scaffold_layout shuffle n num_fix N_big fa_ops maj_signal const1_names
      = Some (Some best)
    ∧ lays !! i = Some lay
    ∧ candidate fa_ops maj_signal const1_names i lay = Some best
    ∧ sel_score best = (length (sel_fa_ops best), i)
    ∧ sel_label best = lay.1
    ∧ sel_mapping best = _tokens_to_mapping lay.2
    ∧ (∀ xs, decision xs (sel_const1_names best) (sel_fa_ops best) (sel_maj_signal best)
             = (th <=? popcount xs n + num_fix))
    ∧ ∀ j lay' c, lays !! j = Some lay' →
                  candidate fa_ops maj_signal const1_names j lay' = Some c →
                  length (sel_fa_ops best) ≤ length (sel_fa_ops c)
                  ∧ (length (sel_fa_ops c) = length (sel_fa_ops best) → i ≤ j).
Proof. intros Hp HN Hnf Hok Hdec. by apply search_general. Qed.

Lemma search_returns_first_smallest_candidate_witness :
  ∃ best i lays lay,
    _scaffold_layout_sequences (λ _ l, l) 1 1 3 = Some lays
    ∧ _select_scaffold_layout (λ _ l, l) 1 1 3
        [(SX 0, SX 1, SX 2, SWire TagRaw OutSum 0 0, SWire TagRaw OutCarry 0 0)]
        (SWire TagRaw OutCarry 0 0) []
      = Some (Some best)
    ∧ lays !! i = Some lay
    ∧ candidate [(SX 0, SX 1, SX 2, SWire TagRaw OutSum 0 0, SWire TagRaw OutCarry 0 0)]
        (SWire TagRaw OutCarry 0 0) [] i lay = Some best
    ∧ sel_score best = (length (sel_fa_ops best), i)
    ∧ sel_label best = lay.1
    ∧ sel_mapping best = _tokens_to_mapping lay.2
    ∧ (∀ xs, decision xs (sel_const1_names best) (sel_fa_ops best) (sel_maj_signal best)
             = (2 <=? popcount xs 1 + 1))
    ∧ ∀ j lay' c, lays !! j = Some lay' →
                  candidate [(SX 0, SX 1, SX 2, SWire TagRaw OutSum 0 0, SWire TagRaw OutCarry 0 0)]
                    (SWire TagRaw OutCarry 0 0) [] j lay' = Some c →
                  length (sel_fa_ops best) ≤ length (sel_fa_ops c)
                  ∧ (length (sel_fa_ops c) = length (sel_fa_ops best) → i ≤ j).
Proof.
  apply (search_returns_first_smallest_candidate (λ _ l, l) 1 1 3 2
           [(SX 0, SX 1, SX 2, SWire TagRaw OutSum 0 0, SWire TagRaw OutCarry 0 0)]
           [] (SWire TagRaw OutCarry 0 0)).
  - intros seed l. reflexivity.
  - reflexivity.
  - lia.
  - split; [solve_concrete_wf|].
    repeat first [apply Forall_nil_2 | apply Forall_cons_2];
      intros x Hx; simpl in Hx; rewrite !elem_of_cons, elem_of_nil in Hx;
      intuition (subst; done).
  - intros xs. unfold decision, popcount. cbn.
    destruct (xs 0), (xs 1), (xs 2); reflexivity.
Defined.

(** * Further properties of the BLIF lowering *)

Section LoweringMore.
Import Blif.

(** A parity block on three distinct names computes the parity of its
    operands. *)
Lemma emit_xor3_eval (A B C S : string) (σ : string → bool) :
  A ≠ B → A ≠ C → B ≠ C →
  block_eval σ (emit_xor3 A B C S) = xor3 (σ A) (σ B) (σ C)
  ∧ blk_rows (emit_xor3 A B C S) ≡ₚ ["001"; "010"; "100"; "111"].
Proof.
  intros HAB HAC HBC. unfold emit_xor3, _sorted3, sorted.
  cbn [foldr insert_sorted].
  destruct (String.leb B C); cbn [insert_sorted];
    destruct (String.leb A B); destruct (String.leb A C); cbn [insert_sorted fmap list_fmap index];
    repeat (case_bool_decide; try congruence);
    unfold block_eval; cbn [blk_inputs blk_rows fmap list_fmap];
    (split; [destruct (σ A), (σ B), (σ C); vm_compute; reflexivity
            |vm_compute; solve_Permutation]).
Qed.

(** The mixed expansion of an adder whose operand names differ from one
    another and from the names it drives. *)
Lemma mixed_lowering_distinct (i : nat) (a b c s k : string) (σ : string → bool) :
  let A := map_in a in
  let B := map_in b in
  let C := map_in c in
  let S := _sanitize s in
  let K := _sanitize k in
  A ≠ B → A ≠ C → B ≠ C → S ≠ A → S ≠ B → S ≠ C → S ≠ K →
  let σ' := run_blocks σ (expand_fa false i (a, b, c, s, k)) in
  σ' K = maj3 (σ A) (σ B) (σ C) ∧ σ' S = xor3 (σ A) (σ B) (σ C).
Proof.
  intros A B C S K HAB HAC HBC HSA HSB HSC HSK.
  cbn zeta. unfold expand_fa, run_blocks. fold A B C S K. cbn [foldl].
  destruct (emit_maj3_inputs A B C K None) as [_ Hout]. rewrite Hout.
  change (blk_output (emit_xor3 A B C S)) with S.
  rewrite emit_maj3_eval by done. cbn [default].
  destruct (emit_xor3_eval A B C S σ HAB HAC HBC) as [-> _].
  rewrite fn_lookup_insert.
  rewrite !(fn_lookup_insert_ne _ S A), !(fn_lookup_insert_ne _ S B),
    !(fn_lookup_insert_ne _ S C) by congruence.
  rewrite (fn_lookup_insert_ne _ K S) by congruence. rewrite fn_lookup_insert.
  destruct (σ A), (σ B), (σ C); done.
Qed.

Lemma blocks_canonical A B C OUT mask :
  names_sorted (blk_inputs (emit_maj3 A B C OUT mask))
  ∧ blk_inputs (emit_maj3 A B C OUT mask) ≡ₚ [A; B; C]
  ∧ ascending (blk_rows (emit_maj3 A B C OUT mask)) = true
  ∧ names_sorted (blk_inputs (emit_xor3 A B C OUT))
  ∧ blk_inputs (emit_xor3 A B C OUT) ≡ₚ [A; B; C].
Proof.
  destruct (emit_maj3_inputs A B C OUT mask) as [-> _].
  destruct (emit_xor3_inputs A B C OUT) as [-> _].
  destruct (sorted3_sorted A B C) as [Hs Hp].
  split_and!; try done. apply emit_maj3_rows_ascending.
Qed.

(** [replace_chars] leaves none of the four characters it handles. *)
Definition plain_char (c : ascii) : Prop :=
  c ≠ "["%char ∧ c ≠ "]"%char ∧ c ≠ " "%char ∧ c ≠ "."%char.

Fixpoint plain (s : string) : Prop :=
  match s with
  | EmptyString => True
  | String c rest => plain_char c ∧ plain rest
  end.

Lemma replace_chars_plain s : plain (replace_chars s).
Proof.
  induction s as [|c s IH]; [done|]. cbn [replace_chars].
  repeat case_bool_decide; cbn [orb]; try done; (split; [|done]); done.
Qed.

Lemma replace_chars_of_plain s : plain s → replace_chars s = s.
Proof.
  induction s as [|c s IH]; [done|]. intros [(H1 & H2 & H3 & H4) Hs]. cbn [replace_chars].
  rewrite !bool_decide_eq_false_2 by done. cbn [orb]. by rewrite IH.
Qed.

Lemma sanitize_facts s :
  plain (_sanitize s) ∧ _sanitize (_sanitize s) = _sanitize s
  ∧ (s = "1'b0" ∨ s = "1'b1" → _sanitize s = s).
Proof.
  unfold _sanitize at 1 3 4.
  destruct (bool_decide (s = "1'b0")) eqn:E0; [apply bool_decide_eq_true in E0; subst|];
    [by (vm_compute; intuition)|].
  destruct (bool_decide (s = "1'b1")) eqn:E1; [apply bool_decide_eq_true in E1; subst|];
    [by (vm_compute; intuition)|].
  cbn [orb]. apply bool_decide_eq_false in E0, E1.
  split_and!; [apply replace_chars_plain| |intros [?|?]; congruence].
  unfold _sanitize. destruct (_ || _); [done|].
  apply replace_chars_of_plain, replace_chars_plain.
Qed.

End LoweringMore.

(** X13: a majority block on three distinct operand names is 1 exactly when
    at least two of its operands, each complemented as its mask says, are 1. *)
Theorem majority_block_computes_masked_majority (A B C OUT : string)
    (mask : option (bool * bool * bool)) (σ : string → bool) :
  A ≠ B → A ≠ C → B ≠ C →
  Blif.block_eval σ (Blif.emit_maj3 A B C OUT mask)
  = let '(na, nb, nc) := default (false, false, false) mask in
    maj3 (xorb (σ A) na) (xorb (σ B) nb) (xorb (σ C) nc).
Proof. apply emit_maj3_eval. Qed.

Lemma majority_block_computes_masked_majority_witness :
  Blif.block_eval (λ x, bool_decide (x = "K0"))
    (Blif.emit_maj3 "x1" "K0" "CONST0" "out" (Some (true, false, false)))
  = maj3 (xorb (bool_decide ("x1" = "K0")) true) (xorb (bool_decide ("K0" = "K0")) false)
         (xorb (bool_decide ("CONST0" = "K0")) false).
Proof.
  apply (majority_block_computes_masked_majority "x1" "K0" "CONST0" "out"
           (Some (true, false, false)) (λ x, bool_decide (x = "K0"))); done.
Defined.

(** X14: for a full adder whose three operand names are distinct and differ
    from the names it drives and from its intermediate name, the three
    blocks of the majority-only lowering, read in order, leave the carry
    name with the majority and the sum name with the parity of the
    operands, on every valuation. *)
Theorem maj_only_lowering_is_a_full_adder (i : nat) (a b c s k : string)
    (σ : string → bool) :
  let A := Blif.map_in a in
  let B := Blif.map_in b in
  let C := Blif.map_in c in
  let S := Blif._sanitize s in
  let K := Blif._sanitize k in
  let op1 := "fa" +:+ pretty i +:+ "_op1" in
  A ≠ B → A ≠ C → B ≠ C →
  K ≠ A → K ≠ B → K ≠ C →
  op1 ≠ A → op1 ≠ B → op1 ≠ C → op1 ≠ K → S ≠ K →
  let σ' := run_blocks σ (Blif.expand_fa true i (a, b, c, s, k)) in
  σ' K = maj3 (σ A) (σ B) (σ C) ∧ σ' S = xor3 (σ A) (σ B) (σ C).
Proof. apply maj_only_lowering_distinct. Qed.

Lemma maj_only_lowering_is_a_full_adder_witness :
  let σ := λ x : string, bool_decide (x = "x0") in
  let σ' := run_blocks σ
              (Blif.expand_fa true 2 ("x[0]", "K0", "1'b0", "p_s_c0_2", "p_c_c0_2")) in
  σ' (Blif._sanitize "p_c_c0_2")
  = maj3 (σ (Blif.map_in "x[0]")) (σ (Blif.map_in "K0")) (σ (Blif.map_in "1'b0"))
  ∧ σ' (Blif._sanitize "p_s_c0_2")
    = xor3 (σ (Blif.map_in "x[0]")) (σ (Blif.map_in "K0")) (σ (Blif.map_in "1'b0")).
Proof.
  apply (maj_only_lowering_is_a_full_adder 2 "x[0]" "K0" "1'b0" "p_s_c0_2" "p_c_c0_2"
           (λ x, bool_decide (x = "x0"))); by vm_compute.
Defined.

(** X15: for a full adder whose three operand names are distinct and whose
    sum name differs from them and from the carry name, the two blocks of
    the mixed lowering leave the sum name with the parity and the carry
    name with the majority of the operands, and the parity block lists the
    four odd-parity rows. *)
Theorem mixed_lowering_is_a_full_adder (i : nat) (a b c s k : string)
    (σ : string → bool) :
  let A := Blif.map_in a in
  let B := Blif.map_in b in
  let C := Blif.map_in c in
  let S := Blif._sanitize s in
  let K := Blif._sanitize k in
  A ≠ B → A ≠ C → B ≠ C → S ≠ A → S ≠ B → S ≠ C → S ≠ K →
  let σ' := run_blocks σ (Blif.expand_fa false i (a, b, c, s, k)) in
  σ' K = maj3 (σ A) (σ B) (σ C) ∧ σ' S = xor3 (σ A) (σ B) (σ C)
  ∧ Blif.blk_rows (Blif.emit_xor3 A B C S) ≡ₚ ["001"; "010"; "100"; "111"].
Proof.
  intros A B C S K HAB HAC HBC HSA HSB HSC HSK. cbn zeta.
  destruct (mixed_lowering_distinct i a b c s k σ HAB HAC HBC HSA HSB HSC HSK) as [H1 H2].
  split_and!; [exact H1|exact H2|]. by apply (emit_xor3_eval A B C S σ).
Qed.

Lemma mixed_lowering_is_a_full_adder_witness :
  let σ := λ x : string, bool_decide (x = "x0") in
  let σ' := run_blocks σ
              (Blif.expand_fa false 2 ("x[0]", "K0", "1'b0", "p_s_c0_2", "p_c_c0_2")) in
  σ' (Blif._sanitize "p_c_c0_2")
  = maj3 (σ (Blif.map_in "x[0]")) (σ (Blif.map_in "K0")) (σ (Blif.map_in "1'b0"))
  ∧ σ' (Blif._sanitize "p_s_c0_2")
    = xor3 (σ (Blif.map_in "x[0]")) (σ (Blif.map_in "K0")) (σ (Blif.map_in "1'b0"))
  ∧ Blif.blk_rows (Blif.emit_xor3 (Blif.map_in "x[0]") (Blif.map_in "K0")
                     (Blif.map_in "1'b0") (Blif._sanitize "p_s_c0_2"))
    ≡ₚ ["001"; "010"; "100"; "111"].
Proof.
  apply (mixed_lowering_is_a_full_adder 2 "x[0]" "K0" "1'b0" "p_s_c0_2" "p_c_c0_2"
           (λ x, bool_decide (x = "x0"))); by vm_compute.
Defined.

(** X16: whatever the operands and the mask, a majority block and a parity
    block list their operand names in ascending order, a rearrangement of
    the names supplied, and the rows of a majority block are strictly
    ascending. *)
Theorem blocks_list_sorted_names (A B C OUT : string) (mask : option (bool * bool * bool)) :
  names_sorted (Blif.blk_inputs (Blif.emit_maj3 A B C OUT mask))
  ∧ Blif.blk_inputs (Blif.emit_maj3 A B C OUT mask) ≡ₚ [A; B; C]
  ∧ ascending (Blif.blk_rows (Blif.emit_maj3 A B C OUT mask)) = true
  ∧ names_sorted (Blif.blk_inputs (Blif.emit_xor3 A B C OUT))
  ∧ Blif.blk_inputs (Blif.emit_xor3 A B C OUT) ≡ₚ [A; B; C].
Proof. apply blocks_canonical. Qed.

(** X17: with three distinct operand names, a majority block is the same
    for every order in which the operands, each with its complement flag,
    are supplied. *)
Theorem majority_block_ignores_operand_order (A B C OUT : string) (na nb nc : bool) :
  A ≠ B → A ≠ C → B ≠ C →
  Blif.emit_maj3 B A C OUT (Some (nb, na, nc)) = Blif.emit_maj3 A B C OUT (Some (na, nb, nc))
  ∧ Blif.emit_maj3 A C B OUT (Some (na, nc, nb)) = Blif.emit_maj3 A B C OUT (Some (na, nb, nc))
  ∧ Blif.emit_maj3 C B A OUT (Some (nc, nb, na)) = Blif.emit_maj3 A B C OUT (Some (na, nb, nc))
  ∧ Blif.emit_maj3 B C A OUT (Some (nb, nc, na)) = Blif.emit_maj3 A B C OUT (Some (na, nb, nc))
  ∧ Blif.emit_maj3 C A B OUT (Some (nc, na, nb)) = Blif.emit_maj3 A B C OUT (Some (na, nb, nc)).
Proof. apply emit_maj3_order. Qed.

Lemma majority_block_ignores_operand_order_witness :
  Blif.emit_maj3 "K0" "x1" "CONST0" "o" (Some (false, true, false))
  = Blif.emit_maj3 "x1" "K0" "CONST0" "o" (Some (true, false, false))
  ∧ Blif.emit_maj3 "x1" "CONST0" "K0" "o" (Some (true, false, false))
    = Blif.emit_maj3 "x1" "K0" "CONST0" "o" (Some (true, false, false))
  ∧ Blif.emit_maj3 "CONST0" "K0" "x1" "o" (Some (false, false, true))
    = Blif.emit_maj3 "x1" "K0" "CONST0" "o" (Some (true, false, false))
  ∧ Blif.emit_maj3 "K0" "CONST0" "x1" "o" (Some (false, false, true))
    = Blif.emit_maj3 "x1" "K0" "CONST0" "o" (Some (true, false, false))
  ∧ Blif.emit_maj3 "CONST0" "x1" "K0" "o" (Some (false, true, false))
    = Blif.emit_maj3 "x1" "K0" "CONST0" "o" (Some (true, false, false)).
Proof.
  apply (majority_block_ignores_operand_order "x1" "K0" "CONST0" "o" true false false); done.
Defined.

(** X18: a sanitized name contains no bracket, blank or dot; sanitizing is
    idempotent; and the two literals are returned as they are. *)
Theorem sanitize_is_idempotent_and_plain (sig : string) :
  plain (Blif._sanitize sig)
  ∧ Blif._sanitize (Blif._sanitize sig) = Blif._sanitize sig
  ∧ (sig = "1'b0" ∨ sig = "1'b1" → Blif._sanitize sig = sig).
Proof. apply sanitize_facts. Qed.

(** * Adder levels *)

(** [get_level] of [_fa_max_levels]; [levels] is the dictionary of the
    levels assigned so far.  (The test against [None] has no counterpart:
    a [signal] is always a name.) *)
Definition get_level (levels : gmap signal nat) (sig : signal) : nat :=
  if _is_const sig then 0 else default 0 (levels !! sig).

(** Body of the loop of [_fa_max_levels] on the pair [(levels, max_level)]. *)
Definition level_step (st : gmap signal nat * nat) (o : fa_op) : gmap signal nat * nat :=
  let '(levels, max_level) := st in
  let '(a, b, cin, s, k) := o in
  let curr := (get_level levels a `max` get_level levels b) `max` get_level levels cin + 1 in
  let levels := <[k := curr]> (<[s := curr]> levels) in
  (levels, if max_level <? curr then curr else max_level).

Definition _fa_max_levels (fa_ops : list fa_op) : nat :=
  match fa_ops with
  | [] => 0
  | _ => (foldl level_step (∅, 0) fa_ops).2
  end.

(** The level that [_fa_max_levels] has assigned to a signal when its loop
    ends. *)
Definition level_of (fa_ops : list fa_op) (sig : signal) : nat :=
  get_level (foldl level_step (∅, 0) fa_ops).1 sig.

Section Levels.

Lemma fa_max_levels_foldl ops : _fa_max_levels ops = (foldl level_step (∅, 0) ops).2.
Proof. by destruct ops. Qed.

Lemma get_level_insert levels s k c x :
  get_level (<[k := c]> (<[s := c]> levels)) x
  = if decide (x = k ∨ x = s) then (if _is_const x then 0 else c) else get_level levels x.
Proof.
  unfold get_level. destruct (_is_const x); [by case_decide|].
  case_decide as Hx.
  - destruct (decide (x = k)) as [->|Hk]; [by rewrite lookup_insert_eq|].
    rewrite lookup_insert_ne by done. destruct Hx as [?| ->]; [done|].
    by rewrite lookup_insert_eq.
  - rewrite !lookup_insert_ne by naive_solver. done.
Qed.

Lemma get_level_insert_le levels s k c x :
  get_level (<[k := c]> (<[s := c]> levels)) x ≤ c `max` get_level levels x.
Proof. rewrite get_level_insert. case_decide; [destruct (_is_const x)|]; lia. Qed.

(** From any table bounded by its running maximum, the loop keeps the bound
    and raises the maximum by at most one per adder. *)
Lemma level_steps_bound ops levels mx :
  (∀ x, get_level levels x ≤ mx) →
  let st := foldl level_step (levels, mx) ops in
  (∀ x, get_level st.1 x ≤ st.2) ∧ mx ≤ st.2 ≤ mx + length ops
  ∧ (ops ≠ [] → 1 ≤ st.2).
Proof.
  revert levels mx. induction ops as [|[[[[a b] cin] s] k] ops IH]; intros levels mx Hle.
  { cbn. split_and!; first [done|lia]. }
  cbn [foldl level_step].
  set (c := (get_level levels a `max` get_level levels b) `max` get_level levels cin + 1).
  set (levels' := <[k := c]> (<[s := c]> levels)).
  set (mx' := if mx <? c then c else mx).
  assert (c ≤ mx' ∧ mx ≤ mx' ∧ mx' ≤ mx + 1 ∧ 1 ≤ mx') as Hm.
  { pose proof (Hle a). pose proof (Hle b). pose proof (Hle cin).
    unfold mx'. destruct (Nat.ltb_spec mx c); lia. }
  destruct (IH levels' mx') as (H1 & H2 & _).
  { intros x. pose proof (get_level_insert_le levels s k c x). pose proof (Hle x).
    fold levels' in H. lia. }
  cbn zeta. split_and!; [done|lia|cbn [length]; lia|intros _; lia].
Qed.

Lemma get_level_empty x : get_level ∅ x = 0.
Proof. unfold get_level. rewrite lookup_empty. by destruct (_is_const x). Qed.

Lemma fa_max_levels_bounds ops1 ops2 :
  _fa_max_levels ops1 ≤ length ops1
  ∧ (ops1 ≠ [] → 1 ≤ _fa_max_levels ops1)
  ∧ _fa_max_levels ops1 ≤ _fa_max_levels (ops1 ++ ops2)
  ∧ _fa_max_levels (ops1 ++ ops2) ≤ _fa_max_levels ops1 + length ops2.
Proof.
  rewrite !fa_max_levels_foldl, foldl_app.
  destruct (level_steps_bound ops1 ∅ 0) as (H1 & H2 & H3).
  { intros x. by rewrite get_level_empty. }
  destruct (foldl level_step (∅, 0) ops1) as [levels mx] eqn:E. cbn [fst snd] in *.
  destruct (level_steps_bound ops2 levels mx H1) as (_ & H4 & _).
  cbn zeta in H4. split_and!; [lia|done|lia|lia].
Qed.

End Levels.

Section Depths.

Lemma fan_wf_snoc_inv pre o :
  fan_wf (pre ++ [o]) →
  fan_wf pre
  ∧ (∀ x, x ∈ outs o → _is_const x = false)
  ∧ (∀ x, x ∈ ins o → x ∉ outs o)
  ∧ (∀ o' x, o' ∈ pre → x ∈ ins o' ++ outs o' → x ∉ outs o).
Proof.
  induction pre as [|p pre IH]; cbn [app fan_wf].
  - intros (Hc & _ & Hin & _). split_and!; try done. intros o' x Ho'. by apply elem_of_nil in Ho'.
  - intros (Hc & Hnd & Hin & Hlater & Hwf).
    destruct (IH Hwf) as (Hwf' & Hc' & Hin' & Hpre).
    apply Forall_app in Hlater as [Hl1 Hl2]. rewrite Forall_singleton in Hl2.
    split_and!; try done.
    intros o' x [->|Ho']%elem_of_cons; [apply Hl2|by apply Hpre].
Qed.

(** What the table of levels holds after the adders [pre] of a FAN. *)
Definition levels_inv (pre : list fa_op) (st : gmap signal nat * nat) : Prop :=
  (∀ a b cin s k, (a, b, cin, s, k) ∈ pre →
     get_level st.1 s = S ((get_level st.1 a `max` get_level st.1 b) `max` get_level st.1 cin)
     ∧ get_level st.1 k = get_level st.1 s)
  ∧ (∀ x, (∀ o, o ∈ pre → x ∉ outs o) → get_level st.1 x = 0)
  ∧ (∀ x, get_level st.1 x ≤ st.2)
  ∧ ((pre = [] ∧ st.2 = 0) ∨ ∃ o, o ∈ pre ∧ ∀ x, x ∈ outs o → get_level st.1 x = st.2).

Lemma levels_inv_step pre o st :
  fan_wf (pre ++ [o]) → levels_inv pre st → levels_inv (pre ++ [o]) (level_step st o).
Proof.
  intros (Hwf & Hc & Hin & Hpre)%fan_wf_snoc_inv (Hb & Ha & Hle & Hd).
  destruct st as [levels mx], o as [[[[a b] cin] s] k]. cbn [fst snd level_step] in *.
  set (c := (get_level levels a `max` get_level levels b) `max` get_level levels cin + 1).
  assert (_is_const s = false ∧ _is_const k = false) as [Hcs Hck].
  { split; apply Hc; cbn; set_solver. }
  assert (∀ x, x ∈ [a; b; cin] → x ≠ k ∧ x ≠ s) as Hin'.
  { intros x Hx. specialize (Hin x Hx). cbn in Hin. set_solver. }
  assert (∀ x, (x ≠ k ∧ x ≠ s) →
            get_level (<[k := c]> (<[s := c]> levels)) x = get_level levels x) as Hold.
  { intros x Hx. rewrite get_level_insert. case_decide; [naive_solver|done]. }
  assert (get_level (<[k := c]> (<[s := c]> levels)) s = c
          ∧ get_level (<[k := c]> (<[s := c]> levels)) k = c) as [Hs Hk].
  { rewrite !get_level_insert, Hcs, Hck. split; case_decide; naive_solver. }
  assert (∀ o' x, o' ∈ pre → x ∈ ins o' ++ outs o' → x ≠ k ∧ x ≠ s) as Hpre'.
  { intros o' x Ho' Hx. specialize (Hpre o' x Ho' Hx). cbn in Hpre. set_solver. }
  unfold levels_inv. cbn [fst snd]. split_and!.
  - intros a' b' cin' s' k' [Ho'|Ho']%elem_of_app.
    + pose proof (Hpre' _ a' Ho') as Ha'. pose proof (Hpre' _ b' Ho') as Hb'.
      pose proof (Hpre' _ cin' Ho') as Hc'. pose proof (Hpre' _ s' Ho') as Hs'.
      pose proof (Hpre' _ k' Ho') as Hk'. cbn in Ha', Hb', Hc', Hs', Hk'.
      rewrite !Hold by set_solver. by apply Hb.
    + apply list_elem_of_singleton in Ho'. injection Ho' as -> -> -> -> ->.
      rewrite Hs, Hk, !Hold by (apply Hin'; set_solver). split; [unfold c; lia|done].
  - intros x Hx. rewrite Hold.
    + apply Ha. intros o' Ho'. apply Hx. set_solver.
    + specialize (Hx (a, b, cin, s, k)). cbn in Hx. set_solver.
  - intros x. pose proof (get_level_insert_le levels s k c x). pose proof (Hle x).
    destruct (Nat.ltb_spec mx c); lia.
  - right. destruct (Nat.ltb_spec mx c) as [Hlt|Hge].
    + exists (a, b, cin, s, k). split; [set_solver|]. cbn. intros x Hx.
      assert (x = s ∨ x = k) as [-> | ->] by set_solver; done.
    + destruct Hd as [[-> ->]|(o' & Ho' & Hmax)]; [unfold c in Hge; lia|].
      exists o'. split; [set_solver|]. intros x Hx. rewrite Hold; [by apply Hmax|].
      apply (Hpre' o'); [done|]. set_solver.
Qed.

Lemma levels_inv_run ops : fan_wf ops → levels_inv ops (foldl level_step (∅, 0) ops).
Proof.
  induction ops as [|o pre IH] using rev_ind; intros Hwf.
  - unfold levels_inv. cbn. split_and!.
    + intros a b cin s k Hin. by apply elem_of_nil in Hin.
    + intros x _. apply get_level_empty.
    + intros x. by rewrite get_level_empty.
    + by left.
  - rewrite foldl_app. cbn [foldl]. apply levels_inv_step; [done|].
    apply IH. by apply fan_wf_snoc_inv in Hwf as [? _].
Qed.

End Depths.

(** X19: the level count of a list of adders is at most its length and at
    least 1 unless the list is empty; appending adders never lowers it and
    raises it by at most their number (so [csa_levels + m] bounds the level
    of a carry-save stage followed by [m] comparator adders). *)
Theorem fa_levels_bounds (ops1 ops2 : list fa_op) :
  _fa_max_levels ops1 ≤ length ops1
  ∧ (ops1 ≠ [] → 1 ≤ _fa_max_levels ops1)
  ∧ _fa_max_levels ops1 ≤ _fa_max_levels (ops1 ++ ops2)
  ∧ _fa_max_levels (ops1 ++ ops2) ≤ _fa_max_levels ops1 + length ops2.
Proof. apply fa_max_levels_bounds. Qed.

(** X20: on a FAN the levels are logic depths.  Both outputs of every adder
    end with the level one above the highest level of its three operands,
    a signal that no adder drives has level 0, no level exceeds the returned
    count, and the outputs of some adder reach it. *)
Theorem fa_levels_are_depths (ops : list fa_op) :
  fan_wf ops →
  (∀ a b cin s k, (a, b, cin, s, k) ∈ ops →
     level_of ops s = S ((level_of ops a `max` level_of ops b) `max` level_of ops cin)
     ∧ level_of ops k = level_of ops s)
  ∧ (∀ x, (∀ o, o ∈ ops → x ∉ outs o) → level_of ops x = 0)
  ∧ (∀ x, level_of ops x ≤ _fa_max_levels ops)
  ∧ (ops ≠ [] → ∃ o, o ∈ ops ∧ ∀ x, x ∈ outs o → level_of ops x = _fa_max_levels ops).
Proof.
  intros Hwf. destruct (levels_inv_run ops Hwf) as (Hb & Ha & Hle & Hd).
  unfold level_of. rewrite fa_max_levels_foldl. split_and!; try done.
  intros Hne. destruct Hd as [[-> _]|Hd]; done.
Qed.

Lemma fa_levels_are_depths_witness :
  let ops := [(SX 0, SX 1, SX 2, SWire TagRaw OutSum 0 0, SWire TagRaw OutCarry 0 0);
              (SWire TagRaw OutSum 0 0, SX 3, SX 4, SWire TagPlain OutSum 0 1,
               SWire TagPlain OutCarry 0 1)] in
  fan_wf ops
  ∧ _fa_max_levels ops = 2
  ∧ (∀ x, level_of ops x ≤ _fa_max_levels ops).
Proof.
  intros ops.
  assert (fan_wf ops) as Hwf by (unfold ops; solve_concrete_wf).
  split_and!; [done|reflexivity|]. apply (fa_levels_are_depths ops Hwf).
Defined.

(** * More on the scheduler *)

Section SchedulerMore.

Definition wires_match (st : Csa.sched) : Prop :=
  Csa.wires st = (λ o, (op_sum o, op_carry o)) <$> Csa.ops st.

Lemma wires_match_after st new : wires_match st → wires_match (sched_after st new).
Proof.
  unfold wires_match, sched_after. cbn [Csa.wires Csa.ops]. intros ->.
  by rewrite fmap_app.
Qed.

Lemma loop_wires fuel : ∀ ls ls',
  Csa.loop fuel ls = Some ls' → wires_match (Csa.sch ls) → wires_match (Csa.sch ls').
Proof.
  induction fuel as [|fuel IH]; intros ls ls' Hrun Hw; [done|].
  cbn [Csa.loop] in Hrun. destruct (Csa.loop_step ls) as [ls1|] eqn:Estep.
  - apply loop_step_Some in Estep as (j & _ & ->).
    apply (IH _ _ Hrun). destruct (process_column_spec ls j) as (_ & -> & _).
    by apply wires_match_after.
  - by injection Hrun as <-.
Qed.

Lemma run_columns_wires raw consts ls :
  Csa.run_columns raw consts = Some ls → wires_match (Csa.sch ls).
Proof.
  unfold Csa.run_columns. intros Hrun. apply (loop_wires _ _ _ Hrun).
  rewrite loop_entry_spec. cbn [Csa.sch]. by do 2 apply wires_match_after.
Qed.

(** The scheduler on primary signals: it returns, its adders form a FAN in
    which the [i]-th adder drives the two wires numbered [i], and the wires
    it lists are the outputs of its adders, in order. *)
Lemma scheduler_structure raw consts :
  Forall primary raw → (∀ c, Forall primary (toks consts c)) →
  ∃ r, Csa.csa_macro_schedule_all_columns raw consts = Some r
    ∧ fan_ok (strip_col <$> Csa.r_ops r)
    ∧ Csa.r_wires r = (λ o, (op_sum o, op_carry o)) <$> Csa.r_ops r
    ∧ (∀ i o, Csa.r_ops r !! i = Some o →
         ∃ t col, op_sum o = SWire t OutSum col i ∧ op_carry o = SWire t OutCarry col i)
    ∧ NoDup (Csa.r_wires r).
Proof.
  intros Hraw Hconsts.
  assert (Forall (tok_ok any_prim 0) raw) as Hraw'.
  { eapply Forall_impl; [exact Hraw|]. intros s. apply primary_tok_ok. }
  assert (∀ c, Forall (tok_ok any_prim 0) (toks consts c)) as Hconsts'.
  { intros c. eapply Forall_impl; [apply Hconsts|]. intros s. apply primary_tok_ok. }
  destruct (run_columns_sound any_prim raw consts Hraw' Hconsts') as (ls & Hrun & Hinv & _).
  pose proof (run_columns_wires _ _ _ Hrun) as Hw.
  pose proof (inv_ops _ _ Hinv) as Hok.
  assert (∀ i o, Csa.ops (Csa.sch ls) !! i = Some o →
            ∃ t col, op_sum o = SWire t OutSum col i ∧ op_carry o = SWire t OutCarry col i) as Hnum.
  { intros i o Hi. specialize (Hok i (strip_col o)). rewrite list_lookup_fmap, Hi in Hok.
    specialize (Hok eq_refl). destruct o as [[[[[[col kind] a] b] cin] s] k].
    destruct Hok as (_ & _ & _ & t & col' & -> & ->). by exists t, col'. }
  eexists. split_and!.
  - unfold Csa.csa_macro_schedule_all_columns. rewrite Hrun. done.
  - by eapply ops_ok_fan_ok.
  - exact Hw.
  - exact Hnum.
  - cbn [Csa.r_wires]. rewrite Hw. apply NoDup_alt. intros i j p Hi Hj.
    rewrite list_lookup_fmap in Hi, Hj.
    destruct (Csa.ops (Csa.sch ls) !! i) as [oi|] eqn:Ei; [|done].
    destruct (Csa.ops (Csa.sch ls) !! j) as [oj|] eqn:Ej; [|done].
    destruct (Hnum i oi Ei) as (t & col & Hs & _). destruct (Hnum j oj Ej) as (t' & col' & Hs' & _).
    cbn in Hi, Hj. injection Hi as <-. injection Hj as Hj _. congruence.
Qed.

(** With no injected constants and fewer than [2^m] inputs, the residual
    bits of the columns below [m] spell the number of ones in binary. *)
Lemma scheduler_counts raw m :
  Forall primary raw → length raw < 2 ^ m →
  ∃ r, Csa.csa_macro_schedule_all_columns raw ∅ = Some r
    ∧ ∀ ρ0 : env,
        bits_value (run_fan ρ0 (strip_col <$> Csa.r_ops r))
          ((λ i, default SConst0 (Csa.r_residual_by_col r !! i)) <$> seq 0 m)
        = val ρ0 raw.
Proof.
  intros Hraw Hlen.
  assert (Forall (tok_ok any_prim 0) raw) as Hraw'.
  { eapply Forall_impl; [exact Hraw|]. intros s. apply primary_tok_ok. }
  destruct (run_columns_sound any_prim raw ∅ Hraw') as (ls & Hrun & Hinv & _ & _ & _ & Hval).
  { intros c. rewrite toks_empty. constructor. }
  eexists. split.
  { unfold Csa.csa_macro_schedule_all_columns. rewrite Hrun. done. }
  cbn [Csa.r_ops Csa.r_residual_by_col]. intros ρ0.
  set (ρ := run_fan ρ0 (strip_col <$> Csa.ops (Csa.sch ls))).
  assert (residual_value ρ (Csa.residual_by_col ls) = val ρ0 raw) as Hres.
  { rewrite Hval by (apply run_fan_models; eapply ops_ok_fan_wf, (inv_ops _ _ Hinv)).
    unfold queues_value. rewrite msum_empty, Nat.add_0_r.
    assert (∀ l, Forall primary l → val ρ l = val ρ0 l) as Hvalf; [|by apply Hvalf].
    induction 1 as [|x l Hx Hl IH]; [done|]. rewrite !val_cons, IH.
    f_equal. f_equal. apply (run_fan_primary any_prim); [apply (inv_ops _ _ Hinv)|done]. }
  rewrite <- Hres. apply (residual_low ρ m).
  rewrite Hres. pose proof (val_le_length ρ0 raw). lia.
Qed.

End SchedulerMore.

(** X21: called on signals that are not scheduler wires, the CSA scheduler
    returns; its adders form a FAN over the primary inputs, the [i]-th adder
    drives the sum and carry wires numbered [i], and the list [wires] is
    exactly the outputs of the adders in order, with no pair repeated. *)
Theorem scheduler_declares_each_wire_once (raw_inputs : list signal)
    (const_names_per_col : gmap nat (list signal)) :
  Forall primary raw_inputs →
  (∀ c, Forall primary (toks const_names_per_col c)) →
  ∃ r, Csa.csa_macro_schedule_all_columns raw_inputs const_names_per_col = Some r
    ∧ fan_ok (strip_col <$> Csa.r_ops r)
    ∧ Csa.r_wires r = (λ o, (op_sum o, op_carry o)) <$> Csa.r_ops r
    ∧ (∀ i o, Csa.r_ops r !! i = Some o →
         ∃ t col, op_sum o = SWire t OutSum col i ∧ op_carry o = SWire t OutCarry col i)
    ∧ NoDup (Csa.r_wires r).
Proof. apply scheduler_structure. Qed.

Lemma scheduler_declares_each_wire_once_witness :
  ∃ r, Csa.csa_macro_schedule_all_columns [SX 0; SX 1; SX 2; SX 3; SX 4] {[1 := [SK 1]]} = Some r
    ∧ fan_ok (strip_col <$> Csa.r_ops r)
    ∧ Csa.r_wires r = (λ o, (op_sum o, op_carry o)) <$> Csa.r_ops r
    ∧ (∀ i o, Csa.r_ops r !! i = Some o →
         ∃ t col, op_sum o = SWire t OutSum col i ∧ op_carry o = SWire t OutCarry col i)
    ∧ NoDup (Csa.r_wires r).
Proof.
  apply (scheduler_declares_each_wire_once [SX 0; SX 1; SX 2; SX 3; SX 4] {[1 := [SK 1]]}).
  - repeat constructor.
  - intros c. rewrite toks_singleton. case_decide; repeat constructor.
Defined.

(** X22: with no injected constants and fewer than [2^m] input signals, the
    residual bits of columns [0 .. m-1] (["1'b0"] where a column has none),
    evaluated after the scheduler's adders, are the binary digits of the
    number of input signals that are 1. *)
Theorem scheduler_counts_ones_in_binary (raw_inputs : list signal) (m : nat) :
  Forall primary raw_inputs → length raw_inputs < 2 ^ m →
  ∃ r, Csa.csa_macro_schedule_all_columns raw_inputs ∅ = Some r
    ∧ ∀ ρ0 : env,
        bits_value (run_fan ρ0 (strip_col <$> Csa.r_ops r))
          ((λ i, default SConst0 (Csa.r_residual_by_col r !! i)) <$> seq 0 m)
        = val ρ0 raw_inputs.
Proof. apply scheduler_counts. Qed.

Lemma scheduler_counts_ones_in_binary_witness :
  ∃ r, Csa.csa_macro_schedule_all_columns [SX 0; SX 1; SConst1; SX 2; SX 3] ∅ = Some r
    ∧ ∀ ρ0 : env,
        bits_value (run_fan ρ0 (strip_col <$> Csa.r_ops r))
          ((λ i, default SConst0 (Csa.r_residual_by_col r !! i)) <$> seq 0 3)
        = val ρ0 [SX 0; SX 1; SConst1; SX 2; SX 3].
Proof.
  apply (scheduler_counts_ones_in_binary [SX 0; SX 1; SConst1; SX 2; SX 3] 3).
  - repeat constructor.
  - simpl. lia.
Defined.

(** * More on the baseline *)

Section BaselineMore.





End BaselineMore.






(** * The bias of the folded-bias design *)

Section BiasBits.





End BiasBits.



(** * The blocks of a BLIF file *)

Section BlifFile.
Import Blif.

(** A well-formed three-input [.names] block. *)
Definition block_wf (b : block) : Prop :=
  length (blk_inputs b) = 3 ∧ Forall (λ r, String.length r = 3) (blk_rows b).

Lemma sorted3_length (A B C : string) : length (sorted [A; B; C]) = 3.
Proof. destruct (sorted3_sorted A B C) as [_ Hp]. by rewrite Hp. Qed.

Lemma emit_maj3_wf A B C OUT mask : block_wf (emit_maj3 A B C OUT mask).
Proof.
  split.
  - destruct (emit_maj3_inputs A B C OUT mask) as [-> _]. apply sorted3_length.
  - unfold emit_maj3. destruct (default _ mask) as [[na nb] nc].
    destruct (_sorted3 A B C) as [srt perm]. cbn [blk_rows].
    set (m0 := _ !!! 0). set (m1 := _ !!! 1). set (m2 := _ !!! 2). clearbody m0 m1 m2.
    destruct m0, m1, m2; vm_compute; repeat constructor.
Qed.

Lemma emit_xor3_wf A B C S : block_wf (emit_xor3 A B C S).
Proof.
  split.
  - destruct (emit_xor3_inputs A B C S) as [-> _]. apply sorted3_length.
  - unfold emit_xor3. destruct (_sorted3 A B C) as [srt perm].
    cbn [blk_rows fmap list_fmap]. repeat constructor.
Qed.

Lemma expand_fa_shape maj_only i o :
  length (expand_fa maj_only i o) = (if maj_only then 3 else 2)
  ∧ Forall block_wf (expand_fa maj_only i o).
Proof.
  destruct o as [[[[a b] cin] s] k]. unfold expand_fa. destruct maj_only.
  - split; [done|].
    repeat first [apply Forall_nil_2 | apply Forall_cons_2]; apply emit_maj3_wf.
  - split; [done|].
    repeat first [apply Forall_nil_2 | apply Forall_cons_2];
      first [apply emit_xor3_wf | apply emit_maj3_wf].
Qed.

Lemma join_imap_shape {A} (P : block → Prop) (k : nat) (l : list A) :
  ∀ f : nat → A → list block,
  (∀ i o, length (f i o) = k ∧ Forall P (f i o)) →
  length (mjoin (imap f l)) = k * length l ∧ Forall P (mjoin (imap f l)).
Proof.
  induction l as [|o l IH]; intros f Hf.
  - cbn. split; [lia|constructor].
  - cbn [imap mjoin list_join]. destruct (Hf 0 o) as [Hl HP].
    destruct (IH (f ∘ S)) as [IHl IHP]; [intros i o'; apply Hf|].
    rewrite length_app, Forall_app. split; [|done]. cbn [length].
    etrans; [apply (f_equal2 Nat.add); [exact Hl|exact IHl]|lia].
Qed.

Lemma elem_of_join_imap {A} (f : nat → A → list block) (l : list A) b :
  b ∈ mjoin (imap f l) ↔ ∃ i o, l !! i = Some o ∧ b ∈ f i o.
Proof.
  rewrite list_elem_of_join. split.
  - intros (bs & Hb & (i & o & -> & Hi)%elem_of_lookup_imap). eauto.
  - intros (i & o & Hi & Hb). exists (f i o). split; [done|].
    apply elem_of_lookup_imap. eauto.
Qed.

End BlifFile.

Section BlifConstants.
Import Blif.

Lemma sanitize_head c rest :
  c ≠ "1"%char → plain_char c → _sanitize (String c rest) = String c (replace_chars rest).
Proof.
  intros H1 (H2 & H3 & H4 & H5). unfold _sanitize.
  rewrite !bool_decide_eq_false_2 by (intros [= ? _]; done).
  cbn [orb replace_chars]. by rewrite !bool_decide_eq_false_2 by done.
Qed.

(** The name of a signal that is not a literal starts, also after
    [_sanitize], with a lower-case letter, [K] or [T]. *)
Lemma sanitize_render_head s :
  _is_const s = false →
  ∃ c rest, _sanitize (render s) = String c rest ∧ c ≠ "C"%char ∧ c ≠ "1"%char.
Proof.
  intros Hs. destruct s as [| |i|j|t o col id|j|i|i|i]; try done;
    try destruct t; try destruct o;
    cbn [render render_tag render_out String.append];
    (eexists _, _; split; [apply sanitize_head; [|repeat split]; discriminate|];
     split; discriminate).
Qed.

Lemma sanitize_render_lit s lit :
  lit = "1'b0" ∨ lit = "1'b1" →
  _sanitize (render s) = lit ↔ s = (if bool_decide (lit = "1'b1") then SConst1 else SConst0).
Proof.
  intros Hlit. destruct (_is_const s) eqn:Hs.
  - destruct s; try done; destruct Hlit as [-> | ->]; vm_compute; split; congruence.
  - destruct (sanitize_render_head s Hs) as (c & rest & -> & _ & Hc). split.
    + destruct Hlit as [-> | ->]; intros [= ? _]; done.
    + intros ->. by case_bool_decide.
Qed.

Lemma map_in_render s lit name :
  (lit = "1'b0" ∧ name = "CONST0") ∨ (lit = "1'b1" ∧ name = "CONST1") →
  map_in (render s) = name → _sanitize (render s) = lit.
Proof.
  intros Hlit. unfold map_in. destruct (_is_const s) eqn:Hs.
  - destruct s; try done; destruct Hlit as [[-> ->]|[-> ->]]; vm_compute; congruence.
  - destruct (sanitize_render_head s Hs) as (c & rest & -> & Hc & Hc1).
    rewrite !bool_decide_eq_false_2 by (intros [= ? _]; done).
    destruct Hlit as [[-> ->]|[-> ->]]; intros [= ? _]; done.
Qed.

Lemma sanitize_render_not_const s name :
  name = "CONST0" ∨ name = "CONST1" → _sanitize (render s) ≠ name.
Proof.
  intros Hname. destruct (_is_const s) eqn:Hs.
  - destruct s; try done; destruct Hname as [-> | ->]; vm_compute; congruence.
  - destruct (sanitize_render_head s Hs) as (c & rest & -> & Hc & _).
    destruct Hname as [-> | ->]; intros [= ? _]; done.
Qed.

Lemma elem_of_first_occurrences x names : ∀ seen,
  x ∈ first_occurrences seen names → x ∈ names.
Proof.
  induction names as [|y names IH]; intros seen; cbn [first_occurrences]; [done|].
  case_bool_decide; rewrite ?elem_of_cons; naive_solver.
Qed.

Lemma uses_const_intro lit (ops : list fa_op) a b cin s k x :
  (a, b, cin, s, k) ∈ ops → x ∈ [a; b; cin] → _sanitize (render x) = lit →
  uses_const lit (render_op <$> ops) = true.
Proof.
  intros Ho Hx Hlit. unfold uses_const. apply existsb_exists.
  exists (render_op (a, b, cin, s, k)). split.
  - apply list_elem_of_In, list_elem_of_fmap. eauto.
  - cbn [render_op]. rewrite !orb_true_iff, !bool_decide_eq_true.
    set_solver.
Qed.

(** A block of the expansion that reads [CONST0] or [CONST1] comes from an
    adder with the corresponding literal among its operands. *)
Lemma block_reads_const (ops : list fa_op) maj_only lit name blk :
  (lit = "1'b0" ∧ name = "CONST0") ∨ (lit = "1'b1" ∧ name = "CONST1") →
  blk ∈ mjoin (imap (expand_fa maj_only) (render_op <$> ops)) →
  name ∈ blk_inputs blk →
  uses_const lit (render_op <$> ops) = true.
Proof.
  intros Hlit (i & o' & Hi & Hb)%elem_of_join_imap Hname.
  rewrite list_lookup_fmap in Hi.
  destruct (ops !! i) as [[[[[a b] cin] s] k]|] eqn:Ei; [|done].
  injection Hi as <-. apply list_elem_of_lookup_2 in Ei.
  assert (name = "CONST0" ∨ name = "CONST1") as Hn by (destruct Hlit as [[_ ->]|[_ ->]]; eauto).
  assert (name ∈ [map_in (render a); map_in (render b); map_in (render cin)]) as Hin.
  { cbn [render_op expand_fa] in Hb. destruct maj_only.
    - apply elem_of_cons in Hb as [->|Hb]; [|apply elem_of_cons in Hb as [->|Hb]];
        [| |apply list_elem_of_singleton in Hb as ->].
      + destruct (emit_maj3_inputs (map_in (render a)) (map_in (render b)) (map_in (render cin))
                    (_sanitize (render k)) None) as [E _].
        rewrite E in Hname. by rewrite (proj2 (sorted3_sorted _ _ _)) in Hname.
      + match type of Hname with _ ∈ blk_inputs (emit_maj3 ?A ?B ?C ?O ?m) =>
          destruct (emit_maj3_inputs A B C O m) as [E _] end.
        rewrite E in Hname. by rewrite (proj2 (sorted3_sorted _ _ _)) in Hname.
      + match type of Hname with _ ∈ blk_inputs (emit_maj3 ?A ?B ?C ?O ?m) =>
          destruct (emit_maj3_inputs A B C O m) as [E _] end.
        rewrite E, (proj2 (sorted3_sorted _ _ _)) in Hname.
        apply elem_of_cons in Hname as [->|Hname].
        { exfalso. destruct Hn as [Hn|Hn]; cbn [String.append] in Hn; discriminate. }
        apply elem_of_cons in Hname as [->|Hname]; [set_solver|].
        apply list_elem_of_singleton in Hname. exfalso.
        by apply (sanitize_render_not_const k name).
    - apply elem_of_cons in Hb as [->|Hb]; [|apply list_elem_of_singleton in Hb as ->].
      + cbn [emit_xor3 blk_inputs] in Hname. unfold emit_xor3, _sorted3 in Hname.
        cbn [blk_inputs] in Hname. by rewrite (proj2 (sorted3_sorted _ _ _)) in Hname.
      + match type of Hname with _ ∈ blk_inputs (emit_maj3 ?A ?B ?C ?O ?m) =>
          destruct (emit_maj3_inputs A B C O m) as [E _] end.
        rewrite E in Hname. by rewrite (proj2 (sorted3_sorted _ _ _)) in Hname. }
  assert (∃ x, x ∈ [a; b; cin] ∧ map_in (render x) = name) as (x & Hx & Hmap) by set_solver.
  eapply uses_const_intro; [exact Ei|exact Hx|]. by eapply map_in_render.
Qed.

End BlifConstants.

(** X26: whatever the adders, every [.names] block of the expansion is a
    three-input gate whose rows have three characters, and there are exactly
    three blocks per adder in the majority-only form and two otherwise (no
    inverter or buffer block is emitted for an adder). *)
Theorem lowering_emits_three_input_gates (maj_only : bool)
    (fa_ops : list (string * string * string * string * string)) :
  let blocks := mjoin (imap (Blif.expand_fa maj_only) fa_ops) in
  length blocks = (if maj_only then 3 else 2) * length fa_ops
  ∧ Forall (λ b, length (Blif.blk_inputs b) = 3
                 ∧ Forall (λ r, String.length r = 3) (Blif.blk_rows b)) blocks.
Proof. apply (join_imap_shape block_wf). intros i o. apply expand_fa_shape. Qed.

(** X27: in the file written for a network of named signals, a block reads
    [CONST1] or [CONST0] only if the file defines it: [.names CONST1] with
    the row [1] follows the blocks whenever some block reads [CONST1], and
    [.names CONST0] with no row, just before the output buffer, whenever
    some block reads [CONST0]. *)
Theorem blif_defines_the_constants_it_reads (model_name : string) (n : nat)
    (ops : list fa_op) (maj_signal : signal) (const1_names : list signal) (maj_only : bool) :
  let fa_ops := render_op <$> ops in
  let lines := Blif._write_blif_from_fas_canonical model_name n fa_ops (render maj_signal)
                 (render <$> const1_names) maj_only in
  let blocks := mjoin (imap (Blif.expand_fa maj_only) fa_ops) in
  (∀ b, b ∈ blocks → "CONST1"%string ∈ Blif.blk_inputs b →
     ∃ pre post, lines = pre ++ [".names CONST1"; "1"]%string ++ post)
  ∧ (∀ b, b ∈ blocks → "CONST0"%string ∈ Blif.blk_inputs b →
       ∃ pre, lines = pre ++ [".names CONST0";
                              ".names " +:+ Blif._sanitize (render maj_signal) +:+ " maj";
                              "1 1"; ".end"]%string).
Proof.
  intros fa_ops lines blocks. subst fa_ops lines blocks.
  unfold Blif._write_blif_from_fas_canonical. split.
  - intros b Hb Hin.
    rewrite (block_reads_const ops maj_only "1'b1" "CONST1" b) by eauto.
    rewrite (bool_decide_eq_false_2 (_ ∈ _)).
    2:{ intros Hc%elem_of_first_occurrences. revert Hc. rewrite <- list_fmap_compose.
        intros (s & Hs & _)%list_elem_of_fmap. symmetry in Hs. revert Hs.
        apply sanitize_render_not_const. by right. }
    cbn [andb negb].
    match goal with
    | |- ∃ pre post, ?A ++ ?B ++ ?C ++ ?D ++ ?E ++ ?X ++ ?F = _ =>
        exists (A ++ B ++ C ++ D ++ E), F
    end.
    by rewrite <- !app_assoc.
  - intros b Hb Hin.
    rewrite (block_reads_const ops maj_only "1'b0" "CONST0" b) by eauto.
    match goal with
    | |- ∃ pre, ?A ++ ?B ++ ?C ++ ?D ++ ?E ++ ?X ++ ?F = _ =>
        exists (A ++ B ++ C ++ D ++ E ++ X)
    end.
    by rewrite <- !app_assoc.
Qed.
